(** * Round-Robin-Scheduler: the scheduling engine of [RoundRobinScheduler.tsx]

    A shallow embedding of [roundRobin], [fcfsScheduler] and of the quantum
    sweep of [AnalyzeView], and the properties of the engine stated over it.

    Number model.  The process fields reach the engine through
    [parseInt] (the [update] handler), so [id], [at] and [bt] are integers and
    are modelled as [Z]; times, remaining times and segment bounds are sums and
    differences of these and stay in [Z].  The engine is given twice:
    [roundRobin] and [fcfsScheduler] add and subtract exactly, which is what
    the source does while every time is an integer of at most [2^53];
    [roundRobin64] and [fcfsScheduler64] round every sum and difference as
    binary64 does, and the two are shown to agree in that range.  The two
    averages, the utilisation and the throughput are quotients: they are
    rationals, each quotient rounded to the nearest binary64 float
    ([rndQ64]), extended with the non-finite values of a JavaScript number
    ([jsnum]).  Arrays are lists read with [!!] and written
    with [<[i:=v]>]. *)

From Stdlib Require Import ZArith QArith Qround Lia List Permutation Sorted.
From stdpp Require Import base list strings pretty sorting.

#[local] Set Warnings "-clear-no-such-hyp".

Local Open Scope Z_scope.

(** ** Data model *)

(** [type Proc = { id: number; at: number; bt: number }] *)
Record Proc := mkProc { id : Z; at_ : Z; bt : Z }.

(** An element of [gantt]: [{ pid: string; start: number; end: number }]. *)
Record Seg := mkSeg { pid : string; start : Z; end_ : Z }.

(** A JavaScript number that is the result of a division. *)
Inductive jsnum := NaN | PInf | NInf | Num (x : Q).

(** [a / b] on integers: [0/0] is [NaN], [a/0] is an infinity. *)
Definition jsdiv (a b : Z) : jsnum :=
  if b =? 0 then
    (if a =? 0 then NaN else if 0 <? a then PInf else NInf)
  else Num (Qdiv (inject_Z a) (inject_Z b)).

(** [x * k] for an integer [k > 0]. *)
Definition jsmul (x : jsnum) (k : Z) : jsnum :=
  match x with
  | Num r => Num (Qmult r (inject_Z k))
  | other => other
  end.

(** [x < y]; every comparison with [NaN] is false. *)
Definition jslt (x y : jsnum) : bool :=
  match x, y with
  | NaN, _ | _, NaN => false
  | _, NInf => false
  | NInf, _ => true
  | PInf, _ => false
  | _, PInf => true
  | Num a, Num b => negb (Qle_bool b a)
  end.

(** [x === y] on numbers. *)
Definition jseq (x y : jsnum) : bool :=
  match x, y with
  | PInf, PInf | NInf, NInf => true
  | Num a, Num b => Qeq_bool a b
  | _, _ => false
  end.

(** The binary64 float nearest to a rational, the one with the even
    significand on a tie: the quotient is scaled by a power of two to a
    significand of 53 bits, which is rounded to an integer.  Neither
    subnormal floats nor the overflow to an infinity are modelled. *)
Definition rndQ64 (x : Q) : Q :=
  let a := Z.abs (Qnum x) in
  let b := Z.pos (Qden x) in
  if a =? 0 then 0%Q
  else
    let scaled (e : Z) : Z * Z :=
      if 0 <=? e then (a, b * 2 ^ e) else (a * 2 ^ (- e), b) in
    let e0 := Z.log2 a - Z.log2 b - 53 in
    let e := if 2 ^ 53 <=? (scaled e0).1 / (scaled e0).2 then e0 + 1 else e0 in
    let m := (scaled e).1 / (scaled e).2 in
    let r := (scaled e).1 mod (scaled e).2 in
    let m' :=
      if ((scaled e).2 <? 2 * r) || ((2 * r =? (scaled e).2) && Z.odd m)
      then m + 1 else m in
    let s := if Qnum x <? 0 then -1 else 1 in
    if 0 <=? e then Qmake (s * m' * 2 ^ e) 1
    else Qmake (s * m') (Z.to_pos (2 ^ (- e))).

(** The result of an operation on numbers, as the float it is stored as. *)
Definition jsround (x : jsnum) : jsnum :=
  match x with
  | Num r => Num (rndQ64 r)
  | other => other
  end.

(** [Number.prototype.toFixed(d)] on a float of magnitude below [10^21]: the
    magnitude is rounded to the nearest multiple of [10^-d], the larger one
    on a tie; the digits are padded to [d + 1] places and the point is put
    before the last [d]. *)
Fixpoint zeros (k : nat) : string :=
  match k with
  | O => ""
  | S k' => String.append "0" (zeros k')
  end.

Definition pad_zeros (len : nat) (s : string) : string :=
  String.append (zeros (len - String.length s)) s.

Definition toFixed (x : jsnum) (d : nat) : string :=
  match x with
  | NaN => "NaN"
  | PInf => "Infinity"
  | NInf => "-Infinity"
  | Num r =>
      let a := Z.abs (Qnum r) in
      let b := Z.pos (Qden r) in
      let n := (2 * a * 10 ^ Z.of_nat d + b) / (2 * b) in
      let digits := pad_zeros (S d) (pretty n) in
      let k := (String.length digits - d)%nat in
      let body :=
        if decide (d = 0%nat) then digits
        else String.append (String.substring 0 k digits)
               (String.append "." (String.substring k d digits)) in
      if Qnum r <? 0 then String.append "-" body else body
  end.

(** [Proc & { ct; tat; wt; rt }], a row of [resultData]. *)
Record Row := mkRow { proc : Proc; ct : Z; tat : Z; wt : Z; rt : Z }.

(** [RRResult]; [fcfsScheduler] returns an object of the same shape. *)
Record RRResult := mkResult {
  resultData : list Row;
  gantt : list Seg;
  cs : nat;
  avgTat : jsnum;
  avgWt : jsnum;
  cpuUtil : string;
  throughput : string;
  totalTime : Z
}.

(** The error taxonomy of the specification.  The source has no [throw]
    statement, so no function below produces [Throws]; the constructor is
    there to state what the specification says about failures. *)
Inductive EngineError := EmptyInput | InvalidQuantum | InvalidRange | InvalidProcess.

(** What a call does: it returns, it throws, or the loop is still running
    when the fuel given to the model is spent. *)
Inductive outcome (A : Type) :=
  | Returns (a : A)
  | Throws (e : EngineError)
  | OutOfFuel.
Arguments Returns {A} a.
Arguments Throws {A} e.
Arguments OutOfFuel {A}.

(** ** Array reads

    [a[i]] with the value a missing element would be coerced to.  Every index
    the engine reads is below the array's length (see [rr_inv]), so the
    default is never observed. *)
Definition getZ (a : list Z) (i : nat) : Z := default 0 (a !! i).
Definition getB (a : list bool) (i : nat) : bool := default false (a !! i).
Definition atOf (sorted : list Proc) (i : nat) : Z := default 0 (at_ <$> sorted !! i).
Definition btOf (sorted : list Proc) (i : nat) : Z := default 0 (bt <$> sorted !! i).
Definition idOf (sorted : list Proc) (i : nat) : Z := default 0 (id <$> sorted !! i).

(** [`P${p.id}`] *)
Definition pidOfId (i : Z) : string := String.append "P" (pretty i).

(** ** Sorting

    [Array.prototype.sort] is stable; with the comparators [a.at - b.at] and
    [a.id - b.id] its result is the stable sort by that key. *)
Fixpoint insert_by {A} (key : A → Z) (x : A) (l : list A) : list A :=
  match l with
  | [] => [x]
  | y :: l' => if key x <=? key y then x :: y :: l' else y :: insert_by key x l'
  end.

Definition sort_by {A} (key : A → Z) (l : list A) : list A :=
  foldr (insert_by key) [] l.

(** ** Derived figures shared by the two schedulers *)

Definition sumZ (l : list Z) : Z := foldr Z.add 0 l.

(** [gantt.reduce((acc, _, idx) => idx > 0 && gantt[idx].pid !== gantt[idx-1].pid ? acc + 1 : acc, 0)] *)
Fixpoint contextSwitches (g : list Seg) : nat :=
  match g with
  | a :: (b :: _) as tl =>
      ((if String.eqb (pid b) (pid a) then 0 else 1) + contextSwitches tl)%nat
  | _ => 0%nat
  end.

(** [gantt[gantt.length - 1]?.end || 0] *)
Definition lastEnd (g : list Seg) : Z :=
  match last g with
  | Some s => end_ s
  | None => 0
  end.

(** [totalTime ? ((totalBurst / totalTime) * 100).toFixed(2) : '0.00']; the
    quotient and the product are each rounded to a float. *)
Definition cpuUtilOf (totalBurst total : Z) : string :=
  if total =? 0 then "0.00"
  else toFixed (jsround (jsmul (jsround (jsdiv totalBurst total)) 100)) 2.

(** [totalTime ? (n / totalTime).toFixed(3) : '0.000'] *)
Definition throughputOf (n : nat) (total : Z) : string :=
  if total =? 0 then "0.000" else toFixed (jsround (jsdiv (Z.of_nat n) total)) 3.

(** ** roundRobin *)

(** The mutable locals of [roundRobin]. *)
Record RRState := mkState {
  time : Z;
  queue : list nat;
  remaining : list Z;
  completion : list Z;
  firstResponse : list Z;
  visited : list bool;
  rr_gantt : list Seg
}.

(** [queue.push(j); visited[j] = true] under the guard [c]. *)
Definition push_if (c : bool) (j : nat) (qv : list nat * list bool)
  : list nat * list bool :=
  if c then (qv.1 ++ [j], <[j := true]> qv.2) else qv.

(** Lines 51-56: the loop that fills the queue before the first slice. *)
Definition initial_scan (sorted : list Proc) (t : Z) (qv : list nat * list bool)
  : list nat * list bool :=
  foldl (λ qv j, push_if ((atOf sorted j <=? t) && negb (getB qv.2 j)) j qv)
        qv (seq 0 (length sorted)).

(** Lines 68-73: the scan for arrivals after a slice. *)
Definition arrivals (sorted : list Proc) (t : Z) (rem : list Z)
  (qv : list nat * list bool) : list nat * list bool :=
  foldl (λ qv j,
           push_if ((atOf sorted j <=? t) && negb (getB qv.2 j) && (0 <? getZ rem j)) j qv)
        qv (seq 0 (length sorted)).

(** Lines 77-86: when the queue is empty, the first index that still has work
    and never entered the queue is pushed, and the clock jumps to its arrival. *)
Definition gap_fill (sorted : list Proc) (t : Z) (rem : list Z) (vis : list bool)
  : Z * list nat * list bool :=
  match find (λ k, (0 <? getZ rem k) && negb (getB vis k)) (seq 0 (length sorted)) with
  | Some k => (Z.max t (atOf sorted k), [k], <[k := true]> vis)
  | None => (t, [], vis)
  end.

(** Lines 59-66: [i] is taken from the head of the queue [i :: rest] and runs
    for one slice.  The sum and the two differences are exact here;
    [rr_slice64] is the same step with each of them rounded as binary64
    does, and the two coincide while the clock stays at or below [2^53]
    ([rr_slice64_exact]). *)
Definition rr_slice (sorted : list Proc) (q : Z) (i : nat) (rest : list nat)
  (st : RRState) : RRState :=
  let firstResponse1 :=
    if getZ (firstResponse st) i =? -1
    then <[i := time st - atOf sorted i]> (firstResponse st)
    else firstResponse st in
  let runTime := Z.min (getZ (remaining st) i) q in
  let start1 := time st in
  let end1 := time st + runTime in
  mkState end1 rest
          (<[i := getZ (remaining st) i - runTime]> (remaining st))
          (completion st) firstResponse1 (visited st)
          (rr_gantt st ++ [mkSeg (pidOfId (idOf sorted i)) start1 end1]).

(** Lines 68-75: the arrivals are pushed, then [i] is pushed again or its
    completion time is written. *)
Definition rr_enqueue (sorted : list Proc) (i : nat) (st : RRState) : RRState :=
  let qv := arrivals sorted (time st) (remaining st) (queue st, visited st) in
  if 0 <? getZ (remaining st) i
  then mkState (time st) (qv.1 ++ [i]) (remaining st) (completion st)
               (firstResponse st) qv.2 (rr_gantt st)
  else mkState (time st) qv.1 (remaining st) (<[i := time st]> (completion st))
               (firstResponse st) qv.2 (rr_gantt st).

(** Lines 77-86. *)
Definition rr_gap (sorted : list Proc) (st : RRState) : RRState :=
  match queue st with
  | [] =>
      let '(t, qu, vis) := gap_fill sorted (time st) (remaining st) (visited st) in
      mkState t qu (remaining st) (completion st) (firstResponse st) vis (rr_gantt st)
  | _ => st
  end.

(** One iteration of [while (queue.length > 0)], lines 59-86, for the queue
    [i :: rest]. *)
Definition rr_body (sorted : list Proc) (q : Z) (i : nat) (rest : list nat)
  (st : RRState) : RRState :=
  rr_gap sorted (rr_enqueue sorted i (rr_slice sorted q i rest st)).

(** The [while] loop.  The test [queue.length > 0] costs no fuel; each
    iteration costs one. *)
Fixpoint rr_loop (fuel : nat) (sorted : list Proc) (q : Z) (st : RRState)
  : option RRState :=
  match queue st with
  | [] => Some st
  | i :: rest =>
      match fuel with
      | O => None
      | S fuel' => rr_loop fuel' sorted q (rr_body sorted q i rest st)
      end
  end.

(** Lines 41-56: the state when the [while] loop is reached. *)
Definition rr_init (sorted : list Proc) : RRState :=
  let n := length sorted in
  let time0 := atOf sorted 0 in
  let qv := initial_scan sorted time0 ([], replicate n false) in
  mkState time0 qv.1 (bt <$> sorted) (replicate n 0) (replicate n (-1)) qv.2 [].

(** Lines 89-105: the result object built from the final state. *)
Definition rr_result (sorted : list Proc) (st : RRState) : RRResult :=
  let n := length sorted in
  let tats := imap (λ i c, c - atOf sorted i) (completion st) in
  let wts := imap (λ i t, t - btOf sorted i) tats in
  let rows :=
    imap (λ i p, mkRow p (getZ (completion st) i) (getZ tats i) (getZ wts i)
                        (getZ (firstResponse st) i)) sorted in
  let totalBurst := sumZ (bt <$> sorted) in
  let total := lastEnd (rr_gantt st) in
  mkResult (sort_by (λ r, id (proc r)) rows)
           (rr_gantt st)
           (contextSwitches (rr_gantt st))
           (jsround (jsdiv (sumZ tats) (Z.of_nat n)))
           (jsround (jsdiv (sumZ wts) (Z.of_nat n)))
           (cpuUtilOf totalBurst total)
           (throughputOf n total)
           total.

(** Lines 43-105, everything after [sorted] is built. *)
Definition rr_on_sorted (fuel : nat) (sorted : list Proc) (q : Z) : outcome RRResult :=
  match rr_loop fuel sorted q (rr_init sorted) with
  | Some st => Returns (rr_result sorted st)
  | None => OutOfFuel
  end.

(** The final state of the loop, on the sorted copy of [procs]. *)
Definition rr_run (fuel : nat) (procs : list Proc) (q : Z) : option RRState :=
  rr_loop fuel (sort_by at_ procs) q (rr_init (sort_by at_ procs)).

(** [function roundRobin(procs: Proc[], q: number): RRResult].  [procs] is
    the content of the caller's array; [Store.roundRobin_h] below is the same
    function on the heap, with the copy [[...procs]] and the in-place sort. *)
Definition roundRobin (fuel : nat) (procs : list Proc) (q : Z) : outcome RRResult :=
  rr_on_sorted fuel (sort_by at_ procs) q.

(** [DEFAULT_PROCESSES] *)
Definition DEFAULT_PROCESSES : list Proc :=
  [mkProc 1 0 5; mkProc 2 1 3; mkProc 3 2 8; mkProc 4 3 6].

(** ** fcfsScheduler *)

(** The body of [sorted.forEach], lines 114-116, on the clock and the chart,
    with an exact sum; [fcfs_step64] is the same step with the sum rounded
    as binary64 does ([fcfs_fold64_exact]). *)
Definition fcfs_step (tg : Z * list Seg) (p : Proc) : Z * list Seg :=
  let t := if tg.1 <? at_ p then at_ p else tg.1 in
  (t + bt p, tg.2 ++ [mkSeg (pidOfId (id p)) t (t + bt p)]).

Definition fcfs_gantt (sorted : list Proc) : list Seg :=
  (foldl fcfs_step (0, []) sorted).2.

(** Lines 110-133; [procs] is read once more, for [totalBurst]. *)
Definition fcfs_on_sorted (procs sorted : list Proc) : RRResult :=
  let n := length sorted in
  let g := fcfs_gantt sorted in
  let rows :=
    imap (λ i p,
            let ct1 := default 0 (end_ <$> g !! i) in
            let tat1 := ct1 - at_ p in
            let wt1 := tat1 - bt p in
            mkRow p ct1 tat1 wt1 wt1) sorted in
  let resultData1 := sort_by (λ r, id (proc r)) rows in
  let totalBurst := sumZ (bt <$> procs) in
  let total := lastEnd g in
  mkResult resultData1 g (contextSwitches g)
           (jsround (jsdiv (sumZ (tat <$> resultData1)) (Z.of_nat n)))
           (jsround (jsdiv (sumZ (wt <$> resultData1)) (Z.of_nat n)))
           (cpuUtilOf totalBurst total)
           (throughputOf n total)
           total.

(** [function fcfsScheduler(procs: Proc[])].  It has no loop other than the
    traversals of [sorted] and no [throw]: every call returns. *)
Definition fcfsScheduler (procs : list Proc) : RRResult :=
  fcfs_on_sorted procs (sort_by at_ procs).

Definition call_fcfs (procs : list Proc) : outcome RRResult :=
  Returns (fcfsScheduler procs).

(** ** The rounding of binary64

    A JavaScript number is a binary64 float.  Every integer of magnitude at
    most [2^53] is one, and a sum or difference of two integer floats is
    the exact result rounded to 53 significant bits, to the nearest float
    and, on a tie, to the one with an even significand; the rounded value is
    again an integer.  [roundRobin] and [fcfsScheduler] above add and
    subtract exactly; [roundRobin64] and [fcfsScheduler64] below are the same
    functions with every [+] and [-] of the source rounded.  The two agree
    while no time exceeds [2^53] ([roundRobin64_exact],
    [fcfsScheduler64_exact]).  Not modelled: the overflow to [Infinity]
    above [2^1024 - 2^970]. *)
Definition rnd64 (z : Z) : Z :=
  let a := Z.abs z in
  if a <? 2 ^ 53 then z
  else
    let e := Z.log2 a - 52 in
    let m := a / 2 ^ e in
    let r := a mod 2 ^ e in
    let half := 2 ^ (e - 1) in
    let m' := if (half <? r) || ((r =? half) && Z.odd m) then m + 1 else m in
    Z.sgn z * (m' * 2 ^ e).

(** [x + y] and [x - y] on numbers. *)
Definition add64 (x y : Z) : Z := rnd64 (x + y).
Definition sub64 (x y : Z) : Z := rnd64 (x - y).

(** [xs.reduce((a, b) => a + b, 0)] *)
Definition sum64 (xs : list Z) : Z := foldl add64 0 xs.

(** Lines 59-66, as [rr_slice]. *)
Definition rr_slice64 (sorted : list Proc) (q : Z) (i : nat) (rest : list nat)
  (st : RRState) : RRState :=
  let firstResponse1 :=
    if getZ (firstResponse st) i =? -1
    then <[i := sub64 (time st) (atOf sorted i)]> (firstResponse st)
    else firstResponse st in
  let runTime := Z.min (getZ (remaining st) i) q in
  let start1 := time st in
  let end1 := add64 (time st) runTime in
  mkState end1 rest
          (<[i := sub64 (getZ (remaining st) i) runTime]> (remaining st))
          (completion st) firstResponse1 (visited st)
          (rr_gantt st ++ [mkSeg (pidOfId (idOf sorted i)) start1 end1]).

(** Lines 59-86; the two scans and the gap step compare and copy numbers
    but compute none. *)
Definition rr_body64 (sorted : list Proc) (q : Z) (i : nat) (rest : list nat)
  (st : RRState) : RRState :=
  rr_gap sorted (rr_enqueue sorted i (rr_slice64 sorted q i rest st)).

Fixpoint rr_loop64 (fuel : nat) (sorted : list Proc) (q : Z) (st : RRState)
  : option RRState :=
  match queue st with
  | [] => Some st
  | i :: rest =>
      match fuel with
      | O => None
      | S fuel' => rr_loop64 fuel' sorted q (rr_body64 sorted q i rest st)
      end
  end.

(** Lines 89-105. *)
Definition rr_result64 (sorted : list Proc) (st : RRState) : RRResult :=
  let n := length sorted in
  let tats := imap (λ i c, sub64 c (atOf sorted i)) (completion st) in
  let wts := imap (λ i t, sub64 t (btOf sorted i)) tats in
  let rows :=
    imap (λ i p, mkRow p (getZ (completion st) i) (getZ tats i) (getZ wts i)
                        (getZ (firstResponse st) i)) sorted in
  let totalBurst := sum64 (bt <$> sorted) in
  let total := lastEnd (rr_gantt st) in
  mkResult (sort_by (λ r, id (proc r)) rows)
           (rr_gantt st)
           (contextSwitches (rr_gantt st))
           (jsround (jsdiv (sum64 tats) (Z.of_nat n)))
           (jsround (jsdiv (sum64 wts) (Z.of_nat n)))
           (cpuUtilOf totalBurst total)
           (throughputOf n total)
           total.

Definition roundRobin64 (fuel : nat) (procs : list Proc) (q : Z) : outcome RRResult :=
  match rr_loop64 fuel (sort_by at_ procs) q (rr_init (sort_by at_ procs)) with
  | Some st => Returns (rr_result64 (sort_by at_ procs) st)
  | None => OutOfFuel
  end.

(** Lines 114-116, as [fcfs_step]. *)
Definition fcfs_step64 (tg : Z * list Seg) (p : Proc) : Z * list Seg :=
  let t := if tg.1 <? at_ p then at_ p else tg.1 in
  (add64 t (bt p), tg.2 ++ [mkSeg (pidOfId (id p)) t (add64 t (bt p))]).

Definition fcfs_gantt64 (sorted : list Proc) : list Seg :=
  (foldl fcfs_step64 (0, []) sorted).2.

(** Lines 110-133. *)
Definition fcfs_on_sorted64 (procs sorted : list Proc) : RRResult :=
  let n := length sorted in
  let g := fcfs_gantt64 sorted in
  let rows :=
    imap (λ i p,
            let ct1 := default 0 (end_ <$> g !! i) in
            let tat1 := sub64 ct1 (at_ p) in
            let wt1 := sub64 tat1 (bt p) in
            mkRow p ct1 tat1 wt1 wt1) sorted in
  let resultData1 := sort_by (λ r, id (proc r)) rows in
  let totalBurst := sum64 (bt <$> procs) in
  let total := lastEnd g in
  mkResult resultData1 g (contextSwitches g)
           (jsround (jsdiv (sum64 (tat <$> resultData1)) (Z.of_nat n)))
           (jsround (jsdiv (sum64 (wt <$> resultData1)) (Z.of_nat n)))
           (cpuUtilOf totalBurst total)
           (throughputOf n total)
           total.

Definition fcfsScheduler64 (procs : list Proc) : RRResult :=
  fcfs_on_sorted64 procs (sort_by at_ procs).

(** ** The quantum sweep of AnalyzeView *)

(** [Math.max(...xs)]; [None] stands for [-Infinity], its value on no
    argument. *)
Definition jsmax_list (xs : list Z) : option Z :=
  foldr (λ x m, Some (match m with None => x | Some y => Z.max x y end)) None xs.

(** [const maxBt = Math.max(...processes.map(p => p.bt))] *)
Definition maxBt (processes : list Proc) : option Z := jsmax_list (bt <$> processes).

(** [const maxQ = Math.max(2, maxBt + 3)] *)
Definition maxQ (processes : list Proc) : Z :=
  match maxBt processes with
  | None => 2
  | Some m => Z.max 2 (m + 3)
  end.

(** [const qValues = Array.from({ length: maxQ - 1 }, (_, i) => i + 1)] *)
Definition qValues (processes : list Proc) : list Z :=
  (λ i : nat, Z.of_nat i + 1) <$> seq 0 (Z.to_nat (maxQ processes - 1)).

(** An element of [points]: [{ q, awt, atat, cs }]. *)
Record SweepPoint := mkPoint { pt_q : Z; awt : jsnum; atat : jsnum; pt_cs : nat }.

(** [qs.map(q => { const r = roundRobin(processes, q); return {...} })] *)
Fixpoint sweep (fuel : nat) (processes : list Proc) (qs : list Z)
  : outcome (list SweepPoint) :=
  match qs with
  | [] => Returns []
  | q :: qs' =>
      match roundRobin fuel processes q with
      | Returns r =>
          match sweep fuel processes qs' with
          | Returns ps => Returns (mkPoint q (avgWt r) (avgTat r) (cs r) :: ps)
          | other => other
          end
      | Throws e => Throws e
      | OutOfFuel => OutOfFuel
      end
  end.

Definition points (fuel : nat) (processes : list Proc) : outcome (list SweepPoint) :=
  sweep fuel processes (qValues processes).

(** [points.reduce((m, p) => (p.awt < m.awt ? p : m), points[0])]; [None] is
    the [undefined] that [points[0]] is on an empty array. *)
Definition minAwtPoint (pts : list SweepPoint) : option SweepPoint :=
  match pts with
  | [] => None
  | p0 :: _ => Some (foldl (λ m p, if jslt (awt p) (awt m) then p else m) p0 pts)
  end.

(** ** The two schedulers on the heap

    The caller hands over a reference to an array of references to [Proc]
    objects.  Both functions start with [[...procs].sort(...)]: a new array
    holding the same references, sorted in place.  The other arrays
    ([remaining], [completion], [queue], [gantt], ...) and the rows built by
    [{ ...p, ct, ... }] are created inside the call and reach the caller only
    through the result, so they are kept as values. *)
Module Store.

Record heap := mkHeap { objs : list Proc; arrs : list (list nat) }.

(** A new array. *)
Definition alloc_arr (h : heap) (a : list nat) : heap * nat :=
  (mkHeap (objs h) (arrs h ++ [a]), length (arrs h)).

Definition read_arr (h : heap) (r : nat) : list nat := default [] (arrs h !! r).

(** Overwrite the array at [r]. *)
Definition write_arr (h : heap) (r : nat) (a : list nat) : heap :=
  mkHeap (objs h) (<[r := a]> (arrs h)).

Definition deref (h : heap) (o : nat) : Proc := default (mkProc 0 0 0) (objs h !! o).

(** The content of the array at [r], dereferenced. *)
Definition procs_at (h : heap) (r : nat) : list Proc := deref h <$> read_arr h r.

(** [a.sort((x, y) => x.at - y.at)]: sorts the array at [r] in place. *)
Definition sort_in_place (h : heap) (r : nat) : heap :=
  write_arr h r (sort_by (λ o, at_ (deref h o)) (read_arr h r)).

(** [const sorted = [...procs].sort((a, b) => a.at - b.at)] *)
Definition copy_and_sort (h : heap) (procs : nat) : heap * nat :=
  let '(h1, sorted) := alloc_arr h (read_arr h procs) in
  (sort_in_place h1 sorted, sorted).

Definition roundRobin_h (fuel : nat) (h : heap) (procs : nat) (q : Z)
  : heap * outcome RRResult :=
  let '(h1, sorted) := copy_and_sort h procs in
  (h1, rr_on_sorted fuel (procs_at h1 sorted) q).

Definition fcfsScheduler_h (h : heap) (procs : nat) : heap * RRResult :=
  let '(h1, sorted) := copy_and_sort h procs in
  (h1, fcfs_on_sorted (procs_at h1 procs) (procs_at h1 sorted)).

End Store.

(** ** The process table of the component

    The updaters that [add], [remove] and [update] hand to [setProcesses],
    and the call of [run].  [update] parses its text with [parseInt]; the
    updater is modelled on the parsed value, [None] standing for [NaN].  The
    error messages that [update] also records are not modelled. *)
Module UI.

(** [ps => [...ps, { id: ps.length + 1, at: 0, bt: 1 }]] *)
Definition add (ps : list Proc) : list Proc :=
  ps ++ [mkProc (Z.of_nat (length ps) + 1) 0 1].


(** The two fields that [update] writes. *)
Inductive Field := FieldAt | FieldBt.

(** [isNaN(value) ? 0 : Math.max(field === 'bt' ? 1 : 0, value)] *)
Definition clamp (field : Field) (value : option Z) : Z :=
  match value with
  | None => 0
  | Some v => Z.max (match field with FieldBt => 1 | FieldAt => 0 end) v
  end.

(** [ps => ps.map(p => p.id === id ? { ...p, [field]: ... } : p)] *)
Definition update (id0 : Z) (field : Field) (value : option Z) (ps : list Proc)
  : list Proc :=
  (λ p, if decide (id p = id0)
        then match field with
             | FieldAt => mkProc (id p) (clamp field value) (bt p)
             | FieldBt => mkProc (id p) (at_ p) (clamp field value)
             end
        else p) <$> ps.

(** [const res = roundRobin(processes, Math.max(1, quantum))] *)
Definition run (fuel : nat) (processes : list Proc) (quantum : Z) : outcome RRResult :=
  roundRobin fuel processes (Z.max 1 quantum).

End UI.

(** ** The adaptive quantum of AnalyzeView and the colours of the chart

    [median * 0.8] is taken on exact rationals, with [0.8] as [8/10].  (The
    bursts are integers, so the median is an integer or a half; for such
    values below 2^50 the double product has the same integer part.) *)

(** [const burst = [...processes.map(p => p.bt)].sort((a, b) => a - b)] *)
Definition sortedBursts (processes : list Proc) : list Z :=
  sort_by (λ x, x) (bt <$> processes).

(** [burst.length % 2 === 0
       ? (burst[burst.length / 2 - 1] + burst[burst.length / 2]) / 2
       : burst[Math.floor(burst.length / 2)]];
    a missing element is [undefined] and makes the sum [NaN]. *)
Definition median (burst : list Z) : jsnum :=
  let n := length burst in
  if (n mod 2 =? 0)%nat then
    match burst !! (n / 2 - 1)%nat, burst !! (n / 2)%nat with
    | Some a, Some b => jsdiv (a + b) 2
    | _, _ => NaN
    end
  else
    match burst !! (n / 2)%nat with
    | Some a => Num (inject_Z a)
    | None => NaN
    end.

(** [Math.max(1, Math.floor(x * 0.8))] *)
Definition max1_floor_08 (x : jsnum) : jsnum :=
  match x with
  | Num r => Num (inject_Z (Z.max 1 (Qfloor (Qmult r (8 # 10)))))
  | NaN => NaN
  | PInf => PInf
  | NInf => Num (inject_Z 1)
  end.

(** [const adaptiveQ = Math.max(1, Math.floor(median * 0.8))] *)
Definition adaptiveQ (processes : list Proc) : jsnum :=
  max1_floor_08 (median (sortedBursts processes)).

(** [colorPalette] *)
Definition colorPalette : list string :=
  ["#FF6F61"; "#6B5B95"; "#88B04B"; "#F7CAC9"; "#92A8D1"; "#955251"; "#F4A460";
   "#20B2AA"].

(** [pid.split('').reduce((a, c) => a + c.charCodeAt(0), 0)], for a [pid] of
    ASCII characters, as every [`P${id}`] is. *)
Definition pidHash (pid : string) : nat :=
  foldl (λ a c, (a + Ascii.nat_of_ascii c)%nat) 0%nat (String.list_ascii_of_string pid).

(** [colorPalette[hash % colorPalette.length]]; [None] would be [undefined]. *)
Definition pidColor (pid : string) : option string :=
  colorPalette !! (pidHash pid mod length colorPalette)%nat.

(** ** The table of AnalyzeView *)

(** [sortKey]: ['q' | 'awt' | 'atat' | 'cs']. *)
Inductive SortKey := KeyQ | KeyAwt | KeyAtat | KeyCs.

(** [a[sortKey]] *)
Definition keyOf (k : SortKey) (p : SweepPoint) : jsnum :=
  match k with
  | KeyQ => Num (inject_Z (pt_q p))
  | KeyAwt => awt p
  | KeyAtat => atat p
  | KeyCs => Num (inject_Z (Z.of_nat (pt_cs p)))
  end.

(** The comparator of lines 382-387:
    [cmp = vA === vB ? 0 : vA > vB ? 1 : -1; sortDir === 'asc' ? cmp : -cmp]. *)
Definition compareRows (k : SortKey) (asc : bool) (a b : SweepPoint) : Z :=
  let vA := keyOf k a in
  let vB := keyOf k b in
  let cmp := if jseq vA vB then 0 else if jslt vB vA then 1 else -1 in
  if asc then cmp else - cmp.

(** [Array.prototype.sort(compare)]: the stable sort by a comparator. *)
Fixpoint insert_cmp {A} (cmp : A → A → Z) (x : A) (l : list A) : list A :=
  match l with
  | [] => [x]
  | y :: l' => if cmp x y <=? 0 then x :: y :: l' else y :: insert_cmp cmp x l'
  end.

Definition sort_cmp {A} (cmp : A → A → Z) (l : list A) : list A :=
  foldr (insert_cmp cmp) [] l.

(** [const filtered = (qRange ? points.filter(p => p.q >= qRange[0] &&
    p.q <= qRange[1]) : points).slice(); filtered.sort(...)] *)
Definition filtered (qRange : option (Z * Z)) (k : SortKey) (asc : bool)
  (pts : list SweepPoint) : list SweepPoint :=
  sort_cmp (compareRows k asc)
    (match qRange with
     | Some (lo, hi) => filter (λ p, lo ≤ pt_q p ∧ pt_q p ≤ hi) pts
     | None => pts
     end).

(** ** Specification predicates *)

(** The length of a segment. *)
Definition duration (s : Seg) : Z := end_ s - start s.

(** [visited[j] = true] for every [j] of [js], in the order of [js]. *)
Definition mark_all (js : list nat) (vis : list bool) : list bool :=
  foldl (λ v j, <[j := true]> v) vis js.

(** The indices a scan with guard [c j && !visited[j]] pushes. *)
Definition scanned (c : nat → bool) (vis : list bool) (n : nat) : list nat :=
  filter (λ j, c j && negb (getB vis j) = true) (seq 0 n).

(** The indices that the scan of lines 68-73 pushes at time [t]. *)
Definition newly_arrived (sorted : list Proc) (t : Z) (rem : list Z) (vis : list bool)
  : list nat :=
  scanned (λ j, (atOf sorted j <=? t) && (0 <? getZ rem j)) vis (length sorted).

(** The states of a run of the loop on [sorted] with quantum [q]. *)
Inductive rr_reach (sorted : list Proc) (q : Z) : RRState → Prop :=
  | reach_init : rr_reach sorted q (rr_init sorted)
  | reach_step st i rest :
      rr_reach sorted q st → queue st = i :: rest →
      rr_reach sorted q (rr_body sorted q i rest st).

(** A chart is chronological when every segment ends after it starts and
    every segment starts no earlier than the end of each segment before it. *)
Definition chronological (g : list Seg) : Prop :=
  Forall (λ s, start s < end_ s) g ∧
  ∀ i j a b, (i < j)%nat → g !! i = Some a → g !! j = Some b → end_ a ≤ start b.

(** The loop invariant of [roundRobin], for positive bursts and [q ≥ 1].
    [rr_inv0] is the part that already holds between the re-queue (line 75)
    and the gap step (line 77). *)
Record rr_inv0 (sorted : list Proc) (st : RRState) : Prop := mkInv {
  inv_len_rem : length (remaining st) = length sorted;
  inv_len_vis : length (visited st) = length sorted;
  inv_nodup : NoDup (queue st);
  inv_queue : ∀ j, j ∈ queue st →
    (j < length sorted)%nat ∧ getB (visited st) j = true ∧ 0 < getZ (remaining st) j;
  inv_nonneg : ∀ j, 0 ≤ getZ (remaining st) j;
  inv_fresh : ∀ j, (j < length sorted)%nat → getB (visited st) j = false →
    0 < getZ (remaining st) j;
  inv_visited : ∀ j, getB (visited st) j = true →
    j ∈ queue st ∨ getZ (remaining st) j = 0;
  inv_conserve :
    sumZ (duration <$> rr_gantt st) + sumZ (remaining st) = sumZ (bt <$> sorted);
  inv_chrono : chronological (rr_gantt st);
  inv_clock : Forall (λ s, end_ s ≤ time st) (rr_gantt st)
}.

(** The invariant at the loop test: [rr_inv0], and an empty queue means that
    no work is left. *)
Definition rr_inv (sorted : list Proc) (st : RRState) : Prop :=
  rr_inv0 sorted st ∧ (queue st = [] → ∀ j, getZ (remaining st) j = 0).

(** The result both schedulers build from no process at all. *)
Definition empty_result : RRResult :=
  mkResult [] [] 0 NaN NaN "0.00" "0.000" 0.

(** The trace of [DEFAULT_PROCESSES] with quantum 4. *)
Definition default_trace : list Seg :=
  [mkSeg "P1" 0 4; mkSeg "P2" 4 7; mkSeg "P3" 7 11; mkSeg "P4" 11 15;
   mkSeg "P1" 15 16; mkSeg "P3" 16 20; mkSeg "P4" 20 22].

(** The trace of the same scenario as the specification lists it. *)
Definition spec_trace : list Seg := default_trace ++ [mkSeg "P3" 22 24].


(** A list on which the scan does not push in ascending id order: the
    process with id 1 arrives last. *)
Definition late_first_id : list Proc :=
  [mkProc 1 5 1; mkProc 2 0 10; mkProc 3 3 2].

(** A finite number. *)
Definition is_num (x : jsnum) : Prop :=
  match x with
  | Num _ => True
  | _ => False
  end.

(** The queue is not empty and everything in it has work left. *)
Definition rr_stuck (st : RRState) : Prop :=
  queue st ≠ [] ∧ ∀ j, j ∈ queue st → 0 < getZ (remaining st) j.

(** What the loop keeps true of the per-process times, for positive bursts
    and [q ≥ 1]: a process that entered the queue has arrived; a process not
    yet dispatched has its whole burst left and no response time; a process
    that was dispatched has run [bt - remaining] since its first dispatch; a
    finished process was completed no earlier than that and no later than
    the clock; and when the queue runs empty the clock is the end of the
    chart and the completion time of the process that ran last. *)
Record rr_times (sorted : list Proc) (st : RRState) : Prop := mkTimes {
  tm_len_completion : length (completion st) = length sorted;
  tm_len_response : length (firstResponse st) = length sorted;
  tm_arrived : ∀ j, (j < length sorted)%nat → getB (visited st) j = true →
    atOf sorted j ≤ time st;
  tm_progress : ∀ j, (j < length sorted)%nat →
    (getZ (firstResponse st) j = -1 ∧ getZ (remaining st) j = btOf sorted j) ∨
    (0 ≤ getZ (firstResponse st) j ∧
     atOf sorted j + getZ (firstResponse st) j
       + (btOf sorted j - getZ (remaining st) j) ≤ time st);
  tm_completed : ∀ j, (j < length sorted)%nat → getZ (remaining st) j = 0 →
    atOf sorted j + getZ (firstResponse st) j + btOf sorted j
      ≤ getZ (completion st) j ∧
    getZ (completion st) j ≤ time st;
  tm_last : queue st = [] → (0 < length sorted)%nat →
    time st = lastEnd (rr_gantt st) ∧
    ∃ j, (j < length sorted)%nat ∧ getZ (completion st) j = time st
}.

(** The number of slices of length at most [q] that a burst [b] is cut
    into: the quotient [b / q] rounded up. *)
Definition slices (q b : Z) : Z := (b + q - 1) / q.

(** The chart and the clock of [fcfsScheduler] from clock [t] on, written
    by recursion on the list instead of the left fold of [forEach]
    ([fcfs_fold_closed] shows that they agree). *)
Fixpoint fcfs_segs (t : Z) (l : list Proc) : list Seg :=
  match l with
  | [] => []
  | p :: l' =>
      let s := if t <? at_ p then at_ p else t in
      mkSeg (pidOfId (id p)) s (s + bt p) :: fcfs_segs (s + bt p) l'
  end.

Fixpoint fcfs_clock (t : Z) (l : list Proc) : Z :=
  match l with
  | [] => t
  | p :: l' => fcfs_clock ((if t <? at_ p then at_ p else t) + bt p) l'
  end.

(** The state of [roundRobin] at the loop test when every slice so far ran a
    whole burst: the first [k] processes of [srt] are finished, the chart is
    the chart of [fcfsScheduler] for them, the queue holds the next
    processes in the order of [srt], and the clock is the time at which
    [fcfsScheduler] starts process [k]. *)
Record rr_lockstep (srt : list Proc) (k : nat) (st : RRState) : Prop := mkLockstep {
  ls_len_rem : length (remaining st) = length srt;
  ls_len_vis : length (visited st) = length srt;
  ls_len_comp : length (completion st) = length srt;
  ls_len_fr : length (firstResponse st) = length srt;
  ls_gantt : rr_gantt st = fcfs_segs 0 (take k srt);
  ls_rem : ∀ j, (j < length srt)%nat →
    getZ (remaining st) j = if decide (j < k)%nat then 0 else btOf srt j;
  ls_done : ∀ j sg, (j < k)%nat → fcfs_segs 0 srt !! j = Some sg →
    getZ (completion st) j = end_ sg ∧
    getZ (firstResponse st) j = start sg - atOf srt j;
  ls_fresh : ∀ j, (k ≤ j)%nat → (j < length srt)%nat →
    getZ (firstResponse st) j = -1;
  ls_queue : (k < length srt)%nat →
    ∃ m, (k < m ≤ length srt)%nat ∧
         queue st = seq k (m - k) ∧
         (∀ j, (j < length srt)%nat → (getB (visited st) j = true ↔ (j < m)%nat)) ∧
         (∀ j, (j < m)%nat → atOf srt j ≤ time st) ∧
         time st = (if fcfs_clock 0 (take k srt) <? atOf srt k
                    then atOf srt k else fcfs_clock 0 (take k srt));
  ls_end : (length srt ≤ k)%nat → queue st = []
}.



(** The process at position [j] has never been touched: it never entered
    the queue, has no work left, no completion time and no response time.
    The first three clauses are what keeps this so: the queue only holds
    processes that are marked visited. *)
Record rr_untouched (sorted : list Proc) (j : nat) (st : RRState) : Prop := mkUntouched {
  ut_len_vis : length (visited st) = length sorted;
  ut_len_comp : length (completion st) = length sorted;
  ut_queue : ∀ i, i ∈ queue st → getB (visited st) i = true;
  ut_visited : getB (visited st) j = false;
  ut_remaining : getZ (remaining st) j = 0;
  ut_completion : getZ (completion st) j = 0;
  ut_response : getZ (firstResponse st) j = -1
}.

(** A table with a burst of 0 that arrives after the first process. *)
Definition late_zero_burst : list Proc := [mkProc 1 0 3; mkProc 2 2 0].


(** What the loop keeps true when some bursts are 0: the queue holds each
    index at most once, all of them marked visited, and no process has
    negative work left. *)
Record rr_weak (sorted : list Proc) (st : RRState) : Prop := mkWeak {
  wk_len_rem : length (remaining st) = length sorted;
  wk_len_vis : length (visited st) = length sorted;
  wk_nodup : NoDup (queue st);
  wk_queue : ∀ j, j ∈ queue st → (j < length sorted)%nat ∧ getB (visited st) j = true;
  wk_nonneg : ∀ j, 0 ≤ getZ (remaining st) j
}.

(** The measure that every iteration decreases: the work left, plus the
    number of queued processes that have none. *)
Definition rr_measure (st : RRState) : Z :=
  sumZ (remaining st) +
  Z.of_nat (length (filter (λ j, getZ (remaining st) j = 0) (queue st))).

(** No time of a run on [procs] exceeds [B]: no arrival and no burst is
    negative, and the latest arrival plus the total of the bursts is at most
    [B]. *)
Definition times_below (B : Z) (procs : list Proc) : Prop :=
  Forall (λ p, 0 ≤ at_ p ∧ 0 ≤ bt p ∧ at_ p + sumZ (bt <$> procs) ≤ B) procs.

(** Every time of a run on [procs] is an integer that binary64 holds
    exactly. *)
Definition exact_times (procs : list Proc) : Prop := times_below (2 ^ 53) procs.

(** Two results that differ at most in the two averages. *)
Definition same_schedule (r r' : RRResult) : Prop :=
  resultData r = resultData r' ∧ gantt r = gantt r' ∧ cs r = cs r' ∧
  cpuUtil r = cpuUtil r' ∧ throughput r = throughput r' ∧
  totalTime r = totalTime r'.

(** The bounds that the loop keeps: the clock plus the work left never
    exceeds [B], and no completion time does. *)
Record rr_bounded (B : Z) (sorted : list Proc) (st : RRState) : Prop := mkBounded {
  bd_time : 0 ≤ time st;
  bd_work : sumZ (remaining st) ≤ sumZ (bt <$> sorted);
  bd_clock : time st + sumZ (remaining st) ≤ B;
  bd_len_completion : length (completion st) = length sorted;
  bd_completion : ∀ j, (j < length sorted)%nat → 0 ≤ getZ (completion st) j ≤ B
}.

(** No time and no sum of times of a run on [procs] is rounded: as
    [exact_times], with room for the sums of [n] turnaround times. *)
Definition exact_sums (procs : list Proc) : Prop :=
  Forall (λ p, 0 ≤ at_ p ∧ 0 ≤ bt p ∧
               Z.of_nat (length procs) * (at_ p + sumZ (bt <$> procs)) ≤ 2 ^ 53) procs.

(** One process that arrives at [2^53], the first integer whose successor
    is not a float. *)
Definition late_arrival : list Proc := [mkProc 1 (2 ^ 53) 1].

(** Every process without work left was completed by a segment of the
    chart: one that carries its id and ends at its completion time. *)
Definition rr_charted (sorted : list Proc) (st : RRState) : Prop :=
  ∀ j, (j < length sorted)%nat → getZ (remaining st) j = 0 →
       ∃ s, s ∈ rr_gantt st ∧ pid s = pidOfId (idOf sorted j) ∧
            end_ s = getZ (completion st) j.

(** ** Array lemmas *)

Lemma getZ_insert_eq (l : list Z) i v :
  (i < length l)%nat → getZ (<[i := v]> l) i = v.
Proof. intros Hi. unfold getZ. by rewrite list_lookup_insert_eq. Qed.

Lemma getZ_insert_ne (l : list Z) i j v :
  i ≠ j → getZ (<[i := v]> l) j = getZ l j.
Proof. intros Hne. unfold getZ. by rewrite list_lookup_insert_ne. Qed.

Lemma getZ_ge (l : list Z) j : (length l ≤ j)%nat → getZ l j = 0.
Proof. intros Hj. unfold getZ. by rewrite lookup_ge_None_2. Qed.

Lemma getB_insert_eq (l : list bool) i v :
  (i < length l)%nat → getB (<[i := v]> l) i = v.
Proof. intros Hi. unfold getB. by rewrite list_lookup_insert_eq. Qed.

Lemma getB_insert_ne (l : list bool) i j v :
  i ≠ j → getB (<[i := v]> l) j = getB l j.
Proof. intros Hne. unfold getB. by rewrite list_lookup_insert_ne. Qed.

Lemma getB_true_lt (l : list bool) j : getB l j = true → (j < length l)%nat.
Proof.
  unfold getB. intros H. destruct (l !! j) eqn:E; [|done].
  by eapply lookup_lt_Some.
Qed.

Lemma sumZ_app (l k : list Z) : sumZ (l ++ k) = sumZ l + sumZ k.
Proof. induction l as [|x l IH]; simpl; [done|]. rewrite IH. lia. Qed.

Lemma sumZ_insert (l : list Z) i v :
  (i < length l)%nat → sumZ (<[i := v]> l) = sumZ l - getZ l i + v.
Proof.
  revert i. induction l as [|x l IH]; intros i Hi; simpl in *; [lia|].
  destruct i as [|i]; simpl.
  - unfold getZ; simpl. lia.
  - rewrite IH by lia. unfold getZ; simpl. lia.
Qed.

Lemma sumZ_nonneg (l : list Z) : Forall (λ x, 0 ≤ x) l → 0 ≤ sumZ l.
Proof. induction 1; simpl; lia. Qed.

Lemma sumZ_perm (l k : list Z) : l ≡ₚ k → sumZ l = sumZ k.
Proof. induction 1; simpl; lia. Qed.

(** ** The stable sort *)

Lemma insert_by_perm {A} (key : A → Z) x l : insert_by key x l ≡ₚ x :: l.
Proof.
  induction l as [|y l IH]; simpl; [done|].
  destruct (key x <=? key y); [done|].
  rewrite IH. apply Permutation_swap.
Qed.

Lemma sort_by_perm {A} (key : A → Z) (l : list A) : sort_by key l ≡ₚ l.
Proof.
  induction l as [|x l IH]; simpl; [done|].
  by rewrite insert_by_perm, IH.
Qed.

Lemma sort_by_length {A} (key : A → Z) (l : list A) :
  length (sort_by key l) = length l.
Proof. by rewrite sort_by_perm. Qed.

Lemma insert_by_fmap {A B} (f : A → B) (key : B → Z) x l :
  f <$> insert_by (λ a, key (f a)) x l = insert_by key (f x) (f <$> l).
Proof.
  induction l as [|y l IH]; [done|].
  cbn [insert_by fmap list_fmap].
  destruct (key (f x) <=? key (f y)); [done|].
  cbn [fmap list_fmap]. f_equal. apply IH.
Qed.

Lemma sort_by_fmap {A B} (f : A → B) (key : B → Z) (l : list A) :
  f <$> sort_by (λ a, key (f a)) l = sort_by key (f <$> l).
Proof.
  induction l as [|x l IH]; simpl; [done|].
  by rewrite insert_by_fmap, IH.
Qed.

Lemma sort_by_Forall {A} (key : A → Z) (P : A → Prop) (l : list A) :
  Forall P l → Forall P (sort_by key l).
Proof. intros H. by rewrite sort_by_perm. Qed.

(** ** The scans *)

Lemma mark_all_length js vis : length (mark_all js vis) = length vis.
Proof.
  revert vis. induction js as [|j js IH]; intros vis; simpl; [done|].
  unfold mark_all in *. simpl. by rewrite IH, length_insert.
Qed.

Lemma mark_all_get js vis j :
  getB (mark_all js vis) j = true ↔
  getB vis j = true ∨ (j ∈ js ∧ (j < length vis)%nat).
Proof.
  revert vis. induction js as [|k js IH]; intros vis.
  - simpl. split; [by left|]. intros [H|[H _]]; [done|]. by apply elem_of_nil in H.
  - change (mark_all (k :: js) vis) with (mark_all js (<[k := true]> vis)).
    rewrite IH, length_insert. destruct (decide (k = j)) as [->|Hne].
    + split.
      * intros [H|[H Hl]].
        -- apply getB_true_lt in H. rewrite length_insert in H.
           right. split; [left|done].
        -- right. split; [by right|done].
      * intros [H|[H Hl]].
        -- left. rewrite getB_insert_eq; [done|by apply getB_true_lt].
        -- left. by rewrite getB_insert_eq.
    + rewrite getB_insert_ne by done. rewrite elem_of_cons. naive_solver.
Qed.

Lemma filter_ext_elem {A} (P1 P2 : A → Prop)
    `{!∀ x, Decision (P1 x), !∀ x, Decision (P2 x)} (l : list A) :
  (∀ x, x ∈ l → (P1 x ↔ P2 x)) → filter P1 l = filter P2 l.
Proof.
  induction l as [|a l IH]; intros Hext; [done|].
  rewrite !filter_cons.
  assert (Ha : P1 a ↔ P2 a) by (apply Hext; left).
  rewrite IH by (intros x Hx; apply Hext; by right).
  destruct (decide (P1 a)), (decide (P2 a)); tauto.
Qed.

Lemma scan_closed_form (c : nat → bool) (js : list nat) qu vis :
  NoDup js →
  foldl (λ qv j, push_if (c j && negb (getB qv.2 j)) j qv) (qu, vis) js =
  (qu ++ filter (λ j, c j && negb (getB vis j) = true) js,
   mark_all (filter (λ j, c j && negb (getB vis j) = true) js) vis).
Proof.
  intros Hnd. revert qu vis. induction Hnd as [|j js Hj Hnd IH]; intros qu vis.
  - simpl. by rewrite app_nil_r.
  - cbn [foldl]. unfold push_if at 2. cbn [fst snd].
    rewrite filter_cons.
    destruct (c j && negb (getB vis j)) eqn:Hg.
    + rewrite IH, decide_True by done.
      rewrite (filter_ext_elem _ (λ k, c k && negb (getB vis k) = true)).
      * by rewrite <- app_assoc.
      * intros k Hk. rewrite getB_insert_ne; [done|]. intros ->. done.
    + rewrite IH, decide_False; [done|]. by intros [=].
Qed.

Lemma initial_scan_eq sorted t qu vis :
  initial_scan sorted t (qu, vis) =
  (qu ++ scanned (λ j, atOf sorted j <=? t) vis (length sorted),
   mark_all (scanned (λ j, atOf sorted j <=? t) vis (length sorted)) vis).
Proof. unfold initial_scan, scanned. apply scan_closed_form, NoDup_seq. Qed.

Lemma foldl_ext_all {A B} (f g : A → B → A) (l : list B) a :
  (∀ x y, f x y = g x y) → foldl f a l = foldl g a l.
Proof.
  intros H. revert a. induction l as [|y l IH]; intros a; simpl; [done|].
  by rewrite H, IH.
Qed.

Lemma arrivals_eq sorted t rem qu vis :
  arrivals sorted t rem (qu, vis) =
  (qu ++ newly_arrived sorted t rem vis,
   mark_all (newly_arrived sorted t rem vis) vis).
Proof.
  unfold arrivals, newly_arrived, scanned.
  rewrite <- (scan_closed_form _ _ qu vis (NoDup_seq 0 (length sorted))).
  apply foldl_ext_all. intros qv j. f_equal.
  destruct (atOf sorted j <=? t), (getB qv.2 j), (0 <? getZ rem j); done.
Qed.

Lemma elem_of_scanned c vis n j :
  j ∈ scanned c vis n ↔ (j < n)%nat ∧ c j = true ∧ getB vis j = false.
Proof.
  unfold scanned. rewrite list_elem_of_filter, elem_of_seq.
  destruct (c j), (getB vis j); simpl; naive_solver lia.
Qed.

Lemma NoDup_scanned c vis n : NoDup (scanned c vis n).
Proof. apply NoDup_filter, NoDup_seq. Qed.

Lemma elem_of_newly_arrived sorted t rem vis j :
  j ∈ newly_arrived sorted t rem vis ↔
  (j < length sorted)%nat ∧ atOf sorted j ≤ t ∧ 0 < getZ rem j ∧ getB vis j = false.
Proof.
  unfold newly_arrived. rewrite elem_of_scanned.
  rewrite andb_true_iff, Z.leb_le, Z.ltb_lt. naive_solver.
Qed.

(** ** The loop invariant *)

Lemma getZ_bt sorted j : getZ (bt <$> sorted) j = btOf sorted j.
Proof. unfold getZ, btOf. by rewrite list_lookup_fmap. Qed.

Lemma getB_replicate n j : getB (replicate n false) j = false.
Proof.
  unfold getB. destruct (replicate n false !! j) eqn:E; [|done].
  by apply lookup_replicate in E as [-> _].
Qed.

Lemma chronological_nil : chronological [].
Proof. split; [constructor|]. intros i j a b _ H. by rewrite lookup_nil in H. Qed.

Lemma chronological_snoc g s t :
  chronological g → Forall (λ x, end_ x ≤ t) g →
  start s = t → start s < end_ s → chronological (g ++ [s]).
Proof.
  intros [Hpos Hord] Hclk Hs Hlt. split.
  - apply Forall_app. split; [done|]. by constructor.
  - intros i j a b Hij Ha Hb.
    destruct (decide (j < length g)%nat) as [Hj|Hj].
    + rewrite lookup_app_l in Ha by lia. rewrite lookup_app_l in Hb by lia.
      exact (Hord i j a b Hij Ha Hb).
    + pose proof (lookup_lt_Some _ _ _ Hb) as Hlen.
      rewrite length_app in Hlen. simpl in Hlen.
      assert (j = length g) as -> by lia.
      rewrite lookup_app_l in Ha by lia.
      rewrite lookup_app_r in Hb by lia.
      rewrite Nat.sub_diag in Hb. simpl in Hb. injection Hb as <-.
      rewrite Forall_forall in Hclk. rewrite Hs.
      apply Hclk. eapply list_elem_of_lookup_2. exact Ha.
Qed.

Section Invariant.

Variable sorted : list Proc.
Variable q : Z.
Hypothesis Hq : 1 ≤ q.
Hypothesis Hbt : Forall (λ p, 0 < bt p) sorted.

Lemma btOf_pos j : (j < length sorted)%nat → 0 < btOf sorted j.
Proof.
  intros Hj. unfold btOf. destruct (lookup_lt_is_Some_2 sorted j Hj) as [p Hp].
  rewrite Hp. simpl. rewrite Forall_forall in Hbt. apply Hbt.
  by eapply list_elem_of_lookup_2.
Qed.

Lemma rr_init_inv : rr_inv sorted (rr_init sorted).
Proof.
  unfold rr_init. rewrite initial_scan_eq. cbn [fst snd app].
  set (new := scanned _ _ _).
  assert (Hnew : ∀ j, j ∈ new ↔ (j < length sorted)%nat ∧ atOf sorted j ≤ atOf sorted 0).
  { intros j. unfold new. rewrite elem_of_scanned, Z.leb_le.
    pose proof (getB_replicate (length sorted) j). tauto. }
  assert (Hvis : ∀ j, getB (mark_all new (replicate (length sorted) false)) j = true ↔ j ∈ new).
  { intros j. rewrite mark_all_get, getB_replicate, length_replicate.
    rewrite Hnew. split; [intros [?|[? ?]]; [done|tauto] | intros [? ?]; right; tauto]. }
  split; [split|]; cbn [remaining visited queue rr_gantt time].
  - by rewrite length_fmap.
  - by rewrite mark_all_length, length_replicate.
  - apply NoDup_scanned.
  - intros j Hj. split; [by apply Hnew|]. split; [by apply Hvis|].
    rewrite getZ_bt. apply btOf_pos. by apply Hnew.
  - intros j. destruct (decide (j < length sorted)%nat).
    + rewrite getZ_bt. pose proof (btOf_pos j). lia.
    + rewrite getZ_ge; [done|]. rewrite length_fmap. lia.
  - intros j Hj _. rewrite getZ_bt. by apply btOf_pos.
  - intros j Hj. left. by apply Hvis.
  - simpl. lia.
  - apply chronological_nil.
  - constructor.
  - intros Hnil j. destruct (decide (0 < length sorted)%nat) as [Hn|Hn].
    + assert (H0 : 0%nat ∈ new) by (apply Hnew; split; [done|lia]).
      rewrite Hnil in H0. by apply elem_of_nil in H0.
    + rewrite getZ_ge; [done|]. rewrite length_fmap. lia.
Qed.

Lemma rr_gap_inv st : rr_inv0 sorted st → rr_inv sorted (rr_gap sorted st).
Proof.
  intros [Hlr Hlv Hnd Hqu Hnn Hfr Hvi Hco Hch Hck].
  unfold rr_gap. destruct (queue st) as [|j0 qu] eqn:Eq.
  2:{ split; [split; rewrite ?Eq; try done|]. by rewrite Eq. }
  unfold gap_fill.
  destruct (find _ _) as [k|] eqn:Ef.
  - apply find_some in Ef as [Hk Hg].
    apply in_seq in Hk. apply andb_true_iff in Hg as [Hrem Hnv].
    apply Z.ltb_lt in Hrem. apply negb_true_iff in Hnv.
    split; [split|]; cbn [remaining visited queue rr_gantt time]; try done.
    + by rewrite length_insert.
    + apply NoDup_singleton.
    + intros j Hj. apply list_elem_of_singleton in Hj as ->.
      split; [lia|]. split; [|done]. apply getB_insert_eq. lia.
    + intros j Hj Hv. apply Hfr; [done|].
      destruct (decide (k = j)) as [->|Hne].
      * rewrite getB_insert_eq in Hv by lia. done.
      * by rewrite getB_insert_ne in Hv.
    + intros j Hv. destruct (decide (k = j)) as [->|Hne].
      * left. by apply list_elem_of_singleton.
      * rewrite getB_insert_ne in Hv by done.
        destruct (Hvi j Hv) as [Hin|?]; [|by right].
        by apply elem_of_nil in Hin.
    + eapply Forall_impl; [exact Hck|]. simpl. intros. lia.
  - split; [split|]; cbn [remaining visited queue rr_gantt time]; try done.
    intros _ j. destruct (decide (j < length sorted)%nat) as [Hj|Hj].
    + pose proof (find_none _ _ Ef j) as Hn.
      rewrite in_seq in Hn. specialize (Hn ltac:(lia)). simpl in Hn.
      apply andb_false_iff in Hn as [Hn|Hn].
      * apply Z.ltb_ge in Hn. pose proof (Hnn j). lia.
      * apply negb_false_iff in Hn.
        destruct (Hvi j Hn) as [Hin|?]; [|done]. by apply elem_of_nil in Hin.
    + apply getZ_ge. lia.
Qed.

Lemma rr_enqueue_slice_inv st i rest :
  rr_inv0 sorted st → queue st = i :: rest →
  rr_inv0 sorted (rr_enqueue sorted i (rr_slice sorted q i rest st)).
Proof.
  intros [Hlr Hlv Hnd Hqu Hnn Hfr Hvi Hco Hch Hck] Eq.
  assert (Hi : i ∈ queue st) by (rewrite Eq; left).
  destruct (Hqu i Hi) as (Hin & Hvi_i & Hri).
  rewrite Eq in Hnd. apply NoDup_cons in Hnd as [Hi_rest Hnd_rest].
  assert (Hrest : ∀ j, j ∈ rest → j ∈ queue st) by (intros; rewrite Eq; by right).
  unfold rr_enqueue, rr_slice.
  cbn [time queue remaining completion firstResponse visited rr_gantt].
  rewrite arrivals_eq. cbn [fst snd].
  set (r := getZ (remaining st) i) in *.
  set (run := Z.min r q).
  assert (Hrun : 1 ≤ run ≤ r) by (unfold run; lia).
  set (rem1 := <[i := r - run]> (remaining st)).
  assert (Hrem_i : getZ rem1 i = r - run)
    by (apply getZ_insert_eq; lia).
  assert (Hrem_ne : ∀ j, j ≠ i → getZ rem1 j = getZ (remaining st) j)
    by (intros; by apply getZ_insert_ne).
  set (t1 := time st + run).
  set (new := newly_arrived sorted t1 rem1 (visited st)).
  assert (Hnew : ∀ j, j ∈ new →
    (j < length sorted)%nat ∧ 0 < getZ rem1 j ∧ getB (visited st) j = false).
  { intros j Hj. apply elem_of_newly_arrived in Hj. tauto. }
  assert (Hnew_i : ∀ j, j ∈ new → j ≠ i).
  { intros j Hj ->. apply Hnew in Hj. destruct Hj as (_ & _ & Hj). congruence. }
  assert (Hvis1 : ∀ j, getB (mark_all new (visited st)) j = true ↔
                       getB (visited st) j = true ∨ j ∈ new).
  { intros j. rewrite mark_all_get. split; [tauto|].
    intros [?|Hj]; [by left|]. right. split; [done|].
    apply Hnew in Hj. lia. }
  assert (Hnd1 : NoDup (rest ++ new)).
  { apply NoDup_app. split; [done|]. split; [|apply NoDup_scanned].
    intros j Hj Hj'. apply Hnew in Hj'. destruct (Hqu j (Hrest j Hj)) as (_ & Hv & _).
    destruct Hj' as (_ & _ & Hj'). congruence. }
  assert (Hq1 : ∀ j, j ∈ rest ++ new →
    (j < length sorted)%nat ∧ getB (mark_all new (visited st)) j = true
    ∧ 0 < getZ rem1 j).
  { intros j Hj. apply elem_of_app in Hj as [Hj|Hj].
    - destruct (Hqu j (Hrest j Hj)) as (? & ? & ?).
      split; [done|]. split; [apply Hvis1; by left|].
      rewrite Hrem_ne; [done|]. by intros ->.
    - split; [by apply Hnew|]. split; [apply Hvis1; by right|]. by apply Hnew. }
  assert (Hnn1 : ∀ j, 0 ≤ getZ rem1 j).
  { intros j. destruct (decide (j = i)) as [->|Hne]; [lia|].
    rewrite Hrem_ne by done. apply Hnn. }
  assert (Hfr1 : ∀ j, (j < length sorted)%nat →
    getB (mark_all new (visited st)) j = false → 0 < getZ rem1 j).
  { intros j Hj Hv.
    assert (Hv0 : getB (visited st) j = false).
    { destruct (getB (visited st) j) eqn:E; [|done].
      rewrite <- Hv. symmetry. apply Hvis1. by left. }
    rewrite Hrem_ne by (intros ->; congruence). by apply Hfr. }
  assert (Hco1 :
    sumZ (duration <$> (rr_gantt st ++
            [mkSeg (pidOfId (idOf sorted i)) (time st) t1])) + sumZ rem1
    = sumZ (bt <$> sorted)).
  { rewrite fmap_app, sumZ_app. unfold rem1. rewrite sumZ_insert by lia.
    fold r. cbn. unfold duration at 2. cbn. unfold t1. lia. }
  assert (Hch1 : chronological (rr_gantt st ++
            [mkSeg (pidOfId (idOf sorted i)) (time st) t1])).
  { apply (chronological_snoc _ _ (time st)); [done|done|done|]. cbn. unfold t1. lia. }
  assert (Hck1 : Forall (λ s, end_ s ≤ t1) (rr_gantt st ++
            [mkSeg (pidOfId (idOf sorted i)) (time st) t1])).
  { apply Forall_app. split.
    - eapply Forall_impl; [exact Hck|]. simpl. intros. unfold t1. lia.
    - constructor; [cbn; lia|constructor]. }
  fold t1. fold rem1. rewrite Hrem_i.
  destruct (0 <? r - run) eqn:Hgo;
    [apply Z.ltb_lt in Hgo | apply Z.ltb_ge in Hgo];
    split; cbn [time queue remaining completion firstResponse visited rr_gantt];
    try done.
  - unfold rem1. by rewrite length_insert.
  - by rewrite mark_all_length.
  - apply NoDup_app. split; [done|]. split; [|apply NoDup_singleton].
    intros j Hj Hj'. apply list_elem_of_singleton in Hj' as ->.
    apply elem_of_app in Hj as [Hj|Hj]; [done|]. by apply Hnew_i in Hj.
  - intros j Hj. apply elem_of_app in Hj as [Hj|Hj]; [by apply Hq1|].
    apply list_elem_of_singleton in Hj as ->.
    split; [done|]. split; [apply Hvis1; by left|lia].
  - intros j Hv. apply Hvis1 in Hv as [Hv|Hv].
    + destruct (Hvi j Hv) as [Hj|Hj].
      * left. rewrite Eq in Hj. apply elem_of_cons in Hj as [->|Hj].
        -- apply elem_of_app. right. by apply list_elem_of_singleton.
        -- apply elem_of_app. left. apply elem_of_app. by left.
      * right. rewrite Hrem_ne; [done|]. intros ->. fold r in Hj. lia.
    + left. apply elem_of_app. left. apply elem_of_app. by right.
  - unfold rem1. by rewrite length_insert.
  - by rewrite mark_all_length.
  - intros j Hv. apply Hvis1 in Hv as [Hv|Hv].
    + destruct (Hvi j Hv) as [Hj|Hj].
      * rewrite Eq in Hj. apply elem_of_cons in Hj as [->|Hj].
        -- right. lia.
        -- left. apply elem_of_app. by left.
      * right. rewrite Hrem_ne; [done|]. intros ->. fold r in Hj. lia.
    + left. apply elem_of_app. by right.
Qed.

Lemma rr_body_inv st i rest :
  rr_inv sorted st → queue st = i :: rest → rr_inv sorted (rr_body sorted q i rest st).
Proof.
  intros [H0 _] Eq. unfold rr_body. by apply rr_gap_inv, rr_enqueue_slice_inv.
Qed.

Lemma rr_reach_inv st : rr_reach sorted q st → rr_inv sorted st.
Proof.
  induction 1 as [|st i rest _ IH Eq]; [apply rr_init_inv|by apply rr_body_inv].
Qed.

Lemma rr_body_remaining st i rest :
  remaining (rr_body sorted q i rest st) =
  <[i := getZ (remaining st) i - Z.min (getZ (remaining st) i) q]> (remaining st).
Proof.
  unfold rr_body, rr_gap, rr_enqueue, rr_slice.
  cbn [time queue remaining completion firstResponse visited rr_gantt].
  destruct (0 <? _); cbn [queue]; destruct (_ : list nat);
    try destruct (gap_fill _ _ _ _) as [[? ?] ?]; done.
Qed.

Lemma rr_body_decreases st i rest :
  rr_inv sorted st → queue st = i :: rest →
  sumZ (remaining (rr_body sorted q i rest st)) ≤ sumZ (remaining st) - 1.
Proof.
  intros [H0 _] Eq.
  assert (Hi : i ∈ queue st) by (rewrite Eq; left).
  destruct (inv_queue _ _ H0 i Hi) as (Hin & _ & Hri).
  rewrite rr_body_remaining, sumZ_insert by (rewrite (inv_len_rem _ _ H0); lia).
  lia.
Qed.

Lemma rr_remaining_nonneg st : rr_inv sorted st → 0 ≤ sumZ (remaining st).
Proof.
  intros [H0 _]. apply sumZ_nonneg, Forall_lookup. intros j x Hx.
  pose proof (inv_nonneg _ _ H0 j) as Hj. unfold getZ in Hj. by rewrite Hx in Hj.
Qed.

(** The loop ends within as many iterations as there is work left. *)
Lemma rr_loop_terminates fuel st :
  rr_inv sorted st → sumZ (remaining st) ≤ Z.of_nat fuel →
  ∃ st', rr_loop fuel sorted q st = Some st'.
Proof.
  revert st. induction fuel as [|fuel IH]; intros st Hinv Hsum.
  - destruct (queue st) as [|i rest] eqn:Eq; simpl; rewrite Eq; [by eexists|].
    exfalso. destruct Hinv as [H0 Hd].
    assert (Hi : i ∈ queue st) by (rewrite Eq; left).
    destruct (inv_queue _ _ H0 i Hi) as (Hin & _ & Hri).
    pose proof (rr_body_decreases st i rest (conj H0 Hd) Eq).
    pose proof (rr_remaining_nonneg _ (rr_body_inv st i rest (conj H0 Hd) Eq)).
    lia.
  - destruct (queue st) as [|i rest] eqn:Eq; simpl; rewrite Eq; [by eexists|].
    apply IH; [by apply rr_body_inv|].
    pose proof (rr_body_decreases st i rest Hinv Eq). lia.
Qed.

End Invariant.

(** What the loop returns is a state of the run, with an empty queue. *)
Lemma rr_loop_reach sorted q fuel st st' :
  rr_reach sorted q st → rr_loop fuel sorted q st = Some st' →
  rr_reach sorted q st' ∧ queue st' = [].
Proof.
  revert st. induction fuel as [|fuel IH]; intros st Hr; simpl;
    destruct (queue st) as [|i rest] eqn:Eq; intros H; simplify_eq; try done.
  apply (IH _ (reach_step _ _ _ _ _ Hr Eq) H).
Qed.

(** More fuel does not change what the loop returns. *)
Lemma rr_loop_more_fuel sorted q fuel k st st' :
  rr_loop fuel sorted q st = Some st' → rr_loop (fuel + k) sorted q st = Some st'.
Proof.
  revert st. induction fuel as [|fuel IH]; intros st; simpl;
    destruct (queue st) as [|i rest] eqn:Eq; intros H; simplify_eq.
  - destruct k; simpl; by rewrite Eq.
  - done.
  - by apply IH.
Qed.

Lemma roundRobin_returns fuel procs q r :
  roundRobin fuel procs q = Returns r →
  ∃ st, rr_run fuel procs q = Some st ∧ r = rr_result (sort_by at_ procs) st.
Proof.
  unfold roundRobin, rr_on_sorted, rr_run.
  destruct (rr_loop _ _ _ _) as [st|]; intros H; simplify_eq. by exists st.
Qed.

Lemma sumZ_bt_sort procs : sumZ (bt <$> sort_by at_ procs) = sumZ (bt <$> procs).
Proof. apply sumZ_perm. by rewrite sort_by_perm. Qed.

Lemma sumZ_zero (l : list Z) : (∀ j, getZ l j = 0) → sumZ l = 0.
Proof.
  induction l as [|x l IH]; intros H; simpl; [done|].
  pose proof (H 0%nat) as H0. unfold getZ in H0. simpl in H0.
  rewrite IH; [lia|]. intros j. apply (H (S j)).
Qed.

(** The facts about a finished run that the properties below are read from. *)
Lemma rr_run_facts fuel procs q st :
  1 ≤ q → Forall (λ p, 0 < bt p) procs →
  rr_run fuel procs q = Some st →
  queue st = [] ∧
  length (remaining st) = length procs ∧
  (∀ j, getZ (remaining st) j = 0) ∧
  sumZ (duration <$> rr_gantt st) = sumZ (bt <$> procs) ∧
  chronological (rr_gantt st).
Proof.
  intros Hq Hbt Hrun. unfold rr_run in Hrun.
  apply rr_loop_reach in Hrun as [Hr Hqe]; [|constructor].
  apply (rr_reach_inv _ _ Hq (sort_by_Forall _ _ _ Hbt)) in Hr as [H0 Hd].
  split; [done|]. split; [by rewrite (inv_len_rem _ _ H0), sort_by_length|].
  split; [by apply Hd|]. split; [|apply (inv_chrono _ _ H0)].
  pose proof (inv_conserve _ _ H0) as Hc.
  rewrite (sumZ_zero _ (Hd Hqe)), sumZ_bt_sort in Hc. lia.
Qed.

(** The fuel that is always enough: the total work. *)
Lemma rr_run_terminates procs q :
  1 ≤ q → Forall (λ p, 0 < bt p) procs →
  ∃ st, rr_run (Z.to_nat (sumZ (bt <$> procs))) procs q = Some st.
Proof.
  intros Hq Hbt. unfold rr_run.
  apply rr_loop_terminates; [done| |].
  - by apply rr_init_inv, sort_by_Forall.
  - cbn [rr_init remaining]. rewrite sumZ_bt_sort. lia.
Qed.

(** ** fcfsScheduler: the chart *)






(** ** A quantum below 1

    [roundRobin] does not look at the sign of [q].  With [q ≤ 0] a slice does
    not reduce the remaining time, the process that ran is pushed again, and
    the queue never empties: the loop does not end ([rr_stuck] is kept by
    every iteration). *)

Lemma getZ_pos_lt (l : list Z) j : 0 < getZ l j → (j < length l)%nat.
Proof.
  unfold getZ. destruct (l !! j) eqn:E; [|simpl; lia].
  intros _. by eapply lookup_lt_Some.
Qed.

Lemma rr_body_stuck sorted q st i rest :
  q ≤ 0 → rr_stuck st → queue st = i :: rest →
  rr_stuck (rr_body sorted q i rest st).
Proof.
  intros Hq [_ Hpos] Eq.
  assert (Hi : 0 < getZ (remaining st) i) by (apply Hpos; rewrite Eq; left).
  pose proof (getZ_pos_lt _ _ Hi) as Hlen.
  unfold rr_body, rr_enqueue, rr_slice.
  cbn [time queue remaining completion firstResponse visited rr_gantt].
  rewrite arrivals_eq. cbn [fst snd].
  set (rem1 := <[i := _]> (remaining st)).
  assert (Hrem_i : 0 < getZ rem1 i).
  { unfold rem1. rewrite getZ_insert_eq by done. lia. }
  assert (Hrem : ∀ j, 0 < getZ (remaining st) j → 0 < getZ rem1 j).
  { intros j Hj. destruct (decide (i = j)) as [<-|Hne]; [done|].
    unfold rem1. by rewrite getZ_insert_ne. }
  destruct (Z.ltb_spec 0 (getZ rem1 i)) as [_|?]; [|lia].
  unfold rr_gap. cbn [queue].
  destruct ((rest ++ _) ++ [i]) as [|j0 qu] eqn:Equ.
  { by apply app_eq_nil in Equ as [_ ?]. }
  rewrite <- Equ. split; cbn [queue remaining].
  - rewrite Equ. done.
  - intros j Hj. apply elem_of_app in Hj as [Hj|Hj].
    + apply elem_of_app in Hj as [Hj|Hj].
      * apply Hrem, Hpos. rewrite Eq. by right.
      * apply elem_of_newly_arrived in Hj. tauto.
    + by apply list_elem_of_singleton in Hj as ->.
Qed.

Lemma rr_loop_stuck sorted q fuel st :
  q ≤ 0 → rr_stuck st → rr_loop fuel sorted q st = None.
Proof.
  intros Hq. revert st. induction fuel as [|fuel IH]; intros st Hst;
    pose proof Hst as [Hne _]; simpl; destruct (queue st) as [|i rest] eqn:Eq;
    try done.
  by apply IH, rr_body_stuck.
Qed.

Lemma rr_nonpositive_quantum_diverges (fuel : nat) (procs : list Proc) (q : Z) :
  procs ≠ [] → Forall (λ p, 0 < bt p) procs → q ≤ 0 →
  roundRobin fuel procs q = OutOfFuel.
Proof.
  intros Hne Hbt Hq. unfold roundRobin, rr_on_sorted.
  rewrite rr_loop_stuck; [done|done|].
  pose proof (rr_init_inv _ (sort_by_Forall at_ _ _ Hbt)) as [H0 Hd].
  split; [|intros j Hj; by apply (inv_queue _ _ H0)].
  intros Hnil. specialize (Hd Hnil 0%nat). cbn [rr_init remaining] in Hd.
  rewrite getZ_bt in Hd.
  pose proof (btOf_pos _ (sort_by_Forall at_ _ _ Hbt) 0) as Hb.
  rewrite sort_by_length in Hb.
  assert (0 < length procs)%nat by (destruct procs; [done|simpl; lia]).
  specialize (Hb ltac:(done)). lia.
Qed.

(** ** The properties of the engine *)

(** C1 (as the engine computes it): for [DEFAULT_PROCESSES] and quantum 4 the
    call returns, whatever fuel from 7 on the loop is given, the seven
    segments P1[0,4), P2[4,7), P3[7,11), P4[11,15), P1[15,16), P3[16,20),
    P4[20,22), and [totalTime] is 22, the sum of the bursts. *)
Theorem rr_default_scenario (k : nat) :
  ∃ r, roundRobin (7 + k) DEFAULT_PROCESSES 4 = Returns r ∧
       gantt r = default_trace ∧ totalTime r = 22.
Proof.
  unfold roundRobin, rr_on_sorted.
  destruct (rr_loop 7 (sort_by at_ DEFAULT_PROCESSES) 4
              (rr_init (sort_by at_ DEFAULT_PROCESSES))) as [st|] eqn:E;
    [|by vm_compute in E].
  rewrite (rr_loop_more_fuel _ _ _ k _ _ E).
  vm_compute in E. injection E as <-.
  eexists. split; [reflexivity|]. by vm_compute.
Qed.

(** C1, the trace of the specification: the run has no eighth segment
    P3[22,24) and does not end at 24. *)
Lemma rr_default_scenario_not_spec_trace :
  ∃ r, roundRobin 7 DEFAULT_PROCESSES 4 = Returns r ∧
       gantt r ≠ spec_trace ∧ totalTime r ≠ 24 ∧
       gantt r = default_trace ∧ totalTime r = 22.
Proof. eexists. split; [by vm_compute|]. by vm_compute. Qed.

(** C10: on the empty list both functions return, for every quantum and
    every fuel: empty chart, no context switch, [totalTime] 0, ["0.00"],
    ["0.000"], no row, and [NaN] for both averages. *)
Theorem empty_list_returns (fuel : nat) (q : Z) :
  roundRobin fuel [] q = Returns empty_result ∧
  call_fcfs [] = Returns empty_result ∧
  resultData empty_result = [] ∧ gantt empty_result = [] ∧
  cs empty_result = 0%nat ∧ totalTime empty_result = 0 ∧
  cpuUtil empty_result = "0.00" ∧ throughput empty_result = "0.000" ∧
  avgTat empty_result = NaN ∧ avgWt empty_result = NaN.
Proof. by destruct fuel. Qed.


(** ** The default range of the sweep *)

Lemma jsmax_list_spec (xs : list Z) :
  match jsmax_list xs with
  | None => xs = []
  | Some m => m ∈ xs ∧ Forall (λ x, x ≤ m) xs
  end.
Proof.
  induction xs as [|x xs IH]; [done|]. cbn [jsmax_list foldr].
  fold (jsmax_list xs). destruct (jsmax_list xs) as [m|].
  - destruct IH as [Hin Hall]. split.
    + destruct (Z.max_spec x m) as [[_ ->]|[_ ->]]; [by right|by left].
    + constructor; [lia|]. eapply Forall_impl; [exact Hall|]. simpl. intros. lia.
  - subst xs. split; [by left|]. by repeat constructor.
Qed.

Lemma elem_of_qValues processes q :
  q ∈ qValues processes ↔ 1 ≤ q ≤ maxQ processes - 1.
Proof.
  change (qValues processes) with (seqZ 1 (maxQ processes - 1)).
  rewrite elem_of_seqZ. lia.
Qed.

Lemma maxQ_ge_2 processes : 2 ≤ maxQ processes.
Proof. unfold maxQ. destruct (maxBt processes); lia. Qed.

(** C3, the range of the specification: for [DEFAULT_PROCESSES] the largest
    burst is 8, [max(2, 8 + 3)] is 11, and 11 is not among the quanta
    analysed, which are 1 to 10. *)
Lemma sweep_default_range_excludes_maxQ :
  maxBt DEFAULT_PROCESSES = Some 8 ∧
  Z.max 2 (8 + 3) = 11 ∧
  (11 ∉ qValues DEFAULT_PROCESSES) ∧
  qValues DEFAULT_PROCESSES = [1; 2; 3; 4; 5; 6; 7; 8; 9; 10].
Proof.
  split; [done|]. split; [done|]. split; [|done].
  intros H. vm_compute in H. repeat (apply elem_of_cons in H as [H|H]; [done|]).
  by apply elem_of_nil in H.
Qed.

(** ** Termination, conservation, ordering *)



(** ** The order of the queue *)

Lemma insert_by_sorted {A} (key : A → Z) x (l : list A) :
  StronglySorted (λ a b, key a ≤ key b) l →
  StronglySorted (λ a b, key a ≤ key b) (insert_by key x l).
Proof.
  induction 1 as [|y l Hl IH Hy]; cbn [insert_by].
  - by repeat constructor.
  - destruct (Z.leb_spec (key x) (key y)) as [Hxy|Hxy].
    + constructor; [by constructor|]. constructor; [done|].
      eapply Forall_impl; [exact Hy|]. simpl. intros. lia.
    + constructor; [done|]. rewrite insert_by_perm. constructor; [lia|done].
Qed.

Lemma sort_by_sorted {A} (key : A → Z) (l : list A) :
  StronglySorted (λ a b, key a ≤ key b) (sort_by key l).
Proof.
  induction l as [|x l IH]; [constructor|]. by apply insert_by_sorted.
Qed.

Lemma StronglySorted_lookup {A} (R : A → A → Prop) (l : list A) i j a b :
  StronglySorted R l → (i < j)%nat → l !! i = Some a → l !! j = Some b → R a b.
Proof.
  intros Hs. revert i j. induction Hs as [|x l Hl IH Hx]; intros i j Hij Ha Hb.
  - by rewrite lookup_nil in Ha.
  - destruct j as [|j]; [lia|]. destruct i as [|i]; simpl in *.
    + injection Ha as <-. rewrite Forall_forall in Hx.
      apply Hx. by eapply list_elem_of_lookup_2.
    + apply (IH i j); [lia|done|done].
Qed.

Lemma atOf_sorted procs i j :
  (i < j)%nat → (j < length (sort_by at_ procs))%nat →
  atOf (sort_by at_ procs) i ≤ atOf (sort_by at_ procs) j.
Proof.
  intros Hij Hj. unfold atOf.
  destruct (lookup_lt_is_Some_2 (sort_by at_ procs) i ltac:(lia)) as [a Ha].
  destruct (lookup_lt_is_Some_2 (sort_by at_ procs) j Hj) as [b Hb].
  rewrite Ha, Hb. simpl.
  apply (StronglySorted_lookup _ _ i j a b (sort_by_sorted at_ procs) Hij Ha Hb).
Qed.

Lemma scanned_ascending c vis n : StronglySorted lt (scanned c vis n).
Proof.
  unfold scanned. generalize 0%nat as a.
  assert (H : ∀ a,
    StronglySorted lt (filter (λ j, c j && negb (getB vis j) = true) (seq a n)) ∧
    Forall (λ j, (a ≤ j)%nat) (filter (λ j, c j && negb (getB vis j) = true) (seq a n))).
  { induction n as [|n IH]; intros a; [by repeat constructor|].
    cbn [seq]. rewrite filter_cons. destruct (IH (S a)) as [Hs Hf].
    assert (Hf' : Forall (λ j, (a ≤ j)%nat)
                    (filter (λ j, c j && negb (getB vis j) = true) (seq (S a) n)))
      by (eapply Forall_impl; [exact Hf|]; simpl; lia).
    destruct (decide _); [|done]. split.
    - constructor; [done|]. eapply Forall_impl; [exact Hf|]. simpl. lia.
    - by constructor. }
  intros a. apply H.
Qed.

Lemma StronglySorted_fmap_in {A B} (R : A → A → Prop) (R' : B → B → Prop)
    (f : A → B) (l : list A) :
  (∀ x y, x ∈ l → y ∈ l → R x y → R' (f x) (f y)) →
  StronglySorted R l → StronglySorted R' (f <$> l).
Proof.
  intros HR Hs. induction Hs as [|x l Hl IH Hx]; [constructor|].
  cbn. constructor.
  - apply IH. intros y z Hy Hz. apply HR; by right.
  - apply Forall_fmap. rewrite Forall_forall in Hx. apply Forall_forall.
    intros y Hy. apply HR; [by left|by right|by apply Hx].
Qed.

(** C4 (as the scan is written): in a run with positive bursts and a quantum
    of at least 1, after each slice the queue becomes the processes that
    were waiting, then the processes that never entered the queue and have
    arrived by the current time, then the process that just ran if it has
    work left.  The new arrivals are pushed in ascending order of their
    position in the list sorted by arrival, hence in ascending order of
    arrival time; their ids play no part. *)
Theorem arrivals_before_requeue (procs : list Proc) (q : Z) (st : RRState)
    (i : nat) (rest : list nat) :
  Forall (λ p, 0 < bt p) procs → 1 ≤ q →
  rr_reach (sort_by at_ procs) q st → queue st = i :: rest →
  let sorted := sort_by at_ procs in
  let st1 := rr_slice sorted q i rest st in
  let new := newly_arrived sorted (time st1) (remaining st1) (visited st1) in
  queue (rr_enqueue sorted i st1)
    = rest ++ new ++ (if 0 <? getZ (remaining st1) i then [i] else []) ∧
  (∀ j, j ∈ new ↔
        (j < length sorted)%nat ∧ getB (visited st1) j = false ∧
        atOf sorted j ≤ time st1) ∧
  StronglySorted lt new ∧
  StronglySorted Z.le (atOf sorted <$> new).
Proof.
  intros Hbt Hq Hr Eq sorted st1 new.
  pose proof (rr_reach_inv _ _ Hq (sort_by_Forall at_ _ _ Hbt) _ Hr) as [H0 _].
  assert (Hi : i ∈ queue st) by (rewrite Eq; left).
  destruct (inv_queue _ _ H0 i Hi) as (Hin & Hvi & Hri).
  split; [|split; [|split]].
  - unfold rr_enqueue. rewrite arrivals_eq. cbn [fst snd]. fold new.
    destruct (0 <? getZ (remaining st1) i); cbn [queue].
    + subst st1. cbn [rr_slice queue]. by rewrite <- app_assoc.
    + subst st1. cbn [rr_slice queue]. by rewrite app_nil_r.
  - intros j. unfold new. rewrite elem_of_newly_arrived. fold sorted.
    split; [tauto|]. intros (Hj & Hv & Hat). repeat split; try done.
    subst st1. cbn [rr_slice remaining visited] in *.
    rewrite getZ_insert_ne by (intros ->; congruence).
    by apply (inv_fresh _ _ H0).
  - apply scanned_ascending.
  - apply (StronglySorted_fmap_in lt); [|apply scanned_ascending].
    intros x y _ Hy Hxy. apply atOf_sorted; [done|].
    apply elem_of_newly_arrived in Hy. tauto.
Qed.

Lemma arrivals_before_requeue_witness :
  let sorted := sort_by at_ DEFAULT_PROCESSES in
  let st1 := rr_slice sorted 4 0 [] (rr_init sorted) in
  let new := newly_arrived sorted (time st1) (remaining st1) (visited st1) in
  queue (rr_enqueue sorted 0 st1)
    = [] ++ new ++ (if 0 <? getZ (remaining st1) 0 then [0%nat] else []) ∧
  (∀ j, j ∈ new ↔
        (j < length sorted)%nat ∧ getB (visited st1) j = false ∧
        atOf sorted j ≤ time st1) ∧
  StronglySorted lt new ∧
  StronglySorted Z.le (atOf sorted <$> new).
Proof.
  apply (arrivals_before_requeue DEFAULT_PROCESSES 4
           (rr_init (sort_by at_ DEFAULT_PROCESSES)) 0 []).
  - by repeat constructor.
  - lia.
  - constructor.
  - reflexivity.
Defined.

(** C4, the order of the specification: on [late_first_id] with quantum 10
    the first slice runs the process with id 2 until time 10; the scan then
    pushes the processes with ids 3 and 1, in this order, which is the order
    of their arrivals (3 and 5) and not the ascending order of their ids. *)
Lemma arrivals_not_in_id_order :
  let sorted := sort_by at_ late_first_id in
  let st1 := rr_slice sorted 10 0 [] (rr_init sorted) in
  queue (rr_init sorted) = [0%nat] ∧
  time st1 = 10 ∧
  queue (rr_enqueue sorted 0 st1) = [1%nat; 2%nat] ∧
  idOf sorted <$> queue (rr_enqueue sorted 0 st1) = [3; 1] ∧
  atOf sorted <$> queue (rr_enqueue sorted 0 st1) = [3; 5] ∧
  ¬ StronglySorted Z.lt (idOf sorted <$> queue (rr_enqueue sorted 0 st1)) ∧
  (∃ r, roundRobin 3 late_first_id 10 = Returns r ∧
        pid <$> gantt r = ["P2"; "P3"; "P1"]).
Proof.
  cbv zeta.
  set (ids := idOf _ <$> _).
  assert (Hids : ids = [3; 1]) by done.
  split; [done|]. split; [done|]. split; [done|].
  split; [done|]. split; [done|]. split.
  - rewrite Hids. intros H. apply StronglySorted_cons in H as [H _].
    apply Forall_cons in H as [H _]. lia.
  - eexists. split; by vm_compute.
Qed.

(** ** The optimal quantum *)

Lemma jslt_irrefl x : jslt x x = false.
Proof.
  destruct x as [| | |a]; try done. cbn.
  apply negb_false_iff, Qle_bool_iff, Qle_refl.
Qed.

Lemma jslt_trans x y z : is_num x → is_num y → is_num z →
  jslt x y = true → jslt y z = true → jslt x z = true.
Proof.
  destruct x as [| | |a], y as [| | |b], z as [| | |c]; try done. cbn.
  rewrite !negb_true_iff, <- !not_true_iff_false, !Qle_bool_iff.
  intros _ _ _ Hab Hbc Hca. apply Hab.
  apply Qlt_le_weak. eapply Qlt_le_trans; [|exact Hca]. by apply Qnot_le_lt.
Qed.

Lemma jslt_le_trans x m p : is_num x → is_num m → is_num p →
  jslt x m = true → jslt p m = false → jslt x p = true.
Proof.
  destruct x as [| | |a], m as [| | |b], p as [| | |c]; try done. cbn.
  rewrite negb_false_iff, negb_true_iff, negb_true_iff.
  rewrite <- !not_true_iff_false, !Qle_bool_iff.
  intros _ _ _ Hba Hbc Hca. apply Hba. by eapply Qle_trans.
Qed.

Lemma jslt_not_jseq x y : jslt x y = true → jseq y x = false.
Proof.
  destruct x as [| | |a], y as [| | |b]; try done. cbn.
  rewrite negb_true_iff, <- !not_true_iff_false, Qle_bool_iff, Qeq_bool_iff.
  intros Hba Heq. apply Hba. rewrite Heq. apply Qle_refl.
Qed.

(** The [reduce] keeps the first point of least [awt]. *)
Lemma reduce_min_first (l pre : list SweepPoint) (m : SweepPoint) (k : nat) :
  Forall (λ p, is_num (awt p)) (pre ++ l) →
  pre !! k = Some m →
  (∀ p, p ∈ pre → jslt (awt p) (awt m) = false) →
  (∀ j p, (j < k)%nat → pre !! j = Some p → jslt (awt m) (awt p) = true) →
  ∃ k', (pre ++ l) !! k' =
          Some (foldl (λ m p, if jslt (awt p) (awt m) then p else m) m l) ∧
    (∀ p, p ∈ pre ++ l →
       jslt (awt p) (awt (foldl (λ m p, if jslt (awt p) (awt m) then p else m) m l))
       = false) ∧
    (∀ j p, (j < k')%nat → (pre ++ l) !! j = Some p →
       jslt (awt (foldl (λ m p, if jslt (awt p) (awt m) then p else m) m l)) (awt p)
       = true).
Proof.
  revert pre m k. induction l as [|x l IH]; intros pre m k Hnum Hk Hmin Hfirst.
  - rewrite app_nil_r. by exists k.
  - cbn [foldl].
    assert (Hnum' : Forall (λ p, is_num (awt p)) ((pre ++ [x]) ++ l))
      by by rewrite <- app_assoc.
    assert (Hn : ∀ p, p ∈ pre ++ [x] → is_num (awt p)).
    { intros p Hp. apply Forall_app in Hnum' as [Hnum' _].
      rewrite Forall_forall in Hnum'. by apply Hnum'. }
    assert (Hm : m ∈ pre) by by eapply list_elem_of_lookup_2.
    replace (pre ++ x :: l) with ((pre ++ [x]) ++ l) by by rewrite <- app_assoc.
    destruct (jslt (awt x) (awt m)) eqn:Hx.
    + apply (IH (pre ++ [x]) x (length pre)); [done| | |].
      * rewrite lookup_app_r by lia. by rewrite Nat.sub_diag.
      * intros p Hp. apply elem_of_app in Hp as [Hp|Hp].
        -- destruct (jslt (awt p) (awt x)) eqn:Hpx; [|done].
           rewrite <- (Hmin p Hp). symmetry.
           apply (jslt_trans _ (awt x)); try done; apply Hn; apply elem_of_app;
             [by left|right; by left|by left].
        -- apply list_elem_of_singleton in Hp as ->. apply jslt_irrefl.
      * intros j p Hj Hp. rewrite lookup_app_l in Hp by done.
        assert (Hp' : p ∈ pre) by by eapply list_elem_of_lookup_2.
        apply (jslt_le_trans _ (awt m)); try done; try apply Hn;
          try (apply elem_of_app; by left); [|by apply Hmin].
        apply elem_of_app. right. by left.
    + apply (IH (pre ++ [x]) m k); [done| | |].
      * rewrite lookup_app_l; [done|]. by eapply lookup_lt_Some.
      * intros p Hp. apply elem_of_app in Hp as [Hp|Hp]; [by apply Hmin|].
        by apply list_elem_of_singleton in Hp as ->.
      * intros j p Hj Hp. apply (Hfirst j p Hj).
        rewrite lookup_app_l in Hp; [done|].
        apply lookup_lt_Some in Hk. lia.
Qed.

Lemma sweep_lookup fuel procs qs pts :
  sweep fuel procs qs = Returns pts →
  pt_q <$> pts = qs ∧
  Forall (λ p, ∃ r, roundRobin fuel procs (pt_q p) = Returns r ∧ awt p = avgWt r) pts.
Proof.
  revert pts. induction qs as [|q qs IH]; intros pts; cbn [sweep].
  - intros [= <-]. by split.
  - destruct (roundRobin fuel procs q) as [r| |] eqn:Er; try done.
    destruct (sweep fuel procs qs) as [ps| |]; try done.
    intros [= <-]. destruct (IH ps eq_refl) as [Hq Hall].
    split; [cbn; by rewrite Hq|]. constructor; [|done]. by exists r.
Qed.

Lemma sweep_returns fuel procs qs :
  Forall (λ q, ∃ r, roundRobin fuel procs q = Returns r) qs →
  ∃ pts, sweep fuel procs qs = Returns pts.
Proof.
  induction 1 as [|q qs [r Hr] _ [ps Hps]]; cbn [sweep]; [by eexists|].
  rewrite Hr, Hps. by eexists.
Qed.

Lemma roundRobin_avgWt_num fuel procs q r :
  procs ≠ [] → roundRobin fuel procs q = Returns r → is_num (avgWt r).
Proof.
  intros Hne Hr. apply roundRobin_returns in Hr as (st & _ & ->).
  cbn [rr_result avgWt]. unfold jsround, jsdiv.
  destruct (Z.eqb_spec (Z.of_nat (length (sort_by at_ procs))) 0) as [E|E]; [|done].
  rewrite sort_by_length in E. destruct procs; [done|]. simpl in E. lia.
Qed.

Lemma roundRobin_enough_fuel fuel procs q :
  Forall (λ p, 0 < bt p) procs → 1 ≤ q →
  (Z.to_nat (sumZ (bt <$> procs)) ≤ fuel)%nat →
  ∃ r, roundRobin fuel procs q = Returns r.
Proof.
  intros Hbt Hq Hfuel. destruct (rr_run_terminates procs q Hq Hbt) as [st Hst].
  apply (rr_loop_more_fuel _ _ _ (fuel - Z.to_nat (sumZ (bt <$> procs)))) in Hst.
  replace (_ + _)%nat with fuel in Hst by lia.
  unfold roundRobin, rr_on_sorted. rewrite Hst. by eexists.
Qed.

(** With positive bursts the sweep returns once the fuel reaches the total of
    the bursts: every quantum of [qValues] is at least 1. *)
Lemma points_returns (processes : list Proc) (fuel : nat) :
  Forall (λ p, 0 < bt p) processes →
  (Z.to_nat (sumZ (bt <$> processes)) ≤ fuel)%nat →
  ∃ pts, points fuel processes = Returns pts.
Proof.
  intros Hbt Hfuel. apply sweep_returns, Forall_forall. intros q Hq.
  apply roundRobin_enough_fuel; [done| |done].
  apply elem_of_qValues in Hq. lia.
Qed.

(** The optimum of the sweep of [DEFAULT_PROCESSES]. *)
Example optimal_quantum_default :
  ∃ pts m, points 22 DEFAULT_PROCESSES = Returns pts ∧
           minAwtPoint pts = Some m ∧ pt_q m = 8 ∧
           jseq (awt m) (Num (23 # 4)) = true.
Proof. eexists _, _. split; [by vm_compute|]. by vm_compute. Qed.

(** With a burst of 0 a segment of length 0 is charted: the ordering of
    segments is strict only for positive bursts. *)
Example zero_burst_segment :
  gantt (fcfsScheduler [mkProc 1 0 0]) = [mkSeg "P1" 0 0] ∧
  roundRobin 1 [mkProc 1 0 0] 4 =
    Returns (mkResult [mkRow (mkProc 1 0 0) 0 0 0 0] [mkSeg "P1" 0 0] 0
               (Num (0 # 1)) (Num (0 # 1)) "0.00" "0.000" 0).
Proof. by vm_compute. Qed.

(** ** The input is left as it was *)

Lemma copy_and_sort_spec (h : Store.heap) (procs : nat) :
  Store.objs (Store.copy_and_sort h procs).1 = Store.objs h ∧
  Store.arrs (Store.copy_and_sort h procs).1 =
    Store.arrs h ++ [sort_by (λ o, at_ (Store.deref h o)) (Store.read_arr h procs)] ∧
  (Store.copy_and_sort h procs).2 = length (Store.arrs h).
Proof.
  unfold Store.copy_and_sort, Store.alloc_arr, Store.sort_in_place, Store.write_arr.
  cbn [fst snd Store.objs Store.arrs]. split; [done|]. split; [|done].
  rewrite insert_app_r_alt by done. rewrite Nat.sub_diag. cbn [insert list_insert].
  set (h1 := Store.mkHeap _ _).
  assert (E : Store.read_arr h1 (length (Store.arrs h)) = Store.read_arr h procs).
  { unfold Store.read_arr at 1, h1. cbn [Store.arrs]. by rewrite list_lookup_middle. }
  by rewrite E.
Qed.

Lemma copy_and_sort_sorted (h : Store.heap) (procs : nat) :
  Store.procs_at (Store.copy_and_sort h procs).1 (Store.copy_and_sort h procs).2
  = sort_by at_ (Store.procs_at h procs).
Proof.
  destruct (copy_and_sort_spec h procs) as (Ho & Ha & Hr).
  unfold Store.procs_at, Store.read_arr. rewrite Ha, Hr, list_lookup_middle by done.
  cbn [default]. unfold Store.deref at 1. rewrite Ho.
  apply (sort_by_fmap (Store.deref h) at_).
Qed.

Lemma copy_and_sort_frame (h : Store.heap) (procs : nat) :
  (procs < length (Store.arrs h))%nat →
  Store.read_arr (Store.copy_and_sort h procs).1 procs = Store.read_arr h procs ∧
  Store.procs_at (Store.copy_and_sort h procs).1 procs = Store.procs_at h procs.
Proof.
  intros Hp. destruct (copy_and_sort_spec h procs) as (Ho & Ha & _).
  unfold Store.procs_at, Store.read_arr, Store.deref.
  by rewrite Ha, Ho, lookup_app_l.
Qed.

(** C9: a call of [roundRobin] or of [fcfsScheduler] on the caller's array
    leaves the heap it was given as it was: no [Proc] object is written, the
    caller's array holds the same references in the same order, and so does
    every other array that existed before the call; the only change is one
    new array, the sorted copy.  The result is the one computed from the
    processes the array held at the call. *)
Theorem input_not_mutated (fuel : nat) (h : Store.heap) (procs : nat) (q : Z) :
  (procs < length (Store.arrs h))%nat →
  (Store.objs (Store.roundRobin_h fuel h procs q).1 = Store.objs h ∧
   Store.read_arr (Store.roundRobin_h fuel h procs q).1 procs = Store.read_arr h procs ∧
   take (length (Store.arrs h)) (Store.arrs (Store.roundRobin_h fuel h procs q).1)
     = Store.arrs h ∧
   Store.procs_at (Store.roundRobin_h fuel h procs q).1 procs = Store.procs_at h procs ∧
   (Store.roundRobin_h fuel h procs q).2 = roundRobin fuel (Store.procs_at h procs) q) ∧
  (Store.objs (Store.fcfsScheduler_h h procs).1 = Store.objs h ∧
   Store.read_arr (Store.fcfsScheduler_h h procs).1 procs = Store.read_arr h procs ∧
   take (length (Store.arrs h)) (Store.arrs (Store.fcfsScheduler_h h procs).1)
     = Store.arrs h ∧
   Store.procs_at (Store.fcfsScheduler_h h procs).1 procs = Store.procs_at h procs ∧
   (Store.fcfsScheduler_h h procs).2 = fcfsScheduler (Store.procs_at h procs)).
Proof.
  intros Hp.
  destruct (copy_and_sort_spec h procs) as (Ho & Ha & _).
  destruct (copy_and_sort_frame h procs Hp) as (Hread & Hprocs).
  pose proof (copy_and_sort_sorted h procs) as Hsorted.
  unfold Store.roundRobin_h, Store.fcfsScheduler_h.
  destruct (Store.copy_and_sort h procs) as [h1 sorted]. cbn [fst snd] in *.
  rewrite Ha, take_app_length, Hsorted, Hprocs. done.
Qed.

Lemma input_not_mutated_witness :
  let h := Store.mkHeap [mkProc 1 5 2; mkProc 2 0 3] [[0%nat; 1%nat]] in
  (Store.objs (Store.roundRobin_h 5 h 0 2).1 = Store.objs h ∧
   Store.read_arr (Store.roundRobin_h 5 h 0 2).1 0 = Store.read_arr h 0 ∧
   take (length (Store.arrs h)) (Store.arrs (Store.roundRobin_h 5 h 0 2).1)
     = Store.arrs h ∧
   Store.procs_at (Store.roundRobin_h 5 h 0 2).1 0 = Store.procs_at h 0 ∧
   (Store.roundRobin_h 5 h 0 2).2 = roundRobin 5 (Store.procs_at h 0) 2) ∧
  (Store.objs (Store.fcfsScheduler_h h 0).1 = Store.objs h ∧
   Store.read_arr (Store.fcfsScheduler_h h 0).1 0 = Store.read_arr h 0 ∧
   take (length (Store.arrs h)) (Store.arrs (Store.fcfsScheduler_h h 0).1)
     = Store.arrs h ∧
   Store.procs_at (Store.fcfsScheduler_h h 0).1 0 = Store.procs_at h 0 ∧
   (Store.fcfsScheduler_h h 0).2 = fcfsScheduler (Store.procs_at h 0)).
Proof.
  intros h.
  apply (input_not_mutated 5 h 0 2).
  cbn. lia.
Defined.

(** ** The per-process times of roundRobin *)

Lemma lastEnd_snoc g s : lastEnd (g ++ [s]) = end_ s.
Proof. unfold lastEnd. by rewrite last_snoc. Qed.

Lemma rr_init_times sorted :
  Forall (λ p, 0 < bt p) sorted → rr_times sorted (rr_init sorted).
Proof.
  intros Hbt. pose proof (rr_init_inv sorted Hbt) as [H0 Hd].
  unfold rr_init in *. rewrite initial_scan_eq in *. cbn [fst snd app] in *.
  split; cbn [time queue remaining completion firstResponse visited rr_gantt].
  - by rewrite length_replicate.
  - by rewrite length_replicate.
  - intros j Hj Hv. apply mark_all_get in Hv as [Hv|[Hv _]].
    + by rewrite getB_replicate in Hv.
    + apply elem_of_scanned in Hv as (_ & Hv & _). by apply Z.leb_le.
  - intros j Hj. left. split; [|apply getZ_bt].
    unfold getZ. by rewrite lookup_replicate_2.
  - intros j Hj Hz. rewrite getZ_bt in Hz. pose proof (btOf_pos sorted Hbt j Hj). lia.
  - intros Hnil Hn. exfalso. cbn [queue remaining] in Hd.
    specialize (Hd Hnil 0%nat). rewrite getZ_bt in Hd.
    pose proof (btOf_pos sorted Hbt 0 Hn). lia.
Qed.

(** One iteration, field by field: the clock does not go back, a process
    enters the queue only if it has arrived by the new clock, and the queue
    is left empty only when the process that ran is finished and no time was
    skipped. *)
Lemma rr_body_shape sorted q i rest st :
  ∃ t' qu' vis',
    rr_body sorted q i rest st =
      mkState t' qu'
        (<[i := getZ (remaining st) i - Z.min (getZ (remaining st) i) q]> (remaining st))
        (if 0 <? getZ (<[i := getZ (remaining st) i - Z.min (getZ (remaining st) i) q]>
                         (remaining st)) i
         then completion st
         else <[i := time st + Z.min (getZ (remaining st) i) q]> (completion st))
        (if getZ (firstResponse st) i =? -1
         then <[i := time st - atOf sorted i]> (firstResponse st)
         else firstResponse st)
        vis'
        (rr_gantt st ++ [mkSeg (pidOfId (idOf sorted i)) (time st)
                           (time st + Z.min (getZ (remaining st) i) q)]) ∧
    time st + Z.min (getZ (remaining st) i) q ≤ t' ∧
    (∀ j, getB vis' j = true → getB (visited st) j = true ∨ atOf sorted j ≤ t') ∧
    (qu' = [] →
       t' = time st + Z.min (getZ (remaining st) i) q ∧
       getZ (<[i := getZ (remaining st) i - Z.min (getZ (remaining st) i) q]>
               (remaining st)) i ≤ 0).
Proof.
  unfold rr_body, rr_enqueue, rr_slice.
  cbn [time queue remaining completion firstResponse visited rr_gantt].
  rewrite arrivals_eq. cbn [fst snd].
  set (rem1 := <[i := _]> (remaining st)).
  set (t1 := time st + _).
  set (new := newly_arrived sorted t1 rem1 (visited st)).
  assert (Hvis : ∀ j, getB (mark_all new (visited st)) j = true →
                      getB (visited st) j = true ∨ atOf sorted j ≤ t1).
  { intros j Hj. apply mark_all_get in Hj as [Hj|[Hj _]]; [by left|].
    right. apply elem_of_newly_arrived in Hj. tauto. }
  destruct (Z.ltb_spec 0 (getZ rem1 i)) as [Hgo|Hgo]; unfold rr_gap; cbn [queue].
  - destruct ((rest ++ new) ++ [i]) as [|j0 qu] eqn:Equ.
    { by apply app_eq_nil in Equ as [_ ?]. }
    eexists _, _, _. split; [reflexivity|]. split; [lia|]. split; [done|]. done.
  - destruct (rest ++ new) as [|j0 qu] eqn:Equ.
    + unfold gap_fill.
      cbn [time queue remaining completion firstResponse visited rr_gantt].
      destruct (find _ _) as [k|] eqn:Ef.
      * eexists _, _, _. split; [reflexivity|]. split; [lia|]. split; [|done].
        intros j Hj. destruct (decide (k = j)) as [->|Hne]; [right; lia|].
        rewrite getB_insert_ne in Hj by done.
        destruct (Hvis j Hj) as [?|?]; [by left|right; lia].
      * eexists _, _, _. split; [reflexivity|]. split; [lia|]. split; [done|]. done.
    + eexists _, _, _. split; [reflexivity|]. split; [lia|]. split; [done|]. done.
Qed.

Lemma rr_body_times sorted q st i rest :
  1 ≤ q → rr_inv sorted st → rr_times sorted st → queue st = i :: rest →
  rr_times sorted (rr_body sorted q i rest st).
Proof.
  intros Hq [H0 _] [Hlc Hlf Harr Hprog Hcomp _] Eq.
  assert (Hi : i ∈ queue st) by (rewrite Eq; left).
  destruct (inv_queue _ _ H0 i Hi) as (Hin & Hvi & Hri).
  pose proof (inv_len_rem _ _ H0) as Hlr.
  pose proof (inv_clock _ _ H0) as Hck.
  destruct (rr_body_shape sorted q i rest st)
    as (t' & qu' & vis' & -> & Ht' & Hvis' & Hempty).
  set (r := getZ (remaining st) i) in *.
  set (run := Z.min r q) in *.
  assert (Hrun : 1 ≤ run ≤ r) by (unfold run; lia).
  set (rem1 := <[i := r - run]> (remaining st)) in *.
  assert (Hrem_i : getZ rem1 i = r - run) by (apply getZ_insert_eq; lia).
  assert (Hrem_ne : ∀ j, j ≠ i → getZ rem1 j = getZ (remaining st) j)
    by (intros; by apply getZ_insert_ne).
  set (fr1 := if getZ (firstResponse st) i =? -1 then _ else _).
  assert (Hfr_ne : ∀ j, j ≠ i → getZ fr1 j = getZ (firstResponse st) j).
  { intros j Hne. unfold fr1. destruct (_ =? _); [|done]. by apply getZ_insert_ne. }
  assert (Hfr_i : 0 ≤ getZ fr1 i ∧
                  atOf sorted i + getZ fr1 i + (btOf sorted i - r) ≤ time st).
  { unfold fr1. destruct (Hprog i Hin) as [[Hm Hb]|[Hpos Hle]].
    - rewrite Hm. cbn. rewrite getZ_insert_eq by lia. fold r in Hb.
      pose proof (Harr i Hin Hvi). lia.
    - destruct (Z.eqb_spec (getZ (firstResponse st) i) (-1)); [lia|done]. }
  set (comp1 := if 0 <? getZ rem1 i then _ else _).
  assert (Hcomp_ne : ∀ j, j ≠ i → getZ comp1 j = getZ (completion st) j).
  { intros j Hne. unfold comp1. destruct (_ <? _); [done|]. by apply getZ_insert_ne. }
  split; cbn [time queue remaining completion firstResponse visited rr_gantt].
  - unfold comp1. destruct (_ <? _); [done|]. by rewrite length_insert.
  - unfold fr1. destruct (_ =? _); [|done]. by rewrite length_insert.
  - intros j Hj Hv. destruct (Hvis' j Hv) as [Hv0|?]; [|done].
    pose proof (Harr j Hj Hv0). lia.
  - intros j Hj. destruct (decide (j = i)) as [->|Hne].
    + right. rewrite Hrem_i. lia.
    + rewrite Hfr_ne, Hrem_ne by done.
      destruct (Hprog j Hj) as [?|[? ?]]; [by left|right]. split; [done|lia].
  - intros j Hj Hz. destruct (decide (j = i)) as [->|Hne].
    + rewrite Hrem_i in Hz. unfold comp1. rewrite Hrem_i.
      destruct (Z.ltb_spec 0 (r - run)); [lia|].
      rewrite getZ_insert_eq by lia. lia.
    + rewrite Hrem_ne in Hz by done. rewrite Hfr_ne, Hcomp_ne by done.
      destruct (Hcomp j Hj Hz). split; [done|lia].
  - intros Hnil Hn. destruct (Hempty Hnil) as [-> Hdone].
    split; [by rewrite lastEnd_snoc|]. exists i. split; [done|].
    unfold comp1. destruct (Z.ltb_spec 0 (getZ rem1 i)); [lia|].
    by rewrite getZ_insert_eq by lia.
Qed.

Lemma rr_reach_times sorted q st :
  1 ≤ q → Forall (λ p, 0 < bt p) sorted →
  rr_reach sorted q st → rr_inv sorted st ∧ rr_times sorted st.
Proof.
  intros Hq Hbt. induction 1 as [|st i rest Hr [IHi IHt] Eq].
  - split; [by apply rr_init_inv|by apply rr_init_times].
  - split; [by apply rr_body_inv|by apply rr_body_times].
Qed.

(** The rows of [resultData], read from the final state. *)
Lemma rr_rows sorted st row :
  length (completion st) = length sorted →
  row ∈ resultData (rr_result sorted st) ↔
  ∃ j p, sorted !! j = Some p ∧
         row = mkRow p (getZ (completion st) j)
                 (getZ (completion st) j - at_ p)
                 (getZ (completion st) j - at_ p - bt p)
                 (getZ (firstResponse st) j).
Proof.
  intros Hlen. cbn [rr_result resultData]. rewrite sort_by_perm.
  rewrite list_elem_of_lookup. setoid_rewrite list_lookup_imap.
  assert (Hcell : ∀ j p, sorted !! j = Some p →
    getZ (imap (λ i c, c - atOf sorted i) (completion st)) j
      = getZ (completion st) j - at_ p ∧
    getZ (imap (λ i t, t - btOf sorted i)
            (imap (λ i c, c - atOf sorted i) (completion st))) j
      = getZ (completion st) j - at_ p - bt p).
  { intros j p Hp. pose proof (lookup_lt_Some _ _ _ Hp) as Hj.
    destruct (lookup_lt_is_Some_2 (completion st) j ltac:(lia)) as [c Hc].
    unfold getZ, atOf, btOf. rewrite !list_lookup_imap, Hc, Hp. done. }
  split.
  - intros [j Hj]. destruct (sorted !! j) as [p|] eqn:Hp; [|done].
    cbn in Hj. injection Hj as <-. exists j, p. split; [done|].
    destruct (Hcell j p Hp) as [-> ->]. done.
  - intros (j & p & Hp & ->). exists j. rewrite Hp. cbn.
    destruct (Hcell j p Hp) as [-> ->]. done.
Qed.

Lemma rr_rows_procs sorted st :
  proc <$> resultData (rr_result sorted st) = sort_by id sorted.
Proof.
  cbn [rr_result resultData].
  rewrite (sort_by_fmap proc id). f_equal.
  apply list_eq. intros j. rewrite list_lookup_fmap, list_lookup_imap.
  by destruct (sorted !! j).
Qed.




(** ** The number of segments *)

Lemma slices_step q r : 1 ≤ q → 0 < r → slices q (r - Z.min r q) = slices q r - 1.
Proof.
  intros Hq Hr. unfold slices. destruct (Z.min_spec r q) as [[Hlt ->]|[Hle ->]].
  - replace (r - r + q - 1) with (q - 1) by lia.
    rewrite Z.div_small by lia.
    replace (r + q - 1) with ((r - 1) + 1 * q) by lia.
    rewrite Z.div_add by lia. rewrite Z.div_small by lia. lia.
  - replace (r + q - 1) with ((r - q + q - 1) + 1 * q) by lia.
    rewrite Z.div_add by lia. lia.
Qed.

Lemma slices_zero q : 1 ≤ q → slices q 0 = 0.
Proof. intros Hq. unfold slices. apply Z.div_small. lia. Qed.

Lemma getZ_fmap (f : Z → Z) (l : list Z) j :
  (j < length l)%nat → getZ (f <$> l) j = f (getZ l j).
Proof.
  intros Hj. unfold getZ. rewrite list_lookup_fmap.
  by destruct (lookup_lt_is_Some_2 l j Hj) as [x ->].
Qed.

Lemma rr_reach_segments sorted q st :
  1 ≤ q → Forall (λ p, 0 < bt p) sorted → rr_reach sorted q st →
  Z.of_nat (length (rr_gantt st)) + sumZ (slices q <$> remaining st)
  = sumZ (slices q <$> (bt <$> sorted)).
Proof.
  intros Hq Hbt. induction 1 as [|st i rest Hr IH Eq]; [by cbn|].
  pose proof (rr_reach_inv _ _ Hq Hbt _ Hr) as [H0 _].
  assert (Hi : i ∈ queue st) by (rewrite Eq; left).
  destruct (inv_queue _ _ H0 i Hi) as (Hin & _ & Hri).
  pose proof (inv_len_rem _ _ H0) as Hlr.
  destruct (rr_body_shape sorted q i rest st) as (t' & qu' & vis' & -> & _).
  cbn [rr_gantt remaining]. rewrite length_app, list_fmap_insert.
  rewrite sumZ_insert by (rewrite length_fmap; lia).
  rewrite getZ_fmap by lia. rewrite slices_step by done. cbn [length]. lia.
Qed.

Lemma contextSwitches_lt g : (contextSwitches g ≤ length g - 1)%nat.
Proof.
  induction g as [|a [|b g] IH]; cbn [contextSwitches length] in *; [lia..|].
  destruct (String.eqb (pid b) (pid a)); lia.
Qed.

(** With positive bursts and a quantum of at least 1, the chart of
    [roundRobin] has exactly as many segments as the bursts need slices of
    length at most [q]: the sum over the processes of [bt / q] rounded up;
    the context switches are fewer than the segments. *)
Lemma rr_segment_count_Z (procs : list Proc) (q : Z) (fuel : nat) (r : RRResult) :
  Forall (λ p, 0 < bt p) procs → 1 ≤ q →
  roundRobin fuel procs q = Returns r →
  Z.of_nat (length (gantt r)) = sumZ ((λ p, slices q (bt p)) <$> procs) ∧
  (cs r ≤ length (gantt r) - 1)%nat.
Proof.
  intros Hbt Hq Hr. apply roundRobin_returns in Hr as (st & Hst & ->).
  cbn [rr_result gantt cs]. split; [|apply contextSwitches_lt].
  destruct (rr_run_facts _ _ _ _ Hq Hbt Hst) as (_ & _ & Hz & _).
  unfold rr_run in Hst. apply rr_loop_reach in Hst as [Hreach _]; [|constructor].
  pose proof (rr_reach_segments _ _ _ Hq (sort_by_Forall at_ _ _ Hbt) Hreach) as Hc.
  rewrite (sumZ_zero (slices q <$> remaining st)) in Hc.
  - rewrite Z.add_0_r in Hc. rewrite Hc. rewrite <- list_fmap_compose.
    apply sumZ_perm. by rewrite sort_by_perm.
  - intros j. unfold getZ. rewrite list_lookup_fmap.
    specialize (Hz j). unfold getZ in Hz.
    destruct (remaining st !! j) as [x|]; [|done]. cbn in *. subst x.
    by apply slices_zero.
Qed.

(** ** fcfsScheduler: one segment per process *)

Lemma fcfs_fold_closed l t g :
  foldl fcfs_step (t, g) l = (fcfs_clock t l, g ++ fcfs_segs t l).
Proof.
  revert t g. induction l as [|p l IH]; intros t g.
  - cbn. by rewrite app_nil_r.
  - cbn [foldl fcfs_segs fcfs_clock]. unfold fcfs_step at 2. cbn [fst snd].
    rewrite IH. by rewrite <- app_assoc.
Qed.

Lemma fcfs_gantt_segs sorted : fcfs_gantt sorted = fcfs_segs 0 sorted.
Proof. unfold fcfs_gantt. by rewrite fcfs_fold_closed. Qed.





Lemma fcfs_rows_procs procs sorted :
  proc <$> resultData (fcfs_on_sorted procs sorted) = sort_by id sorted.
Proof.
  cbn [fcfs_on_sorted resultData].
  rewrite (sort_by_fmap proc id). f_equal.
  apply list_eq. intros j. rewrite list_lookup_fmap, list_lookup_imap.
  by destruct (sorted !! j).
Qed.

(** X5: the rows of a result list every input process exactly once, in
    ascending order of id; [roundRobin] and [fcfsScheduler] list them in the
    same order. *)
Theorem result_rows_are_the_processes (procs : list Proc) (q : Z) (fuel : nat)
    (r : RRResult) :
  roundRobin fuel procs q = Returns r →
  proc <$> resultData r ≡ₚ procs ∧
  StronglySorted (λ a b, id a ≤ id b) (proc <$> resultData r) ∧
  proc <$> resultData (fcfsScheduler procs) = proc <$> resultData r.
Proof.
  intros Hr. apply roundRobin_returns in Hr as (st & _ & ->).
  unfold fcfsScheduler. rewrite rr_rows_procs, fcfs_rows_procs.
  split; [by rewrite !sort_by_perm|]. split; [apply sort_by_sorted|done].
Qed.

Lemma result_rows_are_the_processes_witness :
  ∃ r, roundRobin 7 DEFAULT_PROCESSES 4 = Returns r ∧
    proc <$> resultData r ≡ₚ DEFAULT_PROCESSES ∧
    StronglySorted (λ a b, id a ≤ id b) (proc <$> resultData r) ∧
    proc <$> resultData (fcfsScheduler DEFAULT_PROCESSES) = proc <$> resultData r.
Proof.
  destruct (roundRobin 7 DEFAULT_PROCESSES 4) as [r| |] eqn:E;
    [|by vm_compute in E..].
  exists r. split; [reflexivity|].
  apply (result_rows_are_the_processes DEFAULT_PROCESSES 4 7 r). exact E.
Defined.

(** ** A quantum that covers every burst *)

Lemma seq_ascending a n : StronglySorted lt (seq a n).
Proof.
  revert a. induction n as [|n IH]; intros a; cbn [seq]; constructor; [apply IH|].
  apply Forall_forall. intros j Hj. apply elem_of_seq in Hj. lia.
Qed.

(** An ascending list of indices with the elements of a range is the range. *)
Lemma ascending_range (l : list nat) a len :
  StronglySorted lt l → (∀ j, j ∈ l ↔ (a ≤ j < a + len)%nat) → l = seq a len.
Proof.
  intros Hs Hmem. apply (StronglySorted_unique_strong lt); [|done|apply seq_ascending|].
  - intros x1 x2 _ _ H1 H2. lia.
  - apply NoDup_Permutation; [|apply NoDup_seq|].
    + clear Hmem. induction Hs as [|x l Hl IH Hx]; constructor; [|done].
      intros Hin. rewrite Forall_forall in Hx. specialize (Hx x Hin). lia.
    + intros j. rewrite Hmem, elem_of_seq. lia.
Qed.

(** A property that is closed downwards on [[m, n)] holds exactly on a
    prefix [[m, m')] of it. *)
Lemma prefix_bound (P : nat → Prop) (m n : nat) :
  (∀ j, Decision (P j)) → (m ≤ n)%nat →
  (∀ i j, (m ≤ i)%nat → (i ≤ j)%nat → (j < n)%nat → P j → P i) →
  ∃ m', (m ≤ m' ≤ n)%nat ∧ ∀ j, ((m ≤ j < n)%nat ∧ P j) ↔ (m ≤ j < m')%nat.
Proof.
  intros Hdec Hmn. induction Hmn as [|n Hmn IH]; intros Hclosed.
  - exists m. split; [lia|]. intros j. lia.
  - destruct IH as (m' & Hm' & Hiff).
    { intros i j Hi Hij Hj. apply Hclosed; [done|done|lia]. }
    destruct (decide (m' = n ∧ P n)) as [[-> Hn]|Hno].
    + exists (S n). split; [lia|]. intros j. split; [lia|]. intros Hj.
      destruct (decide (j = n)) as [->|Hne]; [split; [lia|done]|].
      destruct (proj2 (Hiff j) ltac:(lia)) as [_ HP]. split; [lia|done].
    + exists m'. split; [lia|]. intros j. split.
      * intros [Hj HP]. destruct (decide (j = n)) as [->|Hne].
        -- destruct (decide (m' = n)) as [->|Hm]; [tauto|].
           exfalso. assert (Hpm : P m') by (apply (Hclosed m' n); [lia|lia|lia|done]).
           destruct (proj1 (Hiff m') ltac:(split; [lia|done])). lia.
        -- apply Hiff. split; [lia|done].
      * intros Hj. destruct (proj2 (Hiff j) Hj) as [? HP]. split; [lia|done].
Qed.

Lemma find_seq_first (f : nat → bool) (n a : nat) :
  (a < n)%nat → f a = true → (∀ j, (j < a)%nat → f j = false) →
  find f (seq 0 n) = Some a.
Proof.
  intros Ha Hfa Hlt.
  replace n with (a + (n - a))%nat by lia. rewrite seq_app.
  assert (Hnone : ∀ l k, (∀ j, j ∈ l → f j = false) → find f (l ++ k) = find f k).
  { induction l as [|x l IH]; intros k Hl; [done|]. cbn.
    rewrite (Hl x) by left. apply IH. intros j Hj. apply Hl. by right. }
  rewrite Hnone by (intros j Hj; apply elem_of_seq in Hj; apply Hlt; lia).
  destruct (n - a)%nat as [|d] eqn:E; [lia|]. cbn. by rewrite Hfa.
Qed.

Lemma fcfs_segs_app t l1 l2 :
  fcfs_segs t (l1 ++ l2) = fcfs_segs t l1 ++ fcfs_segs (fcfs_clock t l1) l2.
Proof.
  revert t. induction l1 as [|p l1 IH]; intros t; [done|].
  cbn [app fcfs_segs fcfs_clock]. by rewrite IH.
Qed.

Lemma fcfs_clock_app t l1 l2 :
  fcfs_clock t (l1 ++ l2) = fcfs_clock (fcfs_clock t l1) l2.
Proof.
  revert t. induction l1 as [|p l1 IH]; intros t; [done|].
  cbn [app fcfs_clock]. by rewrite IH.
Qed.

Lemma fcfs_segs_length t l : length (fcfs_segs t l) = length l.
Proof. revert t. induction l as [|p l IH]; intros t; cbn; [done|]. by rewrite IH. Qed.

(** The segment of the process at position [k]. *)
Lemma fcfs_segs_lookup (srt : list Proc) k p :
  srt !! k = Some p →
  fcfs_segs 0 srt !! k =
    Some (mkSeg (pidOfId (id p))
            (if fcfs_clock 0 (take k srt) <? at_ p then at_ p else fcfs_clock 0 (take k srt))
            ((if fcfs_clock 0 (take k srt) <? at_ p then at_ p else fcfs_clock 0 (take k srt))
             + bt p)) ∧
  fcfs_segs 0 (take (S k) srt) =
    fcfs_segs 0 (take k srt) ++
    [mkSeg (pidOfId (id p))
       (if fcfs_clock 0 (take k srt) <? at_ p then at_ p else fcfs_clock 0 (take k srt))
       ((if fcfs_clock 0 (take k srt) <? at_ p then at_ p else fcfs_clock 0 (take k srt))
        + bt p)] ∧
  fcfs_clock 0 (take (S k) srt) =
    (if fcfs_clock 0 (take k srt) <? at_ p then at_ p else fcfs_clock 0 (take k srt)) + bt p.
Proof.
  intros Hp. pose proof (lookup_lt_Some _ _ _ Hp) as Hk.
  rewrite (take_S_r _ _ _ Hp), fcfs_segs_app, fcfs_clock_app. cbn [fcfs_segs fcfs_clock].
  split; [|done].
  rewrite <- (take_drop k srt) at 1. rewrite fcfs_segs_app, (drop_S _ _ _ Hp).
  cbn [fcfs_segs]. apply list_lookup_middle.
  rewrite fcfs_segs_length, length_take. lia.
Qed.

Lemma find_all_false (f : nat → bool) (l : list nat) :
  (∀ j, j ∈ l → f j = false) → find f l = None.
Proof.
  induction l as [|x l IH]; intros H; [done|]. cbn.
  rewrite (H x) by left. apply IH. intros j Hj. apply H. by right.
Qed.

Lemma getZ_replicate n x j : (j < n)%nat → getZ (replicate n x) j = x.
Proof. intros Hj. unfold getZ. by rewrite lookup_replicate_2. Qed.

Section Lockstep.

Variable srt : list Proc.
Variable q : Z.
Hypothesis Hsorted : ∀ i j, (i < j)%nat → (j < length srt)%nat →
  atOf srt i ≤ atOf srt j.
Hypothesis Hbt : ∀ j, (j < length srt)%nat → 0 < btOf srt j ≤ q.
Hypothesis Hat0 : 0 ≤ atOf srt 0.

(** The indices from [m] on that have arrived by [t] are a range. *)
Lemma arrived_range (t : Z) (m : nat) :
  (m ≤ length srt)%nat →
  ∃ m', (m ≤ m' ≤ length srt)%nat ∧
        ∀ j, ((m ≤ j < length srt)%nat ∧ atOf srt j ≤ t) ↔ (m ≤ j < m')%nat.
Proof.
  intros Hm. apply prefix_bound; [apply _|done|].
  intros i j Hi Hij Hj Hjt. destruct (decide (i = j)) as [->|Hne]; [done|].
  pose proof (Hsorted i j ltac:(lia) Hj). lia.
Qed.

Lemma rr_init_lockstep : rr_lockstep srt 0 (rr_init srt).
Proof.
  unfold rr_init. rewrite initial_scan_eq. cbn [fst snd app].
  set (new := scanned _ _ _).
  destruct (arrived_range (atOf srt 0) 0 ltac:(lia)) as (m & Hm & Hiff).
  assert (Hnew : new = seq 0 m).
  { apply ascending_range; [apply scanned_ascending|]. intros j.
    unfold new. rewrite elem_of_scanned, Z.leb_le, getB_replicate.
    specialize (Hiff j). split.
    - intros (? & ? & _). destruct (proj1 Hiff ltac:(split; [lia|done])). lia.
    - intros ?. destruct (proj2 Hiff ltac:(lia)). split; [lia|]. tauto. }
  split; cbn [time queue remaining completion firstResponse visited rr_gantt].
  - by rewrite length_fmap.
  - by rewrite mark_all_length, length_replicate.
  - by rewrite length_replicate.
  - by rewrite length_replicate.
  - done.
  - intros j Hj. rewrite getZ_bt. by destruct (decide (j < 0)%nat); [lia|].
  - intros j sg Hj. lia.
  - intros j _ Hj. by apply getZ_replicate.
  - intros Hn. exists m.
    assert (H0 : (0 < m)%nat).
    { destruct (proj1 (Hiff 0%nat) ltac:(split; [lia|lia])). lia. }
    split; [lia|]. split; [by rewrite Nat.sub_0_r|]. split; [|split].
    + intros j Hj. rewrite mark_all_get, getB_replicate, length_replicate, Hnew.
      rewrite elem_of_seq. split; [intros [?|[? ?]]; [done|lia]|intros ?; right; lia].
    + intros j Hj. destruct (proj2 (Hiff j) ltac:(lia)). done.
    + rewrite take_0. cbn [fcfs_clock]. destruct (Z.ltb_spec 0 (atOf srt 0)); lia.
  - intros Hn. rewrite Hnew. destruct m; [done|lia].
Qed.

Lemma rr_body_lockstep k st :
  rr_lockstep srt k st → (k < length srt)%nat →
  ∃ rest, queue st = k :: rest ∧ rr_lockstep srt (S k) (rr_body srt q k rest st).
Proof.
  intros [Hlr Hlv Hlc Hlf Hg Hrem Hdone Hfresh Hqueue _] Hk.
  destruct (Hqueue Hk) as (m & Hm & Hq & Hvis & Harr & Htime).
  destruct (lookup_lt_is_Some_2 srt k Hk) as [p Hp].
  assert (Hat : atOf srt k = at_ p) by (unfold atOf; by rewrite Hp).
  assert (Hb : btOf srt k = bt p) by (unfold btOf; by rewrite Hp).
  assert (Hid : idOf srt k = id p) by (unfold idOf; by rewrite Hp).
  exists (seq (S k) (m - S k)). split.
  { rewrite Hq. by replace (m - k)%nat with (S (m - S k)) by lia. }
  destruct (fcfs_segs_lookup srt k p Hp) as (Hseg & Hsegs & Hclk).
  pose proof (Hbt k Hk) as Hbk. rewrite Hb in Hbk.
  assert (Hr : getZ (remaining st) k = bt p).
  { rewrite Hrem by done. destruct (decide (k < k)%nat); [lia|done]. }
  unfold rr_body, rr_enqueue, rr_slice.
  cbn [time queue remaining completion firstResponse visited rr_gantt].
  rewrite arrivals_eq. cbn [fst snd].
  rewrite Hr, (Z.min_l (bt p) q) by lia. rewrite Z.sub_diag.
  rewrite (Hfresh k) by lia. rewrite Z.eqb_refl.
  rewrite getZ_insert_eq by lia. rewrite Z.ltb_irrefl. rewrite Hid, Hat.
  set (t1 := time st + bt p).
  set (rem1 := <[k := 0]> (remaining st)).
  set (new := newly_arrived srt t1 rem1 (visited st)).
  destruct (arrived_range t1 m ltac:(lia)) as (m' & Hm' & Hiff).
  assert (Hrem1 : ∀ j, (j < length srt)%nat →
    getZ rem1 j = if decide (j < S k)%nat then 0 else btOf srt j).
  { intros j Hj. destruct (decide (j = k)) as [->|Hne].
    - unfold rem1. rewrite getZ_insert_eq by lia. destruct (decide _); [done|lia].
    - unfold rem1. rewrite getZ_insert_ne by done. rewrite Hrem by done.
      destruct (decide (j < k)%nat), (decide (j < S k)%nat); try lia; done. }
  assert (Hnew : new = seq m (m' - m)).
  { apply ascending_range; [apply scanned_ascending|]. intros j.
    unfold new. rewrite elem_of_newly_arrived. split.
    - intros (Hj & Hjt & Hjr & Hjv).
      assert (m ≤ j)%nat.
      { destruct (decide (j < m)%nat) as [Hlt|]; [|lia].
        apply (Hvis j Hj) in Hlt. congruence. }
      destruct (proj1 (Hiff j) ltac:(split; [lia|done])). lia.
    - intros Hj. destruct (proj2 (Hiff j) ltac:(lia)) as [[? ?] ?].
      split; [done|]. split; [done|]. split.
      + rewrite Hrem1 by done. destruct (decide _); [lia|]. by apply Hbt.
      + destruct (getB (visited st) j) eqn:E; [|done]. apply (Hvis j) in E; lia. }
  assert (Hqu : seq (S k) (m - S k) ++ new = seq (S k) (m' - S k)).
  { rewrite Hnew. replace (m' - S k)%nat with ((m - S k) + (m' - m))%nat by lia.
    rewrite seq_app. do 2 f_equal. lia. }
  rewrite Hqu.
  assert (Hvis1 : ∀ j, (j < length srt)%nat →
    (getB (mark_all new (visited st)) j = true ↔ (j < m')%nat)).
  { intros j Hj. rewrite mark_all_get, Hnew, elem_of_seq, Hlv.
    pose proof (Hvis j Hj). split; [intros [?|[? ?]]; [|lia]|intros ?].
    - assert (j < m)%nat by tauto. lia.
    - destruct (decide (j < m)%nat); [left; tauto|right; lia]. }
  assert (Harr1 : ∀ j, (j < m')%nat → atOf srt j ≤ t1).
  { intros j Hj. destruct (decide (j < m)%nat) as [Hlt|].
    - pose proof (Harr j Hlt). unfold t1. lia.
    - by destruct (proj2 (Hiff j) ltac:(lia)). }
  assert (Htime1 : t1 = fcfs_clock 0 (take (S k) srt)).
  { rewrite Hclk. unfold t1. by rewrite Htime, Hat. }
  assert (Hg1 : rr_gantt st ++ [mkSeg (pidOfId (id p)) (time st) t1]
                = fcfs_segs 0 (take (S k) srt)).
  { rewrite Hsegs, Hg. unfold t1. by rewrite Htime, Hat. }
  rewrite Hg1.
  assert (Hdone1 : ∀ j sg, (j < S k)%nat → fcfs_segs 0 srt !! j = Some sg →
    getZ (<[k := t1]> (completion st)) j = end_ sg ∧
    getZ (<[k := time st - at_ p]> (firstResponse st)) j = start sg - atOf srt j).
  { intros j sg Hj Hsg. destruct (decide (j = k)) as [->|Hne].
    - rewrite Hseg in Hsg. injection Hsg as <-. cbn [start end_].
      rewrite !getZ_insert_eq by lia. rewrite Hat. unfold t1. by rewrite Htime, Hat.
    - rewrite !getZ_insert_ne by done. apply Hdone; [lia|done]. }
  assert (Hfresh1 : ∀ j, (S k ≤ j)%nat → (j < length srt)%nat →
    getZ (<[k := time st - at_ p]> (firstResponse st)) j = -1).
  { intros j Hj Hjn. rewrite getZ_insert_ne by lia. apply Hfresh; lia. }
  unfold rr_gap. cbn [queue].
  destruct (decide (S k < m')%nat) as [Hlt|Hge].
  - replace (m' - S k)%nat with (S (m' - S (S k))) by lia. cbn [seq].
    split; cbn [time queue remaining completion firstResponse visited rr_gantt].
    + unfold rem1. by rewrite length_insert.
    + by rewrite mark_all_length.
    + by rewrite length_insert.
    + by rewrite length_insert.
    + done.
    + done.
    + done.
    + done.
    + intros _. exists m'. split; [lia|]. split.
      { by replace (m' - S k)%nat with (S (m' - S (S k))) by lia. }
      split; [done|]. split; [done|]. rewrite <- Htime1.
      destruct (Z.ltb_spec t1 (atOf srt (S k))); [|done].
      pose proof (Harr1 (S k) Hlt). lia.
    + intros ?. lia.
  - assert (m' = S k) by lia. subst m'. rewrite Nat.sub_diag. cbn [seq].
    unfold gap_fill.
    destruct (decide (S k < length srt)%nat) as [Hn|Hn].
    + rewrite (find_seq_first _ _ (S k)); [|done| |].
      2:{ rewrite andb_true_iff, Z.ltb_lt, negb_true_iff. split.
          - rewrite Hrem1 by done. destruct (decide _); [lia|]. by apply Hbt.
          - destruct (getB _ _) eqn:E; [|done]. apply (Hvis1 _ Hn) in E. lia. }
      2:{ intros j Hj. rewrite Hrem1 by lia. destruct (decide _); [done|lia]. }
      split; cbn [time queue remaining completion firstResponse visited rr_gantt].
      * unfold rem1. by rewrite length_insert.
      * by rewrite length_insert, mark_all_length.
      * by rewrite length_insert.
      * by rewrite length_insert.
      * done.
      * done.
      * done.
      * done.
      * intros _. exists (S (S k)). split; [lia|]. split.
        { by replace (S (S k) - S k)%nat with 1%nat by lia. }
        split; [|split].
        -- intros j Hj. destruct (decide (j = S k)) as [->|Hne].
           ++ rewrite getB_insert_eq by (rewrite mark_all_length; lia). split; [lia|done].
           ++ rewrite getB_insert_ne by done. rewrite (Hvis1 j Hj). lia.
        -- intros j Hj. destruct (decide (j = S k)) as [->|Hne]; [lia|].
           pose proof (Harr1 j ltac:(lia)). lia.
        -- rewrite <- Htime1. destruct (Z.ltb_spec t1 (atOf srt (S k))); lia.
      * intros ?. lia.
    + rewrite find_all_false.
      2:{ intros j Hj. apply elem_of_seq in Hj. rewrite Hrem1 by lia.
          destruct (decide _); [done|lia]. }
      split; cbn [time queue remaining completion firstResponse visited rr_gantt].
      * unfold rem1. by rewrite length_insert.
      * by rewrite mark_all_length.
      * by rewrite length_insert.
      * by rewrite length_insert.
      * done.
      * done.
      * done.
      * done.
      * intros ?. lia.
      * done.
Qed.

Lemma rr_loop_lockstep fuel k st :
  rr_lockstep srt k st → (k ≤ length srt)%nat → (length srt - k ≤ fuel)%nat →
  ∃ st', rr_loop fuel srt q st = Some st' ∧ rr_lockstep srt (length srt) st'.
Proof.
  revert k st. induction fuel as [|fuel IH]; intros k st Hls Hk Hfuel.
  - assert (k = length srt) as -> by lia.
    exists st. split; [|done]. cbn. by rewrite (ls_end _ _ _ Hls).
  - destruct (decide (k = length srt)) as [->|Hne].
    + exists st. split; [|done]. cbn. by rewrite (ls_end _ _ _ Hls).
    + destruct (rr_body_lockstep k st Hls ltac:(lia)) as (rest & Hq & Hls').
      cbn. rewrite Hq. apply (IH (S k)); [done|lia|lia].
Qed.

End Lockstep.

Lemma imap_getZ {A} (l : list Z) (srt : list A) :
  length l = length srt → imap (λ i _, getZ l i) srt = l.
Proof.
  intros Hlen. apply list_eq. intros i. rewrite list_lookup_imap.
  destruct (srt !! i) as [x|] eqn:Hx; cbn.
  - apply lookup_lt_Some in Hx.
    destruct (lookup_lt_is_Some_2 l i ltac:(lia)) as [z Hz].
    unfold getZ. by rewrite Hz.
  - apply lookup_ge_None in Hx. symmetry. apply lookup_ge_None. lia.
Qed.

(** The cells of the two derived arrays [tat] and [wt]. *)
Lemma rr_cells sorted (comp : list Z) j p :
  length comp = length sorted → sorted !! j = Some p →
  getZ (imap (λ i c, c - atOf sorted i) comp) j = getZ comp j - at_ p ∧
  getZ (imap (λ i t, t - btOf sorted i) (imap (λ i c, c - atOf sorted i) comp)) j
    = getZ comp j - at_ p - bt p.
Proof.
  intros Hlen Hp. pose proof (lookup_lt_Some _ _ _ Hp) as Hj.
  destruct (lookup_lt_is_Some_2 comp j ltac:(lia)) as [c Hc].
  unfold getZ, atOf, btOf. by rewrite !list_lookup_imap, Hc, Hp.
Qed.

(** When the run went in lockstep to the end, [roundRobin] builds the result
    of [fcfsScheduler]. *)
Lemma rr_lockstep_result procs srt st :
  sumZ (bt <$> procs) = sumZ (bt <$> srt) →
  rr_lockstep srt (length srt) st →
  rr_result srt st = fcfs_on_sorted procs srt.
Proof.
  intros Hsum [_ _ Hlc Hlf Hg _ Hdone _ _ _].
  rewrite take_ge in Hg by done. rewrite <- fcfs_gantt_segs in Hg.
  unfold rr_result, fcfs_on_sorted. cbv zeta. rewrite Hg, Hsum.
  set (tats := imap (λ i c, c - atOf srt i) (completion st)).
  set (wts := imap (λ i t, t - btOf srt i) tats).
  set (rows := imap (λ i p, mkRow p (getZ (completion st) i) (getZ tats i)
                              (getZ wts i) (getZ (firstResponse st) i)) srt).
  assert (Hrows : imap (λ i p,
             mkRow p (default 0 (end_ <$> fcfs_gantt srt !! i))
               (default 0 (end_ <$> fcfs_gantt srt !! i) - at_ p)
               (default 0 (end_ <$> fcfs_gantt srt !! i) - at_ p - bt p)
               (default 0 (end_ <$> fcfs_gantt srt !! i) - at_ p - bt p)) srt = rows).
  { apply imap_ext. intros i p Hp.
    destruct (fcfs_segs_lookup srt i p Hp) as (Hseg & _ & _).
    destruct (Hdone i _ (lookup_lt_Some _ _ _ Hp) Hseg) as [Hc Hf].
    destruct (rr_cells srt (completion st) i p Hlc Hp) as [Ht Hw].
    fold tats in Ht. fold tats wts in Hw.
    rewrite fcfs_gantt_segs, Hseg, Ht, Hw, Hc, Hf. cbn.
    unfold atOf. rewrite Hp. cbn. f_equal; lia. }
  rewrite Hrows.
  assert (Htat : sumZ (tat <$> sort_by (λ r, id (proc r)) rows) = sumZ tats).
  { rewrite (sumZ_perm _ (tat <$> rows)) by (by rewrite sort_by_perm).
    f_equal. transitivity (imap (λ i (_ : Proc), getZ tats i) srt);
      [|apply imap_getZ; unfold tats; by rewrite length_imap].
    apply list_eq. intros i. unfold rows.
    rewrite list_lookup_fmap, !list_lookup_imap. by destruct (srt !! i). }
  assert (Hwt : sumZ (wt <$> sort_by (λ r, id (proc r)) rows) = sumZ wts).
  { rewrite (sumZ_perm _ (wt <$> rows)) by (by rewrite sort_by_perm).
    f_equal. transitivity (imap (λ i (_ : Proc), getZ wts i) srt);
      [|apply imap_getZ; unfold wts, tats; by rewrite !length_imap].
    apply list_eq. intros i. unfold rows.
    rewrite list_lookup_fmap, !list_lookup_imap. by destruct (srt !! i). }
  by rewrite Htat, Hwt.
Qed.

(** With non-negative arrivals, positive bursts and a quantum that covers
    every burst, one iteration per process takes [roundRobin] to the result
    of [fcfsScheduler]. *)
Lemma rr_large_quantum_is_fcfs_aux (procs : list Proc) (q : Z) (fuel : nat) :
  Forall (λ p, 0 ≤ at_ p ∧ 0 < bt p ∧ bt p ≤ q) procs →
  (length procs ≤ fuel)%nat →
  roundRobin fuel procs q = Returns (fcfsScheduler procs).
Proof.
  intros Hp Hfuel. unfold roundRobin, rr_on_sorted, fcfsScheduler.
  set (srt := sort_by at_ procs).
  assert (Hps : Forall (λ p, 0 ≤ at_ p ∧ 0 < bt p ∧ bt p ≤ q) srt)
    by by apply sort_by_Forall.
  assert (Hcell : ∀ j p, srt !! j = Some p → 0 ≤ at_ p ∧ 0 < bt p ∧ bt p ≤ q).
  { intros j p Hj. rewrite Forall_forall in Hps. apply Hps.
    by eapply list_elem_of_lookup_2. }
  destruct (rr_loop_lockstep srt q) with (fuel := fuel) (k := 0%nat)
    (st := rr_init srt) as (st' & Hloop & Hls).
  - intros i j Hij Hj. by apply atOf_sorted.
  - intros j Hj. destruct (lookup_lt_is_Some_2 srt j Hj) as [p Hpj].
    unfold btOf. rewrite Hpj. cbn. destruct (Hcell j p Hpj). lia.
  - apply rr_init_lockstep.
    + intros i j Hij Hj. by apply atOf_sorted.
    + unfold atOf. destruct (srt !! 0%nat) as [p|] eqn:E; [|done].
      cbn. by destruct (Hcell _ _ E).
  - lia.
  - unfold srt. rewrite sort_by_length. lia.
  - rewrite Hloop. f_equal. apply rr_lockstep_result; [|done].
    symmetry. apply sumZ_bt_sort.
Qed.

(** ** The sweep reaches first-come first-served *)


Lemma sweep_points fuel procs qs pts :
  sweep fuel procs qs = Returns pts →
  Forall (λ p, ∃ r, roundRobin fuel procs (pt_q p) = Returns r ∧
                    awt p = avgWt r ∧ atat p = avgTat r ∧ pt_cs p = cs r) pts.
Proof.
  revert pts. induction qs as [|q qs IH]; intros pts; cbn [sweep].
  - intros [= <-]. constructor.
  - destruct (roundRobin fuel procs q) as [r| |] eqn:Er; try done.
    destruct (sweep fuel procs qs) as [ps| |]; try done.
    intros [= <-]. constructor; [by exists r|by apply IH].
Qed.

Lemma length_le_total_burst procs :
  Forall (λ p, 0 < bt p) procs → Z.of_nat (length procs) ≤ sumZ (bt <$> procs).
Proof. induction 1 as [|p l Hp _ IH]; cbn [length fmap list_fmap sumZ foldr] in *; [done|]. fold (sumZ (bt <$> l)). lia. Qed.




(** ** The process table *)






(** X10: for a table with positive bursts only.  [run] clamps the quantum
    before the call, so its call returns whatever quantum is stored, within
    as many iterations as the total of the bursts; the call of line 258
    passes the stored quantum as it is, and when the table is not empty and
    that quantum is 0 or less it never returns. *)
Theorem run_returns_unclamped_call_may_not (processes : list Proc) (quantum : Z) :
  Forall (λ p, 0 < bt p) processes →
  (∃ r, UI.run (Z.to_nat (sumZ (bt <$> processes))) processes quantum = Returns r) ∧
  (processes ≠ [] → quantum ≤ 0 →
   ∀ fuel, roundRobin fuel processes quantum = OutOfFuel).
Proof.
  intros Hbt. split.
  - unfold UI.run. apply roundRobin_enough_fuel; [done|lia|done].
  - intros Hne Hq fuel. by apply rr_nonpositive_quantum_diverges.
Qed.

Lemma run_returns_unclamped_call_may_not_witness :
  (∃ r, UI.run (Z.to_nat (sumZ (bt <$> DEFAULT_PROCESSES))) DEFAULT_PROCESSES 0
          = Returns r) ∧
  (∀ fuel, roundRobin fuel DEFAULT_PROCESSES 0 = OutOfFuel).
Proof.
  destruct (run_returns_unclamped_call_may_not DEFAULT_PROCESSES 0) as [Hrun Hrr].
  - by repeat constructor.
  - split; [exact Hrun|]. apply Hrr; [discriminate|lia].
Defined.

(** ** Context switches of fcfsScheduler *)

Lemma pidOfId_inj i j : pidOfId i = pidOfId j → i = j.
Proof.
  unfold pidOfId. intros H. cbn [String.append] in H.
  injection H as H. exact (pretty_Z_inj _ _ H).
Qed.

Lemma contextSwitches_distinct (g : list Seg) :
  NoDup (pid <$> g) → contextSwitches g = (length g - 1)%nat.
Proof.
  induction g as [|a [|b g] IH]; intros Hnd; [done|done|].
  cbn [fmap list_fmap] in Hnd. apply NoDup_cons in Hnd as [Ha Hnd].
  change (contextSwitches (a :: b :: g)) with
    ((if String.eqb (pid b) (pid a) then 0 else 1) + contextSwitches (b :: g))%nat.
  rewrite (IH Hnd).
  destruct (String.eqb_spec (pid b) (pid a)) as [E|_].
  - exfalso. apply Ha. rewrite <- E. left.
  - cbn [length]. lia.
Qed.

Lemma fcfs_segs_pids t (l : list Proc) :
  pid <$> fcfs_segs t l = (λ p, pidOfId (id p)) <$> l.
Proof.
  revert t. induction l as [|p l IH]; intros t; [done|].
  cbn [fcfs_segs fmap list_fmap pid]. f_equal. apply IH.
Qed.

Lemma contextSwitches_fcfs t (l : list Proc) :
  NoDup (id <$> l) → contextSwitches (fcfs_segs t l) = (length l - 1)%nat.
Proof.
  intros Hnd. rewrite contextSwitches_distinct, fcfs_segs_length; [done|].
  rewrite fcfs_segs_pids, (list_fmap_compose id pidOfId).
  apply NoDup_fmap_2; [|done]. intros i j. apply pidOfId_inj.
Qed.

(** X13: when the ids are pairwise different, [fcfsScheduler] counts one
    context switch between every two consecutive processes: [cs = n - 1]
    (and 0 for the empty list). *)
Theorem fcfs_context_switches (procs : list Proc) :
  NoDup (id <$> procs) →
  cs (fcfsScheduler procs) = (length procs - 1)%nat.
Proof.
  intros Hnd. cbn [fcfsScheduler fcfs_on_sorted cs].
  rewrite fcfs_gantt_segs, contextSwitches_fcfs, sort_by_length; [done|].
  by rewrite sort_by_perm.
Qed.

Lemma fcfs_context_switches_witness :
  cs (fcfsScheduler DEFAULT_PROCESSES) = (length DEFAULT_PROCESSES - 1)%nat.
Proof.
  apply (fcfs_context_switches DEFAULT_PROCESSES).
  cbn. repeat constructor; rewrite ?elem_of_cons, ?elem_of_nil; intros H;
    repeat destruct H as [H|H]; try discriminate; done.
Defined.

(** ** The adaptive quantum *)

Lemma sortedBursts_bound processes mx j a :
  Forall (λ x, x ≤ mx) (bt <$> processes) →
  sortedBursts processes !! j = Some a → a ≤ mx.
Proof.
  intros Hall Hj. rewrite Forall_forall in Hall. apply Hall.
  unfold sortedBursts in Hj. rewrite <- (sort_by_perm (λ x, x)).
  by eapply list_elem_of_lookup_2.
Qed.

(** X11: for a table that is not empty, [adaptiveQ] is an integer and one of
    the quanta of the sweep: between 1 and [maxQ - 1].  For the empty table
    it is [NaN]. *)
Theorem adaptive_quantum_in_sweep (processes : list Proc) :
  adaptiveQ [] = NaN ∧
  (processes ≠ [] →
   ∃ k, adaptiveQ processes = Num (inject_Z k) ∧ k ∈ qValues processes).
Proof.
  split; [done|]. intros Hne.
  pose proof (jsmax_list_spec (bt <$> processes)) as Hm.
  destruct (jsmax_list (bt <$> processes)) as [mx|] eqn:Emx.
  2:{ apply fmap_nil_inv in Hm. done. }
  destruct Hm as [_ Hle].
  assert (Hq : ∀ k, 1 ≤ k ≤ Z.max 1 (mx + 2) → k ∈ qValues processes).
  { intros k Hk. apply elem_of_qValues. unfold maxQ, maxBt. rewrite Emx. lia. }
  assert (Hlen : length (sortedBursts processes) = length processes)
    by (unfold sortedBursts; by rewrite sort_by_length, length_fmap).
  assert (Hn : (0 < length (sortedBursts processes))%nat).
  { rewrite Hlen. destruct processes; [done|cbn; lia]. }
  unfold adaptiveQ, median.
  set (B := sortedBursts processes) in *. set (n := length B) in *.
  destruct (Nat.eqb_spec (n mod 2) 0) as [Heven|Hodd].
  - assert (Hn2 : (2 ≤ n)%nat).
    { destruct n as [|[|n']]; [lia|cbn in Heven; lia|lia]. }
    destruct (lookup_lt_is_Some_2 B (n / 2 - 1)) as [a Ha].
    { fold n. assert (n / 2 < n)%nat by (apply Nat.Div0.div_lt_upper_bound; lia). lia. }
    destruct (lookup_lt_is_Some_2 B (n / 2)) as [b Hb].
    { fold n. apply Nat.Div0.div_lt_upper_bound. lia. }
    rewrite Ha, Hb.
    pose proof (sortedBursts_bound _ _ _ _ Hle Ha).
    pose proof (sortedBursts_bound _ _ _ _ Hle Hb).
    eexists. split; [reflexivity|]. apply Hq.
    unfold Qfloor, Qdiv, Qinv, inject_Z. cbn [Qnum Qden]. unfold Qmult.
    cbn [Qnum Qden Pos.mul].
    split; [lia|].
    apply Z.max_lub; [lia|].
    match goal with |- ?x / ?d ≤ _ => assert (H20 : d = 20) by reflexivity end.
    rewrite H20. Z.to_euclidean_division_equations. lia.
  - destruct (lookup_lt_is_Some_2 B (n / 2)) as [a Ha].
    { fold n. apply Nat.Div0.div_lt_upper_bound. lia. }
    rewrite Ha. pose proof (sortedBursts_bound _ _ _ _ Hle Ha).
    eexists. split; [reflexivity|]. apply Hq.
    unfold Qfloor, Qmult, inject_Z. cbn [Qnum Qden Z.mul Pos.mul].
    split; [lia|].
    apply Z.max_lub; [lia|].
    match goal with |- ?x / ?d ≤ _ => assert (H10 : d = 10) by reflexivity end.
    rewrite H10. Z.to_euclidean_division_equations. lia.
Qed.

Lemma adaptive_quantum_in_sweep_witness :
  adaptiveQ [] = NaN ∧
  ∃ k, adaptiveQ DEFAULT_PROCESSES = Num (inject_Z k) ∧ k ∈ qValues DEFAULT_PROCESSES.
Proof.
  destruct (adaptive_quantum_in_sweep DEFAULT_PROCESSES) as [Hnil Hk].
  split; [exact Hnil|]. apply Hk. discriminate.
Defined.

(** The adaptive quantum of [DEFAULT_PROCESSES]: the median of 3, 5, 6, 8 is
    5.5 and [floor (5.5 * 0.8)] is 4. *)
Example adaptive_quantum_default : adaptiveQ DEFAULT_PROCESSES = Num (inject_Z 4).
Proof. reflexivity. Qed.

(** ** The colours of the chart *)

Lemma pidHash_sum (l : list Ascii.ascii) (a : nat) :
  foldl (λ a c, (a + Ascii.nat_of_ascii c)%nat) a l
  = (a + foldr (λ c s, (Ascii.nat_of_ascii c + s)%nat) 0%nat l)%nat.
Proof.
  revert a. induction l as [|c l IH]; intros a; cbn [foldl foldr]; [lia|].
  rewrite IH. lia.
Qed.

Lemma char_sum_perm (l k : list Ascii.ascii) :
  l ≡ₚ k →
  foldr (λ c s, (Ascii.nat_of_ascii c + s)%nat) 0%nat l
  = foldr (λ c s, (Ascii.nat_of_ascii c + s)%nat) 0%nat k.
Proof. induction 1; cbn [foldr]; lia. Qed.

(** X12: [pidColor] never leaves the palette: for every [pid] it yields one
    of the eight colours.  The colour depends only on the characters of the
    [pid], not on their order, and for the ids 0 to 9 it is the colour at
    position [id mod 8]: the ids 1 to 8 get eight different colours, and two
    ids with the same digits in another order share one. *)
Theorem pid_colour_in_palette (pid : string) :
  (∃ c, pidColor pid = Some c ∧ c ∈ colorPalette) ∧
  (∀ other, String.list_ascii_of_string pid ≡ₚ String.list_ascii_of_string other →
            pidColor other = pidColor pid) ∧
  (∀ i, 0 ≤ i ≤ 9 → pidColor (pidOfId i) = colorPalette !! (Z.to_nat i mod 8)%nat).
Proof.
  split; [|split].
  - unfold pidColor.
    destruct (lookup_lt_is_Some_2 colorPalette
                (pidHash pid mod length colorPalette)) as [c Hc].
    { apply Nat.mod_upper_bound. cbn. lia. }
    exists c. split; [done|]. by eapply list_elem_of_lookup_2.
  - intros other Hperm. unfold pidColor, pidHash.
    by rewrite !pidHash_sum, (char_sum_perm _ _ Hperm).
  - intros i Hi.
    assert (Hcases : i = 0 ∨ i = 1 ∨ i = 2 ∨ i = 3 ∨ i = 4 ∨ i = 5 ∨ i = 6 ∨
                     i = 7 ∨ i = 8 ∨ i = 9) by lia.
    repeat (destruct Hcases as [->|Hcases]; [by vm_compute|]). subst i. by vm_compute.
Qed.

(** The processes 12 and 21 are drawn in the same colour. *)
Example pid_colour_anagram : pidColor (pidOfId 12) = pidColor (pidOfId 21).
Proof. by vm_compute. Qed.

(** ** A burst of 0 *)

Lemma rr_init_untouched sorted j :
  (j < length sorted)%nat → btOf sorted j = 0 → atOf sorted 0 < atOf sorted j →
  rr_untouched sorted j (rr_init sorted).
Proof.
  intros Hj Hb Hat. unfold rr_init. rewrite initial_scan_eq. cbn [fst snd app].
  split; cbn [time queue remaining completion firstResponse visited rr_gantt].
  - by rewrite mark_all_length, length_replicate.
  - by rewrite length_replicate.
  - intros i Hi. apply mark_all_get. right. split; [done|].
    apply elem_of_scanned in Hi. rewrite length_replicate. tauto.
  - destruct (getB _ j) eqn:E; [|done].
    apply mark_all_get in E as [E|[E _]].
    + by rewrite getB_replicate in E.
    + apply elem_of_scanned in E as (_ & E & _). apply Z.leb_le in E. lia.
  - by rewrite getZ_bt.
  - by apply getZ_replicate.
  - by apply getZ_replicate.
Qed.

Lemma rr_body_untouched sorted q j st i rest :
  rr_untouched sorted j st → queue st = i :: rest →
  rr_untouched sorted j (rr_body sorted q i rest st).
Proof.
  intros [Hlv Hlc Hqu Hvj Hrj Hcj Hfj] Eq.
  assert (Hvi : getB (visited st) i = true) by (apply Hqu; rewrite Eq; left).
  assert (Hij : i ≠ j) by (intros ->; congruence).
  unfold rr_body, rr_enqueue, rr_slice.
  cbn [time queue remaining completion firstResponse visited rr_gantt].
  rewrite arrivals_eq. cbn [fst snd].
  set (rem1 := <[i := _]> (remaining st)).
  set (t1 := time st + _).
  set (new := newly_arrived sorted t1 rem1 (visited st)).
  set (fr1 := if getZ (firstResponse st) i =? -1 then _ else _).
  assert (Hrem_j : getZ rem1 j = 0) by (unfold rem1; by rewrite getZ_insert_ne).
  assert (Hfr_j : getZ fr1 j = -1).
  { unfold fr1. destruct (_ =? _); [|done]. by rewrite getZ_insert_ne. }
  assert (Hnew_lt : ∀ k, k ∈ new → (k < length sorted)%nat).
  { intros k Hk. apply elem_of_newly_arrived in Hk. tauto. }
  assert (Hvis_j : getB (mark_all new (visited st)) j = false).
  { destruct (getB (mark_all new (visited st)) j) eqn:E; [|done].
    apply mark_all_get in E as [E|[E _]]; [congruence|].
    apply elem_of_newly_arrived in E. lia. }
  assert (Hvis_mono : ∀ k, getB (visited st) k = true →
                           getB (mark_all new (visited st)) k = true).
  { intros k Hk. apply mark_all_get. by left. }
  assert (Hvis_new : ∀ k, k ∈ new → getB (mark_all new (visited st)) k = true).
  { intros k Hk. apply mark_all_get. right. split; [done|].
    rewrite Hlv. by apply Hnew_lt. }
  assert (Hq1 : ∀ k, k ∈ rest ++ new → getB (mark_all new (visited st)) k = true).
  { intros k Hk. apply elem_of_app in Hk as [Hk|Hk]; [|by apply Hvis_new].
    apply Hvis_mono, Hqu. rewrite Eq. by right. }
  destruct (0 <? getZ rem1 i); unfold rr_gap; cbn [queue].
  - destruct ((rest ++ new) ++ [i]) as [|k0 qu] eqn:Equ.
    { by apply app_eq_nil in Equ as [_ ?]. }
    rewrite <- Equ.
    split; cbn [time queue remaining completion firstResponse visited rr_gantt].
    + by rewrite mark_all_length.
    + done.
    + intros k Hk. apply elem_of_app in Hk as [Hk|Hk]; [by apply Hq1|].
      apply list_elem_of_singleton in Hk as ->. by apply Hvis_mono.
    + done.
    + done.
    + done.
    + done.
  - destruct (rest ++ new) as [|k0 qu] eqn:Equ.
    + unfold gap_fill.
      cbn [time queue remaining completion firstResponse visited rr_gantt].
      destruct (find _ _) as [k|] eqn:Ef.
      * apply find_some in Ef as [Hk Hg]. apply in_seq in Hk.
        apply andb_true_iff in Hg as [Hg _]. apply Z.ltb_lt in Hg.
        assert (Hkj : k ≠ j) by (intros ->; lia).
        split; cbn [time queue remaining completion firstResponse visited rr_gantt].
        -- by rewrite length_insert, mark_all_length.
        -- by rewrite length_insert.
        -- intros k' Hk'. apply list_elem_of_singleton in Hk' as ->.
           apply getB_insert_eq. rewrite mark_all_length. lia.
        -- by rewrite getB_insert_ne.
        -- done.
        -- by rewrite getZ_insert_ne.
        -- done.
      * split; cbn [time queue remaining completion firstResponse visited rr_gantt].
        -- by rewrite mark_all_length.
        -- by rewrite length_insert.
        -- intros k Hk. by apply elem_of_nil in Hk.
        -- done.
        -- done.
        -- by rewrite getZ_insert_ne.
        -- done.
    + split; cbn [time queue remaining completion firstResponse visited rr_gantt].
      * by rewrite mark_all_length.
      * by rewrite length_insert.
      * exact Hq1.
      * done.
      * done.
      * by rewrite getZ_insert_ne.
      * done.
Qed.

Lemma rr_reach_untouched sorted q j st :
  (j < length sorted)%nat → btOf sorted j = 0 → atOf sorted 0 < atOf sorted j →
  rr_reach sorted q st → rr_untouched sorted j st.
Proof.
  intros Hj Hb Hat. induction 1 as [|st i rest _ IH Eq].
  - by apply rr_init_untouched.
  - by apply rr_body_untouched.
Qed.

Lemma atOf_first_least procs p0 :
  p0 ∈ procs → atOf (sort_by at_ procs) 0 ≤ at_ p0.
Proof.
  intros Hp0. rewrite <- (sort_by_perm at_ procs) in Hp0.
  apply list_elem_of_lookup in Hp0 as [k Hk].
  pose proof (lookup_lt_Some _ _ _ Hk) as Hlt.
  assert (Hat : atOf (sort_by at_ procs) k = at_ p0) by (unfold atOf; by rewrite Hk).
  rewrite <- Hat. destruct k; [done|]. apply atOf_sorted; [lia|done].
Qed.

Lemma zero_burst_row (procs : list Proc) (q : Z) (fuel : nat)
    (r : RRResult) (p p0 : Proc) :
  roundRobin fuel procs q = Returns r →
  p ∈ procs → bt p = 0 → p0 ∈ procs → at_ p0 < at_ p →
  mkRow p 0 (0 - at_ p) (0 - at_ p - bt p) (-1) ∈ resultData r.
Proof.
  intros Hr Hp Hb Hp0 Hlate. apply roundRobin_returns in Hr as (st & Hst & ->).
  unfold rr_run in Hst. apply rr_loop_reach in Hst as [Hreach _]; [|constructor].
  rewrite <- (sort_by_perm at_ procs) in Hp.
  apply list_elem_of_lookup in Hp as [j Hj].
  pose proof (lookup_lt_Some _ _ _ Hj) as Hlt.
  assert (Hat : atOf (sort_by at_ procs) j = at_ p) by (unfold atOf; by rewrite Hj).
  assert (Hbj : btOf (sort_by at_ procs) j = 0) by (unfold btOf; by rewrite Hj).
  pose proof (atOf_first_least procs p0 Hp0) as Hfirst.
  destruct (rr_reach_untouched _ q j st Hlt Hbj ltac:(lia) Hreach)
    as [_ Hlc _ _ _ Hc Hf].
  apply (rr_rows _ _ _ Hlc). exists j, p. split; [done|]. by rewrite Hc, Hf.
Qed.

(** X14: a process with a burst of 0 that is not among the first to arrive
    (some process arrives strictly earlier) is never dispatched by
    [roundRobin], whatever the quantum and the other bursts: in every result
    its row has completion time 0, response time -1, and turnaround and
    waiting time [-at]. *)
Theorem zero_burst_never_dispatched (procs : list Proc) (q : Z) (fuel : nat)
    (r : RRResult) (p p0 : Proc) :
  roundRobin fuel procs q = Returns r →
  p ∈ procs → bt p = 0 → p0 ∈ procs → at_ p0 < at_ p →
  mkRow p 0 (0 - at_ p) (0 - at_ p - bt p) (-1) ∈ resultData r.
Proof. apply zero_burst_row. Qed.

Lemma zero_burst_never_dispatched_witness :
  ∃ r, roundRobin 2 late_zero_burst 2 = Returns r ∧
       mkRow (mkProc 2 2 0) 0 (0 - 2) (0 - 2 - 0) (-1) ∈ resultData r.
Proof.
  destruct (roundRobin 2 late_zero_burst 2) as [r| |] eqn:E;
    [|by vm_compute in E..].
  exists r. split; [reflexivity|].
  apply (zero_burst_never_dispatched late_zero_burst 2 2 r (mkProc 2 2 0) (mkProc 1 0 3)).
  - exact E.
  - right. left.
  - reflexivity.
  - left.
  - cbn. lia.
Defined.

(** ** The table of the sweep *)

Lemma insert_cmp_perm {A} (cmp : A → A → Z) x l : insert_cmp cmp x l ≡ₚ x :: l.
Proof.
  induction l as [|y l IH]; cbn [insert_cmp]; [done|].
  destruct (cmp x y <=? 0); [done|]. rewrite IH. apply Permutation_swap.
Qed.

Lemma sort_cmp_perm {A} (cmp : A → A → Z) (l : list A) : sort_cmp cmp l ≡ₚ l.
Proof.
  induction l as [|x l IH]; [done|]. cbn [sort_cmp foldr].
  fold (sort_cmp cmp l). by rewrite insert_cmp_perm, IH.
Qed.

Lemma compareRows_q_lt a b :
  pt_q a < pt_q b →
  compareRows KeyQ true a b = -1 ∧ compareRows KeyQ false a b = 1.
Proof.
  intros Hlt. unfold compareRows, keyOf. cbn [jseq jslt].
  destruct (Qeq_bool (inject_Z (pt_q a)) (inject_Z (pt_q b))) eqn:Eeq.
  { apply Qeq_bool_eq in Eeq. apply (proj1 (inject_Z_injective _ _)) in Eeq. lia. }
  destruct (Qle_bool (inject_Z (pt_q a)) (inject_Z (pt_q b))) eqn:Ele; [done|].
  exfalso. apply not_true_iff_false in Ele. apply Ele, Qle_bool_iff.
  rewrite <- Zle_Qle. lia.
Qed.

Lemma insert_cmp_front {A} (cmp : A → A → Z) x (l : list A) :
  Forall (λ y, cmp x y ≤ 0) l → insert_cmp cmp x l = x :: l.
Proof.
  destruct 1 as [|y l Hy _]; cbn [insert_cmp]; [done|].
  by destruct (Z.leb_spec (cmp x y) 0); [|lia].
Qed.

Lemma insert_cmp_back {A} (cmp : A → A → Z) x (l : list A) :
  Forall (λ y, 0 < cmp x y) l → insert_cmp cmp x l = l ++ [x].
Proof.
  induction 1 as [|y l Hy _ IH]; cbn [insert_cmp]; [done|].
  destruct (Z.leb_spec (cmp x y) 0); [lia|]. by rewrite IH.
Qed.

Lemma sort_ascending_q (pts : list SweepPoint) :
  StronglySorted Z.lt (pt_q <$> pts) →
  sort_cmp (compareRows KeyQ true) pts = pts ∧
  sort_cmp (compareRows KeyQ false) pts = reverse pts.
Proof.
  induction pts as [|x pts IH]; intros Hs; [done|].
  cbn [fmap list_fmap] in Hs. apply StronglySorted_cons in Hs as [Hx Hs].
  destruct (IH Hs) as [IHa IHd]. rewrite Forall_fmap in Hx.
  cbn [sort_cmp foldr]. fold (sort_cmp (compareRows KeyQ true) pts).
  fold (sort_cmp (compareRows KeyQ false) pts). rewrite IHa, IHd. split.
  - apply insert_cmp_front. eapply Forall_impl; [exact Hx|]. cbn beta.
    intros y Hy. destruct (compareRows_q_lt x y Hy) as [-> _]. lia.
  - rewrite reverse_cons. apply insert_cmp_back. apply Forall_reverse.
    eapply Forall_impl; [exact Hx|]. cbn beta.
    intros y Hy. destruct (compareRows_q_lt x y Hy) as [_ ->]. lia.
Qed.

Lemma seqZ_ascending m n : StronglySorted Z.lt (seqZ m n).
Proof.
  unfold seqZ. apply (StronglySorted_fmap_in lt); [|apply seq_ascending].
  intros x y _ _ Hxy. lia.
Qed.

(** X15: the table of a sweep.  With no range, sorted by quantum, it lists
    the points of the sweep as they are when the direction is ascending and
    in reverse when it is descending.  With any range, key and direction it
    lists exactly the points whose quantum is in the range, each once. *)
Theorem sweep_table (processes : list Proc) (fuel : nat) (pts : list SweepPoint) :
  points fuel processes = Returns pts →
  filtered None KeyQ true pts = pts ∧
  filtered None KeyQ false pts = reverse pts ∧
  (∀ k asc, filtered None k asc pts ≡ₚ pts) ∧
  (∀ lo hi k asc,
     filtered (Some (lo, hi)) k asc pts
       ≡ₚ filter (λ p, lo ≤ pt_q p ∧ pt_q p ≤ hi) pts).
Proof.
  intros Hpts. destruct (sweep_lookup _ _ _ _ Hpts) as [Hqs _].
  assert (Hs : StronglySorted Z.lt (pt_q <$> pts)).
  { rewrite Hqs. change (qValues processes) with (seqZ 1 (maxQ processes - 1)).
    apply seqZ_ascending. }
  destruct (sort_ascending_q pts Hs) as [Ha Hd].
  split; [done|]. split; [done|]. split.
  - intros k asc. apply sort_cmp_perm.
  - intros lo hi k asc. apply sort_cmp_perm.
Qed.

Lemma sweep_table_witness :
  ∃ pts, points 22 DEFAULT_PROCESSES = Returns pts ∧
    filtered None KeyQ true pts = pts ∧
    filtered None KeyQ false pts = reverse pts ∧
    (∀ k asc, filtered None k asc pts ≡ₚ pts) ∧
    (∀ lo hi k asc,
       filtered (Some (lo, hi)) k asc pts
         ≡ₚ filter (λ p, lo ≤ pt_q p ∧ pt_q p ≤ hi) pts).
Proof.
  destruct (points 22 DEFAULT_PROCESSES) as [pts| |] eqn:E;
    [|by vm_compute in E..].
  exists pts. split; [reflexivity|].
  apply (sweep_table DEFAULT_PROCESSES 22 pts). exact E.
Defined.

(** ** Both schedulers finish at the same time *)

Lemma sumZ_cons x l : sumZ (x :: l) = x + sumZ l.
Proof. done. Qed.




Section Busy.

Variable srt : list Proc.
Variable q : Z.
Hypothesis Hq : 1 ≤ q.
Hypothesis Hsorted : ∀ i j, (i < j)%nat → (j < length srt)%nat →
  atOf srt i ≤ atOf srt j.
Hypothesis Hbt : Forall (λ p, 0 < bt p) srt.
Hypothesis Hat0 : 0 ≤ atOf srt 0.






End Busy.


(** ** Bursts of 0: the loop still ends *)

Lemma filter_none {A} (P : A → Prop) `{!∀ x, Decision (P x)} (l : list A) :
  (∀ x, x ∈ l → ¬ P x) → filter P l = [].
Proof.
  induction l as [|a l IH]; intros Hno; [done|].
  rewrite filter_cons, decide_False by (apply Hno; left).
  apply IH. intros x Hx. apply Hno. by right.
Qed.

Section Weak.

Variable sorted : list Proc.
Variable q : Z.
Hypothesis Hq : 1 ≤ q.
Hypothesis Hbt : Forall (λ p, 0 ≤ bt p) sorted.

Lemma btOf_nonneg j : 0 ≤ btOf sorted j.
Proof.
  unfold btOf. destruct (sorted !! j) as [p|] eqn:Hp; [|done].
  cbn. rewrite Forall_forall in Hbt. apply Hbt. by eapply list_elem_of_lookup_2.
Qed.

Lemma rr_init_weak : rr_weak sorted (rr_init sorted).
Proof.
  unfold rr_init. rewrite initial_scan_eq. cbn [fst snd app].
  set (new := scanned _ _ _).
  split; cbn [remaining visited queue rr_gantt time].
  - by rewrite length_fmap.
  - by rewrite mark_all_length, length_replicate.
  - apply NoDup_scanned.
  - intros j Hj. pose proof Hj as Hj'. unfold new in Hj'.
    apply elem_of_scanned in Hj' as (Hlt & _ & _). split; [done|].
    apply mark_all_get. right. split; [done|]. by rewrite length_replicate.
  - intros j. rewrite getZ_bt. apply btOf_nonneg.
Qed.

Lemma rr_init_measure :
  rr_measure (rr_init sorted) ≤ sumZ (bt <$> sorted) + Z.of_nat (length sorted).
Proof.
  unfold rr_measure, rr_init. rewrite initial_scan_eq. cbn [fst snd app remaining queue].
  pose proof (length_filter (λ j, getZ (bt <$> sorted) j = 0)
                (scanned (λ j, atOf sorted j <=? atOf sorted 0)
                   (replicate (length sorted) false) (length sorted))) as H1.
  pose proof (length_filter
                (λ j, (atOf sorted j <=? atOf sorted 0)
                      && negb (getB (replicate (length sorted) false) j) = true)
                (seq 0 (length sorted))) as H2.
  rewrite length_seq in H2. unfold scanned in *. lia.
Qed.

Lemma rr_gap_weak st :
  rr_weak sorted st →
  rr_weak sorted (rr_gap sorted st) ∧ rr_measure (rr_gap sorted st) ≤ rr_measure st.
Proof.
  intros [Hlr Hlv Hnd Hqu Hnn].
  unfold rr_gap. destruct (queue st) as [|j0 qu] eqn:Eq.
  2:{ split; [split; rewrite ?Eq; done|lia]. }
  unfold gap_fill.
  destruct (find _ _) as [k|] eqn:Ef.
  - apply find_some in Ef as [Hk Hg].
    apply in_seq in Hk. apply andb_true_iff in Hg as [Hrem Hnv].
    apply Z.ltb_lt in Hrem.
    split; [split|]; cbn [remaining visited queue rr_gantt time]; try done.
    + by rewrite length_insert.
    + apply NoDup_singleton.
    + intros j Hj. apply list_elem_of_singleton in Hj as ->.
      split; [lia|]. apply getB_insert_eq. lia.
    + unfold rr_measure. cbn [remaining queue]. rewrite Eq.
      rewrite filter_none; [cbn; lia|].
      intros x Hx. apply list_elem_of_singleton in Hx as ->. lia.
  - split; [split; cbn [remaining visited queue]; rewrite ?Eq; done|].
    unfold rr_measure. cbn [remaining queue]. rewrite Eq. lia.
Qed.

Lemma rr_enqueue_slice_weak st i rest :
  rr_weak sorted st → queue st = i :: rest →
  rr_weak sorted (rr_enqueue sorted i (rr_slice sorted q i rest st)) ∧
  rr_measure (rr_enqueue sorted i (rr_slice sorted q i rest st)) ≤ rr_measure st - 1.
Proof.
  intros [Hlr Hlv Hnd Hqu Hnn] Eq.
  assert (Hi : i ∈ queue st) by (rewrite Eq; left).
  destruct (Hqu i Hi) as (Hin & Hvi_i).
  unfold rr_measure at 2. rewrite Eq.
  rewrite Eq in Hnd. apply NoDup_cons in Hnd as [Hi_rest Hnd_rest].
  assert (Hrest : ∀ j, j ∈ rest → j ∈ queue st) by (intros; rewrite Eq; by right).
  unfold rr_enqueue, rr_slice.
  cbn [time queue remaining completion firstResponse visited rr_gantt].
  rewrite arrivals_eq. cbn [fst snd].
  pose proof (Hnn i) as Hr0.
  set (r := getZ (remaining st) i) in *.
  set (run := Z.min r q).
  assert (Hrun : 0 ≤ run ≤ r ∧ (0 < r → 1 ≤ run)) by (unfold run; lia).
  set (rem1 := <[i := r - run]> (remaining st)).
  assert (Hrem_i : getZ rem1 i = r - run)
    by (apply getZ_insert_eq; lia).
  assert (Hrem_ne : ∀ j, j ≠ i → getZ rem1 j = getZ (remaining st) j)
    by (intros; by apply getZ_insert_ne).
  set (t1 := time st + run).
  set (new := newly_arrived sorted t1 rem1 (visited st)).
  assert (Hnew : ∀ j, j ∈ new →
    (j < length sorted)%nat ∧ 0 < getZ rem1 j ∧ getB (visited st) j = false).
  { intros j Hj. apply elem_of_newly_arrived in Hj. tauto. }
  assert (Hnew_i : ∀ j, j ∈ new → j ≠ i).
  { intros j Hj ->. apply Hnew in Hj. destruct Hj as (_ & _ & Hj). congruence. }
  assert (Hvis1 : ∀ j, getB (mark_all new (visited st)) j = true ↔
                       getB (visited st) j = true ∨ j ∈ new).
  { intros j. rewrite mark_all_get. split; [tauto|].
    intros [?|Hj]; [by left|]. right. split; [done|].
    apply Hnew in Hj. lia. }
  assert (Hnd1 : NoDup (rest ++ new)).
  { apply NoDup_app. split; [done|]. split; [|apply NoDup_scanned].
    intros j Hj Hj'. apply Hnew in Hj'. destruct (Hqu j (Hrest j Hj)) as (_ & Hv).
    destruct Hj' as (_ & _ & Hj'). congruence. }
  assert (Hq1 : ∀ j, j ∈ rest ++ new →
    (j < length sorted)%nat ∧ getB (mark_all new (visited st)) j = true).
  { intros j Hj. apply elem_of_app in Hj as [Hj|Hj].
    - destruct (Hqu j (Hrest j Hj)) as (? & ?).
      split; [done|]. apply Hvis1; by left.
    - split; [by apply Hnew|]. apply Hvis1; by right. }
  assert (Hnn1 : ∀ j, 0 ≤ getZ rem1 j).
  { intros j. destruct (decide (j = i)) as [->|Hne]; [lia|].
    rewrite Hrem_ne by done. apply Hnn. }
  assert (Hsum : sumZ rem1 = sumZ (remaining st) - run).
  { unfold rem1. rewrite sumZ_insert by lia. fold r. lia. }
  assert (Hcount : filter (λ j, getZ rem1 j = 0) (rest ++ new)
                   = filter (λ j, getZ (remaining st) j = 0) rest).
  { rewrite filter_app, (filter_none _ new), app_nil_r.
    - apply filter_ext_elem. intros j Hj. rewrite Hrem_ne; [done|]. by intros ->.
    - intros j Hj. apply Hnew in Hj. lia. }
  fold t1. fold rem1. rewrite Hrem_i.
  rewrite filter_cons. fold r.
  destruct (0 <? r - run) eqn:Hgo;
    [apply Z.ltb_lt in Hgo | apply Z.ltb_ge in Hgo].
  - split; [split|]; cbn [time queue remaining completion firstResponse visited rr_gantt].
    + unfold rem1. by rewrite length_insert.
    + by rewrite mark_all_length.
    + apply NoDup_app. split; [done|]. split; [|apply NoDup_singleton].
      intros j Hj Hj'. apply list_elem_of_singleton in Hj' as ->.
      apply elem_of_app in Hj as [Hj|Hj]; [done|]. by apply Hnew_i in Hj.
    + intros j Hj. apply elem_of_app in Hj as [Hj|Hj]; [by apply Hq1|].
      apply list_elem_of_singleton in Hj as ->.
      split; [done|]. apply Hvis1; by left.
    + done.
    + unfold rr_measure. cbn [remaining queue].
      rewrite filter_app, Hcount, (filter_none _ [i]), app_nil_r, Hsum.
      2:{ intros x Hx. apply list_elem_of_singleton in Hx as ->. lia. }
      destruct (decide (r = 0)); [lia|]. lia.
  - split; [split|]; cbn [time queue remaining completion firstResponse visited rr_gantt].
    + unfold rem1. by rewrite length_insert.
    + by rewrite mark_all_length.
    + done.
    + done.
    + done.
    + unfold rr_measure. cbn [remaining queue]. rewrite Hcount, Hsum.
      destruct (decide (r = 0)) as [E0|E0]; cbn [length]; lia.
Qed.

Lemma rr_body_weak st i rest :
  rr_weak sorted st → queue st = i :: rest →
  rr_weak sorted (rr_body sorted q i rest st) ∧
  rr_measure (rr_body sorted q i rest st) ≤ rr_measure st - 1.
Proof.
  intros Hw Eq. unfold rr_body.
  destruct (rr_enqueue_slice_weak st i rest Hw Eq) as [Hw1 Hm1].
  destruct (rr_gap_weak _ Hw1) as [Hw2 Hm2]. split; [done|lia].
Qed.

Lemma rr_measure_nonneg st : rr_weak sorted st → 0 ≤ rr_measure st.
Proof.
  intros Hw. unfold rr_measure.
  assert (0 ≤ sumZ (remaining st)); [|lia].
  apply sumZ_nonneg, Forall_lookup. intros j x Hx.
  pose proof (wk_nonneg _ _ Hw j) as Hj. unfold getZ in Hj. by rewrite Hx in Hj.
Qed.

Lemma rr_loop_terminates_weak fuel st :
  rr_weak sorted st → rr_measure st ≤ Z.of_nat fuel →
  ∃ st', rr_loop fuel sorted q st = Some st'.
Proof.
  revert st. induction fuel as [|fuel IH]; intros st Hw Hm.
  - destruct (queue st) as [|i rest] eqn:Eq; simpl; rewrite Eq; [by eexists|].
    exfalso. destruct (rr_body_weak st i rest Hw Eq) as [Hw' Hm'].
    pose proof (rr_measure_nonneg _ Hw'). lia.
  - destruct (queue st) as [|i rest] eqn:Eq; simpl; rewrite Eq; [by eexists|].
    destruct (rr_body_weak st i rest Hw Eq) as [Hw' Hm'].
    apply IH; [done|lia].
Qed.

End Weak.

Lemma roundRobin_returns_nonneg (procs : list Proc) (q : Z) (fuel : nat) :
  Forall (λ p, 0 ≤ bt p) procs → 1 ≤ q →
  (Z.to_nat (sumZ (bt <$> procs)) + length procs ≤ fuel)%nat →
  ∃ r, roundRobin fuel procs q = Returns r.
Proof.
  intros Hbt Hq Hfuel. unfold roundRobin, rr_on_sorted.
  set (srt := sort_by at_ procs).
  assert (Hs : Forall (λ p, 0 ≤ bt p) srt) by by apply sort_by_Forall.
  destruct (rr_loop_terminates_weak srt q Hq fuel (rr_init srt)) as [st Hst].
  - by apply rr_init_weak.
  - pose proof (rr_init_measure srt) as Hm.
    unfold srt in Hm at 2 3. rewrite sumZ_bt_sort, sort_by_length in Hm.
    assert (0 ≤ sumZ (bt <$> procs)).
    { apply sumZ_nonneg, Forall_fmap. eapply Forall_impl; [exact Hbt|]. done. }
    lia.
  - rewrite Hst. by eexists.
Qed.

(** X17: [roundRobin] also returns when some bursts are 0.  With no negative
    burst and a quantum of at least 1, the loop ends within as many
    iterations as the total of the bursts plus the number of processes. *)
Theorem rr_returns_with_zero_bursts (procs : list Proc) (q : Z) (fuel : nat) :
  Forall (λ p, 0 ≤ bt p) procs → 1 ≤ q →
  (Z.to_nat (sumZ (bt <$> procs)) + length procs ≤ fuel)%nat →
  ∃ r, roundRobin fuel procs q = Returns r.
Proof. apply roundRobin_returns_nonneg. Qed.

Lemma rr_returns_with_zero_bursts_witness :
  ∃ r, roundRobin 5 late_zero_burst 2 = Returns r.
Proof.
  apply (rr_returns_with_zero_bursts late_zero_burst 2 5).
  - repeat constructor; cbn; lia.
  - lia.
  - vm_compute. lia.
Defined.

(** ** A burst field that holds no number *)

Lemma update_burst_sum (i : Z) (ps : list Proc) :
  Forall (λ p, 0 ≤ bt p) ps →
  Forall (λ p, 0 ≤ bt p) (UI.update i UI.FieldBt None ps) ∧
  0 ≤ sumZ (bt <$> UI.update i UI.FieldBt None ps) ≤ sumZ (bt <$> ps).
Proof.
  induction 1 as [|p ps Hp Hps [IH1 IH2]].
  - split; [constructor|]. cbn. lia.
  - assert (E : UI.update i UI.FieldBt None (p :: ps) =
                (if decide (id p = i) then mkProc (id p) (at_ p) 0 else p)
                  :: UI.update i UI.FieldBt None ps) by done.
    rewrite E, !fmap_cons, !sumZ_cons.
    destruct (decide (id p = i)); cbn [bt].
    + split; [constructor; [cbn; lia|done]|lia].
    + split; [by constructor|lia].
Qed.

(** X18: a burst field that holds no number, then Run.  [update] writes a
    burst of 0 for it; [run] still returns, and when some other process
    arrives strictly earlier, the row of the edited process shows completion
    time 0, turnaround and waiting time [-at], and response time -1. *)
Theorem nan_burst_then_run (ps : list Proc) (i : Z) (p p0 : Proc) (quantum : Z)
    (fuel : nat) :
  Forall (λ p, 0 ≤ bt p) ps →
  p ∈ ps → id p = i → p0 ∈ ps → at_ p0 < at_ p →
  (Z.to_nat (sumZ (bt <$> ps)) + length ps ≤ fuel)%nat →
  ∃ r, UI.run fuel (UI.update i UI.FieldBt None ps) quantum = Returns r ∧
       mkRow (mkProc i (at_ p) 0) 0 (- at_ p) (- at_ p) (-1) ∈ resultData r.
Proof.
  intros Hbt Hp Hid Hp0 Hlate Hfuel.
  destruct (update_burst_sum i ps Hbt) as [Hbt' Hsum].
  assert (Hlen : length (UI.update i UI.FieldBt None ps) = length ps)
    by (unfold UI.update; by rewrite length_fmap).
  unfold UI.run.
  destruct (roundRobin_returns_nonneg (UI.update i UI.FieldBt None ps)
              (Z.max 1 quantum) fuel Hbt' ltac:(lia) ltac:(lia)) as [r Hr].
  exists r. split; [done|].
  assert (Hp' : mkProc i (at_ p) 0 ∈ UI.update i UI.FieldBt None ps).
  { unfold UI.update. apply list_elem_of_fmap. exists p. split; [|done].
    rewrite decide_True by done. cbn. by rewrite Hid. }
  assert (Hp0' : ∃ p1, p1 ∈ UI.update i UI.FieldBt None ps ∧ at_ p1 = at_ p0).
  { destruct (decide (id p0 = i)) as [E|E].
    - exists (mkProc (id p0) (at_ p0) 0). split; [|done].
      unfold UI.update. apply list_elem_of_fmap. exists p0. split; [|done].
      by rewrite decide_True.
    - exists p0. split; [|done].
      unfold UI.update. apply list_elem_of_fmap. exists p0. split; [|done].
      by rewrite decide_False. }
  destruct Hp0' as (p1 & Hp1 & Hat1).
  pose proof (zero_burst_row _ _ _ r (mkProc i (at_ p) 0) p1 Hr Hp' eq_refl Hp1
                ltac:(cbn; lia)) as Hrow.
  cbn [at_ bt] in Hrow.
  replace (0 - at_ p - 0) with (- at_ p) in Hrow by lia.
  by replace (0 - at_ p) with (- at_ p) in Hrow by lia.
Qed.

Lemma nan_burst_then_run_witness :
  ∃ r, UI.run 26 (UI.update 2 UI.FieldBt None DEFAULT_PROCESSES) 4 = Returns r ∧
       mkRow (mkProc 2 1 0) 0 (- 1) (- 1) (-1) ∈ resultData r.
Proof.
  apply (nan_burst_then_run DEFAULT_PROCESSES 2 (mkProc 2 1 3) (mkProc 1 0 5) 4 26).
  - repeat constructor; cbn; lia.
  - right. left.
  - reflexivity.
  - left.
  - cbn. lia.
  - vm_compute. lia.
Defined.


(** ** Where binary64 is exact *)

Lemma rnd64_exact z : - 2 ^ 53 ≤ z ≤ 2 ^ 53 → rnd64 z = z.
Proof.
  intros Hz. unfold rnd64.
  destruct (Z.ltb_spec (Z.abs z) (2 ^ 53)) as [|Hge]; [done|].
  assert (z = 2 ^ 53 ∨ z = - 2 ^ 53) as [->| ->] by lia; by vm_compute.
Qed.

Lemma add64_exact x y : - 2 ^ 53 ≤ x + y ≤ 2 ^ 53 → add64 x y = x + y.
Proof. apply rnd64_exact. Qed.

Lemma sub64_exact x y : - 2 ^ 53 ≤ x - y ≤ 2 ^ 53 → sub64 x y = x - y.
Proof. apply rnd64_exact. Qed.

Lemma foldl_add64_exact (l : list Z) (a M : Z) :
  Forall (λ x, - M ≤ x ≤ M) l → 0 ≤ M →
  Z.abs a + Z.of_nat (length l) * M ≤ 2 ^ 53 →
  foldl add64 a l = a + sumZ l.
Proof.
  revert a. induction l as [|x l IH]; intros a Hl HM Ha.
  - cbn. lia.
  - apply Forall_cons in Hl as [Hx Hl]. cbn [foldl length] in *.
    rewrite sumZ_cons, add64_exact by nia.
    rewrite IH; [lia|done|done|nia].
Qed.

Lemma sum64_exact (l : list Z) (M : Z) :
  Forall (λ x, - M ≤ x ≤ M) l → 0 ≤ M →
  Z.of_nat (length l) * M ≤ 2 ^ 53 → sum64 l = sumZ l.
Proof.
  intros Hl HM Hn. unfold sum64. rewrite (foldl_add64_exact l 0 M); [lia|done|done|lia].
Qed.

Lemma foldl_add64_nonneg (l : list Z) (a : Z) :
  Forall (λ x, 0 ≤ x) l → 0 ≤ a → a + sumZ l ≤ 2 ^ 53 →
  foldl add64 a l = a + sumZ l.
Proof.
  revert a. induction l as [|x l IH]; intros a Hl Ha Hs.
  - cbn. lia.
  - apply Forall_cons in Hl as [Hx Hl]. cbn [foldl]. rewrite sumZ_cons in *.
    pose proof (sumZ_nonneg l Hl).
    rewrite add64_exact by lia. rewrite IH; [lia|done|lia|lia].
Qed.

Lemma sum64_nonneg (l : list Z) :
  Forall (λ x, 0 ≤ x) l → sumZ l ≤ 2 ^ 53 → sum64 l = sumZ l.
Proof.
  intros Hl Hs. unfold sum64. rewrite foldl_add64_nonneg; [lia|done|lia|lia].
Qed.

Lemma getZ_le_sumZ (l : list Z) j : (∀ k, 0 ≤ getZ l k) → getZ l j ≤ sumZ l.
Proof.
  revert j. induction l as [|x l IH]; intros j Hl; [unfold getZ; by rewrite lookup_nil|].
  rewrite sumZ_cons.
  assert (Hl' : ∀ k, 0 ≤ getZ l k) by (intros k; apply (Hl (S k))).
  assert (Hx : 0 ≤ x) by apply (Hl 0%nat).
  assert (Hs : 0 ≤ sumZ l).
  { apply sumZ_nonneg, Forall_lookup. intros k y Hy.
    specialize (Hl' k). unfold getZ in Hl'. by rewrite Hy in Hl'. }
  destruct j as [|j].
  - change (getZ (x :: l) 0) with x. lia.
  - change (getZ (x :: l) (S j)) with (getZ l j). specialize (IH j Hl'). lia.
Qed.

Lemma times_below_sorted B procs :
  times_below B procs → times_below B (sort_by at_ procs).
Proof.
  unfold times_below. intros H. rewrite sumZ_bt_sort. by apply sort_by_Forall.
Qed.

Lemma times_below_cell B srt j p :
  times_below B srt → srt !! j = Some p →
  0 ≤ at_ p ∧ 0 ≤ bt p ∧ at_ p + sumZ (bt <$> srt) ≤ B.
Proof.
  intros H Hj. unfold times_below in H. rewrite Forall_forall in H.
  apply H. by eapply list_elem_of_lookup_2.
Qed.

Lemma times_below_nonneg B srt : times_below B srt → Forall (λ p, 0 ≤ bt p) srt.
Proof. intros H. eapply Forall_impl; [exact H|]. cbn. tauto. Qed.

Section Exact.

Variable srt : list Proc.
Variable q : Z.
Variable B : Z.
Hypothesis Hq : 1 ≤ q.
Hypothesis Hts : times_below B srt.
Hypothesis HB : 0 ≤ B ≤ 2 ^ 53.

Lemma atOf_bounds j : (j < length srt)%nat →
  0 ≤ atOf srt j ∧ atOf srt j + sumZ (bt <$> srt) ≤ B.
Proof.
  intros Hj. destruct (lookup_lt_is_Some_2 srt j Hj) as [p Hp].
  destruct (times_below_cell _ _ _ _ Hts Hp) as (? & ? & ?).
  unfold atOf. rewrite Hp. cbn. lia.
Qed.

Lemma total_burst_nonneg : 0 ≤ sumZ (bt <$> srt).
Proof.
  apply sumZ_nonneg, Forall_fmap. eapply Forall_impl; [exact Hts|]. cbn. tauto.
Qed.

Lemma rr_init_bounded : rr_bounded B srt (rr_init srt).
Proof.
  pose proof total_burst_nonneg as Hnn.
  split; cbn [rr_init time remaining completion].
  - unfold atOf. destruct (srt !! 0%nat) as [p|] eqn:E; [|done]. cbn.
    by destruct (times_below_cell _ _ _ _ Hts E).
  - lia.
  - destruct (decide (0 < length srt)%nat) as [Hn|Hn].
    + by destruct (atOf_bounds 0 Hn).
    + rewrite (nil_length_inv srt) by lia. cbn. lia.
  - by rewrite length_replicate.
  - intros j Hj. rewrite getZ_replicate by done. lia.
Qed.

Lemma rr_gap_bounded st : rr_bounded B srt st → rr_bounded B srt (rr_gap srt st).
Proof.
  intros [Ht Hw Hc Hlc Hcomp]. unfold rr_gap.
  destruct (queue st) as [|j0 qu]; [|done]. unfold gap_fill.
  destruct (find _ _) as [k|] eqn:Ef;
    split; cbn [time remaining completion]; try done.
  - lia.
  - apply find_some in Ef as [Hk _]. apply in_seq in Hk.
    destruct (atOf_bounds k ltac:(lia)). lia.
Qed.

Lemma rr_slice64_exact st i rest :
  rr_weak srt st → rr_bounded B srt st → queue st = i :: rest →
  rr_slice64 srt q i rest st = rr_slice srt q i rest st.
Proof.
  intros [Hlr Hlv Hnd Hqu Hnn] [Ht Hw Hc Hlc Hcomp] Eq.
  destruct (Hqu i ltac:(rewrite Eq; left)) as [Hi _].
  pose proof (Hnn i) as Hr0. pose proof (getZ_le_sumZ _ i Hnn) as Hr1.
  destruct (atOf_bounds i Hi) as [Ha0 Ha1]. pose proof total_burst_nonneg as Hb.
  unfold rr_slice64, rr_slice.
  rewrite add64_exact, !sub64_exact by lia. done.
Qed.

Lemma rr_enqueue_slice_bounded st i rest :
  rr_weak srt st → rr_bounded B srt st → queue st = i :: rest →
  rr_bounded B srt (rr_enqueue srt i (rr_slice srt q i rest st)).
Proof.
  intros [Hlr Hlv Hnd Hqu Hnn] [Ht Hw Hc Hlc Hcomp] Eq.
  destruct (Hqu i ltac:(rewrite Eq; left)) as [Hi _].
  pose proof (Hnn i) as Hr0. pose proof (getZ_le_sumZ _ i Hnn) as Hr1.
  unfold rr_enqueue, rr_slice.
  cbn [time queue remaining completion firstResponse visited rr_gantt].
  set (r := getZ (remaining st) i) in *.
  set (run := Z.min r q).
  assert (Hrun : 0 ≤ run ≤ r) by (unfold run; lia).
  set (rem1 := <[i := r - run]> (remaining st)).
  assert (Hsum : sumZ rem1 = sumZ (remaining st) - run).
  { unfold rem1. rewrite sumZ_insert by lia. fold r. lia. }
  destruct (0 <? getZ rem1 i);
    split; cbn [time remaining completion]; try done; try lia.
  - by rewrite length_insert.
  - intros j Hj. destruct (decide (j = i)) as [->|Hne].
    + rewrite getZ_insert_eq by lia. lia.
    + rewrite getZ_insert_ne by done. by apply Hcomp.
Qed.

Lemma rr_body_exact st i rest :
  rr_weak srt st → rr_bounded B srt st → queue st = i :: rest →
  rr_body64 srt q i rest st = rr_body srt q i rest st ∧
  rr_bounded B srt (rr_body srt q i rest st).
Proof.
  intros Hw Hb Eq. unfold rr_body64, rr_body.
  rewrite rr_slice64_exact by done. split; [done|].
  by apply rr_gap_bounded, rr_enqueue_slice_bounded.
Qed.

Lemma rr_loop64_exact fuel st :
  rr_weak srt st → rr_bounded B srt st →
  rr_loop64 fuel srt q st = rr_loop fuel srt q st.
Proof.
  pose proof (times_below_nonneg _ _ Hts) as Hbt.
  revert st. induction fuel as [|fuel IH]; intros st Hw Hb; [done|].
  cbn [rr_loop64 rr_loop]. destruct (queue st) as [|i rest] eqn:Eq; [done|].
  destruct (rr_body_exact st i rest Hw Hb Eq) as [-> Hb'].
  apply IH; [|done]. exact (proj1 (rr_body_weak srt q Hq st i rest Hw Eq)).
Qed.

Lemma rr_reach_bounded st :
  rr_reach srt q st → rr_weak srt st ∧ rr_bounded B srt st.
Proof.
  pose proof (times_below_nonneg _ _ Hts) as Hbt.
  induction 1 as [|st i rest Hr [IHw IHb] Eq].
  - split; [by apply rr_init_weak|apply rr_init_bounded].
  - split; [exact (proj1 (rr_body_weak srt q Hq st i rest IHw Eq))|by apply rr_body_exact].
Qed.

End Exact.

Lemma btOf_le_total srt j :
  Forall (λ p, 0 ≤ bt p) srt → 0 ≤ btOf srt j ≤ sumZ (bt <$> srt).
Proof.
  intros Hbt.
  assert (Hnn : ∀ k, 0 ≤ getZ (bt <$> srt) k).
  { intros k. rewrite getZ_bt. by apply btOf_nonneg. }
  pose proof (getZ_le_sumZ _ j Hnn) as Hle. rewrite getZ_bt in Hle.
  split; [by apply btOf_nonneg|done].
Qed.

Lemma total_burst64_exact B procs :
  times_below B procs → B ≤ 2 ^ 53 → sum64 (bt <$> procs) = sumZ (bt <$> procs).
Proof.
  intros Hts HB. apply sum64_nonneg.
  - apply Forall_fmap. eapply Forall_impl; [exact Hts|]. cbn. tauto.
  - destruct procs as [|p procs]; [by cbn|].
    apply Forall_cons in Hts as [(? & ? & ?) _]. lia.
Qed.

(** The cells of [tat] and [wt] are computed without rounding. *)
Lemma rr_cells64_exact srt B st :
  times_below B srt → 0 ≤ B ≤ 2 ^ 53 → rr_bounded B srt st →
  imap (λ i c, sub64 c (atOf srt i)) (completion st)
    = imap (λ i c, c - atOf srt i) (completion st) ∧
  imap (λ i t, sub64 t (btOf srt i)) (imap (λ i c, c - atOf srt i) (completion st))
    = imap (λ i t, t - btOf srt i) (imap (λ i c, c - atOf srt i) (completion st)) ∧
  Forall (λ x, - B ≤ x ≤ B) (imap (λ i c, c - atOf srt i) (completion st)) ∧
  Forall (λ x, - B ≤ x ≤ B)
    (imap (λ i t, t - btOf srt i) (imap (λ i c, c - atOf srt i) (completion st))).
Proof.
  intros Hts HB [_ _ _ Hlc Hcomp].
  pose proof (times_below_nonneg _ _ Hts) as Hbt.
  assert (Hcell : ∀ i c, completion st !! i = Some c →
    0 ≤ c ≤ B ∧ 0 ≤ atOf srt i ∧ 0 ≤ btOf srt i ∧ atOf srt i + btOf srt i ≤ B).
  { intros i c Hc. pose proof (lookup_lt_Some _ _ _ Hc) as Hi. rewrite Hlc in Hi.
    pose proof (Hcomp i Hi) as Hb. unfold getZ in Hb. rewrite Hc in Hb. cbn in Hb.
    destruct (atOf_bounds srt B Hts i Hi). pose proof (btOf_le_total srt i Hbt). lia. }
  split; [|split; [|split]].
  - apply imap_ext. intros i c Hc. cbn. apply sub64_exact.
    destruct (Hcell i c Hc) as (? & ? & ? & ?). lia.
  - apply imap_ext. intros i t Ht. cbn. apply sub64_exact.
    rewrite list_lookup_imap in Ht. destruct (completion st !! i) as [c|] eqn:Hc; [|done].
    injection Ht as <-. destruct (Hcell i c Hc) as (? & ? & ? & ?). lia.
  - apply Forall_lookup. intros i t Ht.
    rewrite list_lookup_imap in Ht. destruct (completion st !! i) as [c|] eqn:Hc; [|done].
    injection Ht as <-. destruct (Hcell i c Hc) as (? & ? & ? & ?). lia.
  - apply Forall_lookup. intros i t Ht.
    rewrite !list_lookup_imap in Ht. destruct (completion st !! i) as [c|] eqn:Hc; [|done].
    injection Ht as <-. destruct (Hcell i c Hc) as (? & ? & ? & ?). lia.
Qed.

Lemma rr_result64_exact srt B st :
  times_below B srt → 0 ≤ B ≤ 2 ^ 53 → rr_bounded B srt st →
  same_schedule (rr_result64 srt st) (rr_result srt st) ∧
  (Z.of_nat (length srt) * B ≤ 2 ^ 53 → rr_result64 srt st = rr_result srt st).
Proof.
  intros Hts HB Hb.
  destruct (rr_cells64_exact srt B st Hts HB Hb) as (Htat & Hwt & Htb & Hwb).
  pose proof (total_burst64_exact B srt Hts ltac:(lia)) as Hburst.
  unfold rr_result64, rr_result. cbv zeta. rewrite Htat, Hwt, Hburst.
  split; [done|]. intros Hn.
  rewrite (sum64_exact _ B Htb), (sum64_exact _ B Hwb); try done; try lia.
  - by rewrite !length_imap, (bd_len_completion _ _ _ Hb).
  - by rewrite !length_imap, (bd_len_completion _ _ _ Hb).
Qed.

(** While no time exceeds [2^53], [roundRobin64] is [roundRobin] up to the
    two averages, and with them when their sums are exact too. *)
Lemma roundRobin64_exact (B : Z) (procs : list Proc) (q : Z) (fuel : nat) :
  times_below B procs → 0 ≤ B ≤ 2 ^ 53 → 1 ≤ q →
  match roundRobin64 fuel procs q, roundRobin fuel procs q with
  | Returns r64, Returns r =>
      same_schedule r64 r ∧ (Z.of_nat (length procs) * B ≤ 2 ^ 53 → r64 = r)
  | OutOfFuel, OutOfFuel => True
  | _, _ => False
  end.
Proof.
  intros Hts HB Hq. apply times_below_sorted in Hts.
  unfold roundRobin64, roundRobin, rr_on_sorted.
  set (srt := sort_by at_ procs) in *.
  rewrite (rr_loop64_exact srt q B Hq Hts HB).
  2:{ apply rr_init_weak. by eapply times_below_nonneg. }
  2:{ by apply rr_init_bounded. }
  destruct (rr_loop fuel srt q (rr_init srt)) as [st|] eqn:Hloop; [|done].
  apply rr_loop_reach in Hloop as [Hreach _]; [|constructor].
  destruct (rr_reach_bounded srt q B Hq Hts HB st Hreach) as [_ Hb].
  destruct (rr_result64_exact srt B st Hts HB Hb) as [Hs Hall].
  split; [done|]. unfold srt in Hall. by rewrite sort_by_length in Hall.
Qed.

Lemma fcfs_fold64_exact (B : Z) (l : list Proc) (t : Z) :
  B ≤ 2 ^ 53 → 0 ≤ t → t + sumZ (bt <$> l) ≤ B → times_below B l →
  Forall (λ s, 0 ≤ start s ∧ start s ≤ end_ s ∧ end_ s ≤ B) (fcfs_segs t l) ∧
  ∀ g, foldl fcfs_step64 (t, g) l = foldl fcfs_step (t, g) l.
Proof.
  intros HB. revert t. induction l as [|p l IH]; intros t Ht Hsum Hts.
  - split; [constructor|done].
  - unfold times_below in Hts. rewrite fmap_cons, sumZ_cons in Hts, Hsum.
    apply Forall_cons in Hts as [(Hat & Hbt & Hp) Hl].
    assert (Hnn : 0 ≤ sumZ (bt <$> l)).
    { apply sumZ_nonneg, Forall_fmap. eapply Forall_impl; [exact Hl|]. cbn. tauto. }
    set (s := if t <? at_ p then at_ p else t).
    assert (Hs : 0 ≤ s ∧ s + bt p + sumZ (bt <$> l) ≤ B).
    { unfold s. destruct (Z.ltb_spec t (at_ p)); lia. }
    destruct (IH (s + bt p) ltac:(lia) ltac:(lia)) as [IHb IHf].
    { unfold times_below. eapply Forall_impl; [exact Hl|]. cbn. intros p'. lia. }
    split.
    + cbn [fcfs_segs]. cbv zeta. fold s. constructor; [cbn; lia|exact IHb].
    + intros g. cbn [foldl]. unfold fcfs_step64 at 2, fcfs_step at 2. cbn [fst snd].
      fold s. rewrite add64_exact by lia. apply IHf.
Qed.

Lemma fcfs_gantt64_exact (B : Z) (srt : list Proc) :
  0 ≤ B ≤ 2 ^ 53 → times_below B srt →
  fcfs_gantt64 srt = fcfs_gantt srt ∧
  Forall (λ s, 0 ≤ start s ∧ start s ≤ end_ s ∧ end_ s ≤ B) (fcfs_gantt srt).
Proof.
  intros HB Hts.
  assert (H0 : 0 + sumZ (bt <$> srt) ≤ B).
  { destruct srt as [|p l]; [|apply Forall_cons in Hts as [(? & ? & ?) _]; lia].
    cbn. lia. }
  destruct (fcfs_fold64_exact B srt 0 ltac:(lia) ltac:(lia) H0 Hts) as [Hb Hf].
  rewrite fcfs_gantt_segs. split; [|done].
  unfold fcfs_gantt64. rewrite Hf. by rewrite fcfs_fold_closed.
Qed.

(** While no time exceeds [2^53], [fcfsScheduler64] is [fcfsScheduler] up to
    the two averages, and with them when their sums are exact too. *)
Lemma fcfsScheduler64_exact (B : Z) (procs : list Proc) :
  times_below B procs → 0 ≤ B ≤ 2 ^ 53 →
  same_schedule (fcfsScheduler64 procs) (fcfsScheduler procs) ∧
  (Z.of_nat (length procs) * B ≤ 2 ^ 53 → fcfsScheduler64 procs = fcfsScheduler procs).
Proof.
  intros Hp HB. pose proof (times_below_sorted _ _ Hp) as Hts.
  pose proof (total_burst64_exact B procs Hp ltac:(lia)) as Hburst.
  unfold fcfsScheduler64, fcfsScheduler, fcfs_on_sorted64, fcfs_on_sorted. cbv zeta.
  assert (Hlen : length (sort_by at_ procs) = length procs) by apply sort_by_length.
  set (srt := sort_by at_ procs) in *.
  destruct (fcfs_gantt64_exact B srt HB Hts) as [Hg Hgb].
  rewrite Hg, Hburst.
  set (rows64 := imap _ srt). set (rows := imap _ srt).
  assert (Hrow : ∀ i p, srt !! i = Some p →
    ∃ s, fcfs_gantt srt !! i = Some (mkSeg (pidOfId (id p)) s (s + bt p)) ∧
         0 ≤ s ∧ s + bt p ≤ B ∧ 0 ≤ at_ p ≤ s ∧ 0 ≤ bt p).
  { intros i p Hi. destruct (fcfs_segs_lookup srt i p Hi) as (Hseg & _ & _).
    rewrite <- fcfs_gantt_segs in Hseg. eexists. split; [exact Hseg|].
    rewrite Forall_forall in Hgb.
    pose proof (Hgb _ (list_elem_of_lookup_2 _ _ _ Hseg)) as Hb. cbn in Hb.
    destruct (times_below_cell _ _ _ _ Hts Hi) as (? & ? & ?).
    destruct (Z.ltb_spec (fcfs_clock 0 (take i srt)) (at_ p)); lia. }
  assert (Hrows : rows64 = rows).
  { apply imap_ext. intros i p Hi. cbn beta.
    destruct (Hrow i p Hi) as (s & -> & ? & ? & ? & ?). cbn.
    rewrite (sub64_exact (s + bt p) (at_ p)) by lia.
    rewrite sub64_exact by lia. done. }
  rewrite Hrows. split; [done|]. intros Hn.
  assert (Hbound : Forall (λ r, - B ≤ tat r ≤ B ∧ - B ≤ wt r ≤ B)
                     (sort_by (λ r, id (proc r)) rows)).
  { apply sort_by_Forall, Forall_lookup. intros i r Hr. unfold rows in Hr.
    rewrite list_lookup_imap in Hr. destruct (srt !! i) as [p|] eqn:Hi; [|done].
    injection Hr as <-. destruct (Hrow i p Hi) as (s & -> & ? & ? & ? & ?). cbn. lia. }
  assert (Hrl : length (sort_by (λ r, id (proc r)) rows) = length procs).
  { rewrite sort_by_length. unfold rows. by rewrite length_imap. }
  rewrite (sum64_exact (tat <$> _) B), (sum64_exact (wt <$> _) B);
    rewrite ?length_fmap, ?Hrl; try done; try lia.
  - apply Forall_fmap. eapply Forall_impl; [exact Hbound|]. cbn. tauto.
  - apply Forall_fmap. eapply Forall_impl; [exact Hbound|]. cbn. tauto.
Qed.

Lemma roundRobin64_same (procs : list Proc) (q : Z) (fuel : nat) (r : RRResult) :
  exact_times procs → 1 ≤ q → roundRobin64 fuel procs q = Returns r →
  ∃ r0, roundRobin fuel procs q = Returns r0 ∧ same_schedule r r0.
Proof.
  intros Hex Hq Hr.
  pose proof (roundRobin64_exact (2 ^ 53) procs q fuel Hex ltac:(lia) Hq) as H.
  rewrite Hr in H. destruct (roundRobin fuel procs q) as [r0| |]; try done.
  exists r0. by destruct H.
Qed.

Lemma roundRobin64_returns (procs : list Proc) (q : Z) (fuel : nat) :
  exact_times procs → Forall (λ p, 0 < bt p) procs → 1 ≤ q →
  (Z.to_nat (sumZ (bt <$> procs)) ≤ fuel)%nat →
  ∃ r, roundRobin64 fuel procs q = Returns r.
Proof.
  intros Hex Hbt Hq Hfuel.
  destruct (roundRobin_enough_fuel fuel procs q Hbt Hq Hfuel) as [r0 Hr0].
  pose proof (roundRobin64_exact (2 ^ 53) procs q fuel Hex ltac:(lia) Hq) as H.
  rewrite Hr0 in H. destruct (roundRobin64 fuel procs q) as [r| |]; try done.
  by exists r.
Qed.

Lemma fcfsScheduler64_same (procs : list Proc) :
  exact_times procs → same_schedule (fcfsScheduler64 procs) (fcfsScheduler procs).
Proof. intros Hex. by destruct (fcfsScheduler64_exact (2 ^ 53) procs Hex ltac:(lia)). Qed.







(** ** Runs beyond [2^53], and the rounded figures *)

(** Arrival [2^53], burst 1, quantum 1: the slice ends at [2^53 + 1], which
    is stored as [2^53]; the row has a turnaround of 0 and a waiting time of
    -1, and [fcfsScheduler] reports the same times with a response time of
    -1. *)
Example late_arrival_rows :
  (∃ r, roundRobin64 1 late_arrival 1 = Returns r ∧
        resultData r = [mkRow (mkProc 1 (2 ^ 53) 1) (2 ^ 53) 0 (-1) 0] ∧
        totalTime r = 2 ^ 53) ∧
  resultData (fcfsScheduler64 late_arrival)
    = [mkRow (mkProc 1 (2 ^ 53) 1) (2 ^ 53) 0 (-1) (-1)].
Proof. split; [eexists; split; [by vm_compute|by vm_compute]|by vm_compute]. Qed.

(** Arrival [2^53], burst 2, quantum 1: [roundRobin] runs two slices that do
    not move the clock and ends at [2^53]; [fcfsScheduler] adds the whole
    burst at once and ends at [2^53 + 2]. *)
Example late_arrival_finish :
  (∃ r, roundRobin64 2 [mkProc 1 (2 ^ 53) 2] 1 = Returns r ∧
        length (gantt r) = 2%nat ∧ totalTime r = 2 ^ 53) ∧
  totalTime (fcfsScheduler64 [mkProc 1 (2 ^ 53) 2]) = 2 ^ 53 + 2.
Proof. split; [eexists; split; [by vm_compute|by vm_compute]|by vm_compute]. Qed.

(** Burst [2^54 + 4], quantum [2^52 + 1]: the remaining time is rounded
    after each slice, and the run takes five slices where four slices of the
    quantum cover the burst. *)
Example rounded_remaining_time :
  (∃ r, roundRobin64 5 [mkProc 1 0 (2 ^ 54 + 4)] (2 ^ 52 + 1) = Returns r ∧
        length (gantt r) = 5%nat) ∧
  slices (2 ^ 52 + 1) (2 ^ 54 + 4) = 4.
Proof. split; [eexists; split; by vm_compute|by vm_compute]. Qed.

(** The two figures are printed from floats: 3/80 is stored below 0.0375
    and 23/160 * 100 below 14.375. *)
Example rounded_figures :
  throughputOf 3 80 = "0.037" ∧ cpuUtilOf 23 160 = "14.37" ∧
  throughputOf 4 22 = "0.182" ∧ cpuUtilOf 22 22 = "100.00".
Proof. by vm_compute. Qed.

(** ** No check of the quantum or of the list *)


(** ** Conservation and ordering *)







(** ** Every process is completed *)

Lemma rr_reach_charted sorted q st :
  1 ≤ q → Forall (λ p, 0 < bt p) sorted →
  rr_reach sorted q st → rr_charted sorted st.
Proof.
  intros Hq Hbt. induction 1 as [|st i rest Hr IH Eq].
  - intros j Hj Hz. cbn [rr_init remaining] in Hz. rewrite getZ_bt in Hz.
    pose proof (btOf_pos sorted Hbt j Hj). lia.
  - destruct (rr_reach_times sorted q st Hq Hbt Hr) as [[H0 _] Ht].
    destruct (inv_queue _ _ H0 i ltac:(rewrite Eq; left)) as (Hi & _ & _).
    pose proof (inv_len_rem _ _ H0) as Hlr.
    pose proof (tm_len_completion _ _ Ht) as Hlc.
    destruct (rr_body_shape sorted q i rest st) as (t' & qu' & vis' & -> & _).
    intros j Hj. cbn [remaining completion rr_gantt].
    set (run := Z.min (getZ (remaining st) i) q).
    destruct (decide (j = i)) as [->|Hne].
    + rewrite getZ_insert_eq by lia. intros Hz. rewrite Hz, Z.ltb_irrefl.
      rewrite getZ_insert_eq by lia.
      eexists. split; [apply elem_of_app; right; left|]. by split.
    + rewrite getZ_insert_ne by done. intros Hz.
      destruct (IH j Hj Hz) as (s & Hs & Hpid & Hend).
      exists s. split; [apply elem_of_app; by left|]. split; [done|].
      destruct (0 <? _); [done|]. by rewrite getZ_insert_ne.
Qed.

(** C5: on a non-empty list with positive bursts and a quantum of at least 1
    the loop ends, within as many iterations as the total of the bursts, and
    [roundRobin] returns the result built from the state the loop ends in.
    That state is reached from the initial state by iterating the loop body;
    its queue is empty and every remaining time is exactly 0; and every
    process was completed by the run: it entered the queue, it was
    dispatched, and the chart holds a segment with its id that ends at its
    completion time.  While the times are exact, the loop with the rounding
    of binary64 ends in the same number of iterations, with the same chart
    and the same rows. *)
Theorem rr_completes (procs : list Proc) (q : Z) (k : nat) :
  procs ≠ [] → Forall (λ p, 0 < bt p) procs → 1 ≤ q →
  ∃ st, rr_run (Z.to_nat (sumZ (bt <$> procs)) + k) procs q = Some st ∧
        roundRobin (Z.to_nat (sumZ (bt <$> procs)) + k) procs q
          = Returns (rr_result (sort_by at_ procs) st) ∧
        rr_reach (sort_by at_ procs) q st ∧
        queue st = [] ∧
        length (remaining st) = length procs ∧
        Forall (λ x, x = 0) (remaining st) ∧
        (∀ j p, sort_by at_ procs !! j = Some p →
           getB (visited st) j = true ∧
           0 ≤ getZ (firstResponse st) j ∧
           ∃ s, s ∈ gantt (rr_result (sort_by at_ procs) st) ∧
                pid s = pidOfId (id p) ∧ end_ s = getZ (completion st) j) ∧
        (exact_times procs →
           ∃ r64, roundRobin64 (Z.to_nat (sumZ (bt <$> procs)) + k) procs q
                    = Returns r64 ∧
                  same_schedule r64 (rr_result (sort_by at_ procs) st)).
Proof.
  intros _ Hbt Hq.
  destruct (rr_run_terminates procs q Hq Hbt) as [st Hst].
  apply (rr_loop_more_fuel _ _ _ k) in Hst. exists st.
  destruct (rr_run_facts _ _ _ _ Hq Hbt Hst) as (Hqe & Hlen & Hz & _).
  pose proof Hst as Hrun. unfold rr_run in Hrun.
  apply rr_loop_reach in Hrun as [Hreach _]; [|constructor].
  pose proof (sort_by_Forall at_ _ _ Hbt) as Hbs.
  destruct (rr_reach_times _ q st Hq Hbs Hreach) as [[H0 _] Ht].
  pose proof (rr_reach_charted _ q st Hq Hbs Hreach) as Hch.
  assert (Hret : roundRobin (Z.to_nat (sumZ (bt <$> procs)) + k) procs q
                 = Returns (rr_result (sort_by at_ procs) st)).
  { unfold roundRobin, rr_on_sorted. unfold rr_run in Hst. by rewrite Hst. }
  split; [done|]. split; [done|].
  split; [done|]. split; [done|]. split; [done|]. split.
  { apply Forall_lookup. intros j x Hx. specialize (Hz j).
    unfold getZ in Hz. by rewrite Hx in Hz. }
  split.
  - intros j p Hp. pose proof (lookup_lt_Some _ _ _ Hp) as Hj.
    pose proof (btOf_pos _ Hbs j Hj) as Hb.
    split; [|split].
    + destruct (getB (visited st) j) eqn:Ev; [done|].
      pose proof (inv_fresh _ _ H0 j Hj Ev) as Hf. rewrite Hz in Hf. lia.
    + destruct (tm_progress _ _ Ht j Hj) as [[_ Hrem]|[Hfr _]]; [|done].
      rewrite Hz in Hrem. lia.
    + destruct (Hch j Hj (Hz j)) as (s & Hs & Hpid & Hend).
      exists s. split; [done|]. split; [|done].
      rewrite Hpid. unfold idOf. by rewrite Hp.
  - intros Hex.
    pose proof (roundRobin64_exact (2 ^ 53) procs q
                  (Z.to_nat (sumZ (bt <$> procs)) + k) Hex ltac:(lia) Hq) as H64.
    rewrite Hret in H64.
    destruct (roundRobin64 _ procs q) as [r64| |]; try done.
    exists r64. split; [done|]. by destruct H64.
Qed.

Lemma rr_completes_witness :
  ∃ st, rr_run (Z.to_nat (sumZ (bt <$> DEFAULT_PROCESSES)) + 0) DEFAULT_PROCESSES 4
          = Some st ∧
        roundRobin (Z.to_nat (sumZ (bt <$> DEFAULT_PROCESSES)) + 0) DEFAULT_PROCESSES 4
          = Returns (rr_result (sort_by at_ DEFAULT_PROCESSES) st) ∧
        rr_reach (sort_by at_ DEFAULT_PROCESSES) 4 st ∧
        queue st = [] ∧
        length (remaining st) = length DEFAULT_PROCESSES ∧
        Forall (λ x, x = 0) (remaining st) ∧
        (∀ j p, sort_by at_ DEFAULT_PROCESSES !! j = Some p →
           getB (visited st) j = true ∧
           0 ≤ getZ (firstResponse st) j ∧
           ∃ s, s ∈ gantt (rr_result (sort_by at_ DEFAULT_PROCESSES) st) ∧
                pid s = pidOfId (id p) ∧ end_ s = getZ (completion st) j) ∧
        (exact_times DEFAULT_PROCESSES →
           ∃ r64, roundRobin64 (Z.to_nat (sumZ (bt <$> DEFAULT_PROCESSES)) + 0)
                    DEFAULT_PROCESSES 4 = Returns r64 ∧
                  same_schedule r64 (rr_result (sort_by at_ DEFAULT_PROCESSES) st)).
Proof.
  apply (rr_completes DEFAULT_PROCESSES 4 0).
  - discriminate.
  - by repeat constructor.
  - lia.
Defined.

(** ** The sweep and its optimum *)

Lemma points_returns_nonneg (processes : list Proc) (fuel : nat) :
  Forall (λ p, 0 ≤ bt p) processes →
  (Z.to_nat (sumZ (bt <$> processes)) + length processes ≤ fuel)%nat →
  ∃ pts, points fuel processes = Returns pts.
Proof.
  intros Hbt Hfuel. apply sweep_returns, Forall_forall. intros q Hq.
  apply roundRobin_returns_nonneg; [done| |done].
  apply elem_of_qValues in Hq. lia.
Qed.

(** C3 (as the sweep is built): with no range given, the sweep calls
    [roundRobin] once for each integer quantum from 1 to [maxQ - 1], in
    ascending order, and for no other quantum; each point carries the
    averages and the context switches of that call.  Here
    [maxQ = max(2, maxBt + 3)] and [maxBt] is the largest burst: [maxQ] is at
    least 2, at least every burst plus 3, and equal to 2 or to some burst
    plus 3; [maxQ] itself is not analysed.  With no negative burst the sweep
    returns once the fuel covers the total of the bursts plus the number of
    processes. *)
Theorem sweep_default_range (processes : list Proc) (fuel : nat) :
  (Forall (λ p, 0 ≤ bt p) processes →
   (Z.to_nat (sumZ (bt <$> processes)) + length processes ≤ fuel)%nat →
   ∃ pts, points fuel processes = Returns pts) ∧
  (∀ pts, points fuel processes = Returns pts →
     pt_q <$> pts = seqZ 1 (maxQ processes - 1) ∧
     (∀ q, (∃ p, p ∈ pts ∧ pt_q p = q) ↔ 1 ≤ q ≤ maxQ processes - 1) ∧
     Forall (λ p, ∃ r, roundRobin fuel processes (pt_q p) = Returns r ∧
                       awt p = avgWt r ∧ atat p = avgTat r ∧ pt_cs p = cs r) pts) ∧
  2 ≤ maxQ processes ∧
  Forall (λ p, bt p + 3 ≤ maxQ processes) processes ∧
  (maxQ processes = 2 ∨ Exists (λ p, maxQ processes = bt p + 3) processes).
Proof.
  split; [apply points_returns_nonneg|]. split.
  { intros pts Hpts. destruct (sweep_lookup _ _ _ _ Hpts) as [Hqs _].
    split; [done|]. split; [|by eapply sweep_points].
    intros q. rewrite <- elem_of_qValues, <- Hqs, list_elem_of_fmap. naive_solver. }
  unfold maxQ, maxBt. pose proof (jsmax_list_spec (bt <$> processes)) as Hm.
  destruct (jsmax_list (bt <$> processes)) as [m|].
  - destruct Hm as [Hin Hall]. split; [lia|]. split.
    + rewrite Forall_fmap in Hall. eapply Forall_impl; [exact Hall|].
      simpl. intros. lia.
    + destruct (Z.max_spec 2 (m + 3)) as [[_ ->]|[_ ->]]; [|by left].
      right. apply list_elem_of_fmap in Hin as (p & -> & Hp).
      apply Exists_exists. by exists p.
  - apply fmap_nil_inv in Hm as ->. split; [done|]. split; [constructor|by left].
Qed.

Lemma sweep_default_range_witness :
  ∃ pts, points 26 DEFAULT_PROCESSES = Returns pts ∧
         pt_q <$> pts = seqZ 1 (maxQ DEFAULT_PROCESSES - 1) ∧
         Forall (λ p, ∃ r, roundRobin 26 DEFAULT_PROCESSES (pt_q p) = Returns r ∧
                           awt p = avgWt r ∧ atat p = avgTat r ∧ pt_cs p = cs r) pts.
Proof.
  destruct (sweep_default_range DEFAULT_PROCESSES 26) as (Hret & Hall & _).
  destruct Hret as [pts Hpts]; [by repeat constructor|vm_compute; lia|].
  destruct (Hall pts Hpts) as (Hqs & _ & Hpt).
  exists pts. split; [exact Hpts|]. split; [exact Hqs|exact Hpt].
Defined.

(** C8: the sweep has one point per quantum of [qValues], in ascending order
    of quantum; each point carries the average waiting time of the
    [roundRobin] call with its quantum, a finite number when there is a
    process; and [minAwtPoint] is one of these points: no point has a smaller
    average waiting time, and every point with the same average waiting time
    has a quantum at least as large.  (With positive bursts the sweep
    returns once the fuel reaches the total of the bursts.) *)
Theorem optimal_quantum (processes : list Proc) (fuel : nat) :
  (Forall (λ p, 0 < bt p) processes →
   (Z.to_nat (sumZ (bt <$> processes)) ≤ fuel)%nat →
   ∃ pts, points fuel processes = Returns pts) ∧
  (∀ pts, points fuel processes = Returns pts →
     pt_q <$> pts = qValues processes ∧
     Forall (λ p, ∃ r, roundRobin fuel processes (pt_q p) = Returns r ∧
                       awt p = avgWt r ∧ atat p = avgTat r ∧ pt_cs p = cs r) pts ∧
     (processes ≠ [] → Forall (λ p, is_num (awt p)) pts) ∧
     ∃ m, minAwtPoint pts = Some m ∧
          m ∈ pts ∧
          (∀ p, p ∈ pts → jslt (awt p) (awt m) = false) ∧
          (∀ p a b, p ∈ pts → awt p = Num a → awt m = Num b → (b <= a)%Q) ∧
          (∀ p, p ∈ pts → jseq (awt p) (awt m) = true → pt_q m ≤ pt_q p)).
Proof.
  split; [apply points_returns|]. intros pts Hpts.
  destruct (sweep_lookup _ _ _ _ Hpts) as [Hqs Hall]. split; [done|].
  split; [by eapply sweep_points|].
  assert (Hnum : processes ≠ [] → Forall (λ p, is_num (awt p)) pts).
  { intros Hne. eapply Forall_impl; [exact Hall|]. simpl. intros p (r & Hr & ->).
    by eapply roundRobin_avgWt_num. }
  split; [done|].
  assert (Hle : ∀ m : SweepPoint,
    (∀ p, p ∈ pts → jslt (awt p) (awt m) = false) →
    ∀ p a b, p ∈ pts → awt p = Num a → awt m = Num b → (b <= a)%Q).
  { intros m Hmin p a b Hp Ha Hb. specialize (Hmin p Hp). rewrite Ha, Hb in Hmin.
    cbn in Hmin. apply negb_false_iff in Hmin. by apply Qle_bool_iff. }
  destruct processes as [|p0 processes'] eqn:Eprocs.
  - (* no process: one point, with [awt = NaN] *)
    unfold points in Hpts. destruct fuel; vm_compute in Hpts; injection Hpts as <-;
      (eexists; split; [done|]; split; [by left|];
       split; [|split]; intros p; intros;
       repeat match goal with
              | H : _ ∈ [_] |- _ => apply list_elem_of_singleton in H; subst
              end; done).
  - rewrite <- Eprocs in *. assert (Hne : processes ≠ []) by by rewrite Eprocs.
    clear Eprocs p0 processes'. specialize (Hnum Hne).
    assert (Hpos : ∀ j p, pts !! j = Some p → pt_q p = 1 + Z.of_nat j).
    { intros j p Hp.
      assert (Hq : (pt_q <$> pts) !! j = Some (pt_q p))
        by by rewrite list_lookup_fmap, Hp.
      rewrite Hqs in Hq.
      change (qValues processes) with (seqZ 1 (maxQ processes - 1)) in Hq.
      apply lookup_seqZ in Hq. tauto. }
    destruct pts as [|p1 pts'] eqn:Epts.
    { exfalso. apply (f_equal length) in Hqs. cbn in Hqs.
      change (qValues processes) with (seqZ 1 (maxQ processes - 1)) in Hqs.
      rewrite length_seqZ in Hqs.
      pose proof (maxQ_ge_2 processes). lia. }
    cbn [minAwtPoint foldl]. rewrite jslt_irrefl.
    destruct (reduce_min_first pts' [p1] p1 0) as (k & Hk & Hmin & Hfirst);
      [done|done| |intros; lia|].
    { intros p Hp. apply list_elem_of_singleton in Hp as ->. apply jslt_irrefl. }
    cbn [app] in Hk, Hmin, Hfirst.
    eexists. split; [done|].
    split; [by eapply list_elem_of_lookup_2|]. split; [done|].
    split; [by apply Hle|].
    intros p Hp Heq. apply list_elem_of_lookup_1 in Hp as [j Hj].
    rewrite (Hpos _ _ Hk), (Hpos _ _ Hj).
    destruct (decide (j < k)%nat) as [Hlt|]; [|lia].
    pose proof (Hfirst j p Hlt Hj) as Hs. apply jslt_not_jseq in Hs. congruence.
Qed.

(** For [DEFAULT_PROCESSES] the sweep returns and its optimum is quantum 8:
    quanta 8, 9 and 10 share the least average waiting time. *)
Lemma optimal_quantum_witness :
  ∃ pts m,
    points 22 DEFAULT_PROCESSES = Returns pts ∧
    pt_q <$> pts = qValues DEFAULT_PROCESSES ∧
    Forall (λ p, ∃ r, roundRobin 22 DEFAULT_PROCESSES (pt_q p) = Returns r ∧
                      awt p = avgWt r ∧ atat p = avgTat r ∧ pt_cs p = cs r) pts ∧
    Forall (λ p, is_num (awt p)) pts ∧
    minAwtPoint pts = Some m ∧
    m ∈ pts ∧
    (∀ p, p ∈ pts → jslt (awt p) (awt m) = false) ∧
    (∀ p a b, p ∈ pts → awt p = Num a → awt m = Num b → (b <= a)%Q) ∧
    (∀ p, p ∈ pts → jseq (awt p) (awt m) = true → pt_q m ≤ pt_q p).
Proof.
  destruct (optimal_quantum DEFAULT_PROCESSES 22) as [Hret Hopt].
  destruct Hret as [pts Hpts]; [by repeat constructor|vm_compute; lia|].
  destruct (Hopt pts Hpts) as (Hqs & Hpt & Hnum & m & Hm).
  exists pts, m. split; [exact Hpts|]. split; [exact Hqs|]. split; [exact Hpt|].
  split; [apply Hnum; discriminate|]. exact Hm.
Defined.

(** ** The schedulers with rounding: rows, segments, finishing time *)

Lemma latest_arrival (l : list Proc) :
  l ≠ [] → ∃ p, p ∈ l ∧ Forall (λ x, at_ x ≤ at_ p) l.
Proof.
  induction l as [|x l IH]; [done|]. intros _.
  destruct l as [|y l].
  - exists x. split; [left|]. by repeat constructor.
  - destruct (IH ltac:(done)) as (p & Hp & Hall).
    destruct (Z.le_gt_cases (at_ x) (at_ p)) as [Hle|Hgt].
    + exists p. split; [by right|]. by constructor.
    + exists x. split; [left|]. constructor; [lia|].
      eapply Forall_impl; [exact Hall|]. cbn. intros. lia.
Qed.

Lemma exact_sums_bound (procs : list Proc) :
  exact_sums procs →
  ∃ B, times_below B procs ∧ 0 ≤ B ≤ 2 ^ 53 ∧
       Z.of_nat (length procs) * B ≤ 2 ^ 53.
Proof.
  intros Hex. destruct procs as [|p0 l] eqn:E.
  { exists 0. split; [constructor|]. cbn. lia. }
  rewrite <- E in *. assert (Hne : procs ≠ []) by by rewrite E.
  assert (Hn : 1 ≤ Z.of_nat (length procs)) by (rewrite E; cbn; lia).
  clear E p0 l.
  destruct (latest_arrival procs Hne) as (p & Hp & Hall).
  unfold exact_sums in Hex. rewrite Forall_forall in Hex, Hall.
  destruct (Hex p Hp) as (Ha & Hb & Hbound).
  assert (Hs : 0 ≤ sumZ (bt <$> procs)).
  { apply sumZ_nonneg, Forall_fmap, Forall_forall. intros x Hx.
    destruct (Hex x Hx) as (_ & ? & _). done. }
  exists (at_ p + sumZ (bt <$> procs)). split; [|nia].
  apply Forall_forall. intros x Hx. destruct (Hex x Hx) as (? & ? & _).
  specialize (Hall x Hx). cbn in Hall. lia.
Qed.

(** X1: when every burst is positive, the quantum covers every burst, and no
    time and no sum of times is rounded (no arrival is negative, and the
    number of processes times the latest arrival plus the total of the
    bursts is at most [2^53]), [roundRobin] returns exactly the result of
    [fcfsScheduler]: the same chart, rows, averages and figures.  One
    iteration per process is enough fuel. *)
Theorem rr_large_quantum_is_fcfs (procs : list Proc) (q : Z) (fuel : nat) :
  exact_sums procs → Forall (λ p, 0 < bt p ∧ bt p ≤ q) procs →
  (length procs ≤ fuel)%nat →
  roundRobin64 fuel procs q = Returns (fcfsScheduler64 procs).
Proof.
  intros Hex Hbt Hfuel.
  destruct procs as [|p0 l] eqn:E; [by destruct fuel|].
  rewrite <- E in *. assert (Hp0 : p0 ∈ procs) by (rewrite E; left). clear E l.
  destruct (exact_sums_bound procs Hex) as (B & Hts & HB & Hn).
  assert (Hq : 1 ≤ q).
  { rewrite Forall_forall in Hbt. destruct (Hbt p0 Hp0). lia. }
  assert (Hall : Forall (λ p, 0 ≤ at_ p ∧ 0 < bt p ∧ bt p ≤ q) procs).
  { apply Forall_forall. intros p Hp. rewrite Forall_forall in Hbt.
    destruct (Hbt p Hp). unfold exact_sums in Hex. rewrite Forall_forall in Hex.
    destruct (Hex p Hp) as (? & _). done. }
  pose proof (rr_large_quantum_is_fcfs_aux procs q fuel Hall Hfuel) as Hz.
  pose proof (roundRobin64_exact B procs q fuel Hts HB Hq) as H64.
  rewrite Hz in H64. destruct (roundRobin64 fuel procs q) as [r| |]; try done.
  destruct H64 as [_ H64]. rewrite (H64 Hn).
  destruct (fcfsScheduler64_exact B procs Hts HB) as [_ Hf]. by rewrite (Hf Hn).
Qed.

Lemma rr_large_quantum_is_fcfs_witness :
  roundRobin64 4 DEFAULT_PROCESSES 8 = Returns (fcfsScheduler64 DEFAULT_PROCESSES).
Proof.
  apply (rr_large_quantum_is_fcfs DEFAULT_PROCESSES 8 4).
  - repeat constructor; cbn; lia.
  - repeat constructor; cbn; lia.
  - cbn. lia.
Defined.





(** X4: with positive bursts, exact times and a quantum of at least 1,
    [roundRobin] returns once the fuel reaches the total of the bursts, and
    the chart of every result has exactly as many segments as the bursts
    need slices of length at most [q]: the sum over the processes of
    [bt / q] rounded up; the context switches are fewer than the
    segments. *)
Theorem rr_segment_count (procs : list Proc) (q : Z) :
  Forall (λ p, 0 < bt p) procs → exact_times procs → 1 ≤ q →
  (∃ r, roundRobin64 (Z.to_nat (sumZ (bt <$> procs))) procs q = Returns r) ∧
  (∀ fuel r, roundRobin64 fuel procs q = Returns r →
     Z.of_nat (length (gantt r)) = sumZ ((λ p, slices q (bt p)) <$> procs) ∧
     (cs r ≤ length (gantt r) - 1)%nat).
Proof.
  intros Hbt Hex Hq. split; [by apply roundRobin64_returns|].
  intros fuel r Hr.
  destruct (roundRobin64_same _ _ _ _ Hex Hq Hr) as (r0 & Hr0 & _ & -> & -> & _).
  by apply (rr_segment_count_Z procs q fuel).
Qed.

Lemma rr_segment_count_witness :
  (∃ r, roundRobin64 (Z.to_nat (sumZ (bt <$> DEFAULT_PROCESSES))) DEFAULT_PROCESSES 4
          = Returns r) ∧
  (∀ fuel r, roundRobin64 fuel DEFAULT_PROCESSES 4 = Returns r →
     Z.of_nat (length (gantt r))
       = sumZ ((λ p, slices 4 (bt p)) <$> DEFAULT_PROCESSES) ∧
     (cs r ≤ length (gantt r) - 1)%nat).
Proof.
  apply (rr_segment_count DEFAULT_PROCESSES 4).
  - by repeat constructor.
  - repeat constructor; cbn; lia.
  - lia.
Defined.









(** ** Rounding does not show below [2^53] *)

(** X19: while no arrival and no burst is negative and the latest arrival
    plus the total of the bursts is at most [2^53], the rounding of binary64
    changes nothing in a run: with a quantum of at least 1, [roundRobin]
    with rounding returns exactly when [roundRobin] with exact sums and
    differences returns, with the same fuel, and the two results have the
    same rows, chart, context switches, utilisation, throughput and total
    time; so do the two results of [fcfsScheduler].  When the number of
    processes times that bound is at most [2^53], the averages agree too and
    the results are equal. *)
Theorem rounding_not_visible_below_2_53 (procs : list Proc) (q : Z) (fuel : nat) :
  exact_times procs → 1 ≤ q →
  (∀ r64, roundRobin64 fuel procs q = Returns r64 →
          ∃ r, roundRobin fuel procs q = Returns r ∧ same_schedule r64 r) ∧
  (∀ r, roundRobin fuel procs q = Returns r →
        ∃ r64, roundRobin64 fuel procs q = Returns r64 ∧ same_schedule r64 r) ∧
  same_schedule (fcfsScheduler64 procs) (fcfsScheduler procs) ∧
  (exact_sums procs →
     fcfsScheduler64 procs = fcfsScheduler procs ∧
     ∀ r, roundRobin fuel procs q = Returns r → roundRobin64 fuel procs q = Returns r).
Proof.
  intros Hex Hq.
  pose proof (roundRobin64_exact (2 ^ 53) procs q fuel Hex ltac:(lia) Hq) as H.
  split; [|split; [|split]].
  - intros r64 Hr. by apply roundRobin64_same.
  - intros r Hr. rewrite Hr in H.
    destruct (roundRobin64 fuel procs q) as [r64| |]; try done.
    exists r64. split; [done|]. by destruct H.
  - by apply fcfsScheduler64_same.
  - intros Hsum. destruct (exact_sums_bound procs Hsum) as (B & Hts & HB & Hn).
    split.
    + destruct (fcfsScheduler64_exact B procs Hts HB) as [_ Hf]. by apply Hf.
    + intros r Hr.
      pose proof (roundRobin64_exact B procs q fuel Hts HB Hq) as HB64.
      rewrite Hr in HB64.
      destruct (roundRobin64 fuel procs q) as [r64| |]; try done.
      destruct HB64 as [_ HB64]. by rewrite (HB64 Hn).
Qed.

Lemma rounding_not_visible_below_2_53_witness :
  ∃ r, roundRobin 7 DEFAULT_PROCESSES 4 = Returns r ∧
       roundRobin64 7 DEFAULT_PROCESSES 4 = Returns r ∧
       fcfsScheduler64 DEFAULT_PROCESSES = fcfsScheduler DEFAULT_PROCESSES.
Proof.
  destruct (rounding_not_visible_below_2_53 DEFAULT_PROCESSES 4 7)
    as (_ & _ & _ & Hsum).
  - repeat constructor; cbn; lia.
  - lia.
  - destruct Hsum as [Hf Hr]; [repeat constructor; cbn; lia|].
    destruct (roundRobin 7 DEFAULT_PROCESSES 4) as [r| |] eqn:E;
      [|by vm_compute in E..].
    exists r. split; [reflexivity|]. split; [apply Hr; reflexivity|exact Hf].
Defined.
